(** * Merkle Mountain Range proof verifier (ckb_mmr.h)

    A shallow embedding of the C verifier [mmr_verify] and of the
    functions it calls, followed by the properties proved about them.

    Conventions of the embedding.
    - [uint8_t], [uint32_t] and [uint64_t] values are integers of [Z]
      reduced modulo [2^8], [2^32] and [2^64]; every C operation that can
      wrap has its reduction written out ([u32], [u64]).  [int] is the
      32-bit two's complement integer ([i32]).
    - A C function that writes through an out pointer takes the old value
      of the pointee and returns the new one next to its [int] result.
    - A [while] loop whose bound is not a variable of the program is run
      with a counter; running out of it is reported ([None],
      [OutOfFuel]) and never turned into a value.  Lemmas below show for
      which inputs the counter is never exhausted.
    - C gives no meaning to a shift by the width of the type or more, nor
      to [__builtin_clzl(0)].  The model takes the mathematical shift
      reduced to the width, and 64 for the leading zeros of 0; the
      theorems that depend on such a value say so in a bound. *)

From Stdlib Require Import ZArith Lia List Bool.
From Stdlib.Strings Require Import Byte.
From stdpp Require Import base option list.

Local Open Scope Z_scope.

(** ** Machine integers *)

Definition u8 (x : Z) : Z := x mod 2 ^ 8.
Definition u16 (x : Z) : Z := x mod 2 ^ 16.
Definition u32 (x : Z) : Z := x mod 2 ^ 32.
Definition u64 (x : Z) : Z := x mod 2 ^ 64.

(** [int]: the representative of [x] in [-2^31, 2^31). *)
Definition i32 (x : Z) : Z := (x + 2 ^ 31) mod 2 ^ 32 - 2 ^ 31.

(** [x << n] at type [uint64_t] and at type [int].  The test on [n] only
    keeps evaluation from building [2^n] for a large [n]: see
    [shl64_spec] and [shl_int_spec]. *)
Definition shl64 (x n : Z) : Z := if n <? 64 then u64 (Z.shiftl x n) else 0.
Definition shl_int (x n : Z) : Z := if n <? 32 then i32 (Z.shiftl x n) else 0.

(** ** Bit counting (clz and cpop) *)

Fixpoint popcount_pos (p : positive) : Z :=
  match p with
  | xH => 1
  | xO q => popcount_pos q
  | xI q => 1 + popcount_pos q
  end.

Definition popcount (value : Z) : Z :=
  match value with
  | Zpos p => popcount_pos p
  | _ => 0
  end.

Definition _mmr_leading_zeros_u64 (value : Z) : Z :=
  if value =? 0 then 64 else 63 - Z.log2 value.

Definition _mmr_count_zeros_u64 (value : Z) : Z := 64 - popcount value.

(** ** Positional arithmetic *)

Definition _mmr_parent_offset (height : Z) : Z := u64 (shl_int 2 height).

Definition _mmr_sibling_offset (height : Z) : Z :=
  u64 (i32 (shl_int 2 height - 1)).

Definition _mmr_all_ones (num : Z) : bool :=
  negb (num =? 0) && (_mmr_count_zeros_u64 num =? _mmr_leading_zeros_u64 num).

Definition _mmr_jump_left (pos : Z) : Z :=
  let bit_length := u64 (64 - _mmr_leading_zeros_u64 pos) in
  let most_significant_bits := shl64 1 (u64 (bit_length - 1)) in
  u64 (pos - u64 (most_significant_bits - 1)).

(** The loop [while (!_mmr_all_ones(pos)) pos = _mmr_jump_left(pos);]. *)
Fixpoint pos_height_loop (fuel : nat) (pos : Z) : option Z :=
  match fuel with
  | O => None
  | S fuel' =>
      if _mmr_all_ones pos then Some pos
      else pos_height_loop fuel' (_mmr_jump_left pos)
  end.

Definition _mmr_pos_height_in_tree (pos : Z) : option Z :=
  match pos_height_loop 66 (u64 (pos + 1)) with
  | Some pos' => Some (u32 (u64 (u64 (64 - _mmr_leading_zeros_u64 pos') - 1)))
  | None => None
  end.

Record _mmr_peak_t : Type := mk_peak {
  peak_pos : Z;
  peak_height : Z;
  peak_present : Z
}.

Definition _mmr_get_peak_pos_by_height (height : Z) : Z :=
  u64 (shl64 1 (u32 (height + 1)) - 2).

(** The loop of [_mmr_left_peak_height_pos]; it returns the final
    [(height, prev_pos)]. *)
Fixpoint left_peak_loop (fuel : nat) (mmr_size height prev_pos pos : Z)
  : option (Z * Z) :=
  match fuel with
  | O => None
  | S fuel' =>
      if pos <? mmr_size then
        let height := u32 (height + 1) in
        left_peak_loop fuel' mmr_size height pos
          (_mmr_get_peak_pos_by_height height)
      else Some (height, prev_pos)
  end.

Definition _mmr_left_peak_height_pos (mmr_size : Z) : option _mmr_peak_t :=
  let height := 1 in
  let prev_pos := 0 in
  let pos := _mmr_get_peak_pos_by_height height in
  match left_peak_loop 64 mmr_size height prev_pos pos with
  | Some (height, prev_pos) =>
      Some {| peak_height := u32 (height - 1);
              peak_pos := prev_pos;
              peak_present := 1 |}
  | None => None
  end.

(** The loop of [_mmr_get_right_peak].  Its counter is the variable
    [height] itself, which the loop takes down to 0: [None] is the
    [return 0] taken at [height == 0]. *)
Fixpoint right_peak_loop (height : nat) (pos mmr_size : Z) : option (Z * nat) :=
  if pos >? u64 (mmr_size - 1) then
    match height with
    | O => None
    | S height' =>
        right_peak_loop height'
          (u64 (pos - _mmr_parent_offset (Z.of_nat height'))) mmr_size
    end
  else Some (pos, height).

Definition _mmr_get_right_peak (peak : _mmr_peak_t) (mmr_size : Z)
  : Z * _mmr_peak_t :=
  let height := peak_height peak in
  let pos := peak_pos peak in
  let pos := u64 (pos + _mmr_sibling_offset height) in
  match right_peak_loop (Z.to_nat height) pos mmr_size with
  | None =>
      (0, {| peak_pos := peak_pos peak;
             peak_height := peak_height peak;
             peak_present := 0 |})
  | Some (pos, height) =>
      (1, {| peak_pos := pos;
             peak_height := Z.of_nat height;
             peak_present := 1 |})
  end.

(** ** Error codes, nodes and the default readers *)

Definition ERROR_INVALID_STACK : Z := 80.
Definition ERROR_INVALID_COMMAND : Z := 81.
Definition ERROR_INVALID_PROOF : Z := 82.
Definition ERROR_PROOF_EOF : Z := 83.
Definition ERROR_LEAF_EOF : Z := 84.
Definition ERROR_NO_MORE_LEAFS : Z := 85.
Definition ERROR_NO_MORE_COMMANDS : Z := 86.
Definition ERROR_NODE_EOF : Z := 87.

Definition MMR_STACK_SIZE : Z := 257.
Definition MMR_NODE_BUFFER_MAX_BYTES : Z := 32.

Definition MMR_NODE_TYPE_BUFFER : Z := 1.
Definition MMR_NODE_TYPE_POINTER : Z := 2.

(** [node_value] holds the bytes that the member of the union selected
    by [node_t] designates: the content of [value.buffer], or the bytes
    found at the address [value.pointer] (the source buffer from there
    on; the buffers are never written during a verification). *)
Record mmr_node_t : Type := mk_node {
  node_t : Z;
  node_value : list byte;
  node_length : Z
}.

Definition mmr_node_value (node : mmr_node_t) : list byte := node_value node.

Definition byte_val (b : byte) : Z := Z.of_N (Byte.to_N b).

(** [s[i]] for a byte pointer [s]; a read past the end of the list that
    stands for the memory behind [s] gives 0. *)
Definition byte_at (s : list byte) (i : Z) : Z :=
  byte_val (nth (Z.to_nat i) s x00).

(** [memcmp(s1, s2, n)]. *)
Fixpoint memcmp (s1 s2 : list byte) (n : nat) : Z :=
  match n with
  | O => 0
  | S n' =>
      let c1 := byte_val (hd x00 s1) in
      let c2 := byte_val (hd x00 s2) in
      if c1 =? c2 then memcmp (tl s1) (tl s2) n' else c1 - c2
  end.

Definition MMR_MEMCMP (s1 s2 : list byte) (n : Z) : Z :=
  memcmp s1 s2 (Z.to_nat n).

Record mmr_default_buffer_reader_t : Type := mk_reader {
  buffer : list byte;
  buffer_length : Z;
  index : Z
}.

Definition mmr_default_buffer_reader_init (buffer : list byte)
    (buffer_length : Z) : Z * mmr_default_buffer_reader_t :=
  (0, {| buffer := buffer; buffer_length := buffer_length; index := 0 |}).

(** Little-endian loads [*((uint16_t * )(&buffer[i]))] and
    [*((uint64_t * )(&buffer[i]))]. *)
Definition load16 (s : list byte) (i : Z) : Z :=
  byte_at s i + 2 ^ 8 * byte_at s (i + 1).

Definition load64 (s : list byte) (i : Z) : Z :=
  byte_at s i + 2 ^ 8 * byte_at s (i + 1) + 2 ^ 16 * byte_at s (i + 2)
  + 2 ^ 24 * byte_at s (i + 3) + 2 ^ 32 * byte_at s (i + 4)
  + 2 ^ 40 * byte_at s (i + 5) + 2 ^ 48 * byte_at s (i + 6)
  + 2 ^ 56 * byte_at s (i + 7).

Definition _mmr_default_buffer_read_node (c : mmr_default_buffer_reader_t)
    (out : mmr_node_t) : Z * mmr_default_buffer_reader_t * mmr_node_t :=
  if u32 (buffer_length c - index c) <? 2 then (ERROR_NODE_EOF, c, out)
  else
    let len := load16 (buffer c) (index c) in
    if u32 (u32 (buffer_length c - index c) - 2) <? len then
      (ERROR_NODE_EOF, c, out)
    else
      let out := {| node_value := drop (Z.to_nat (u32 (index c + 2))) (buffer c);
                    node_t := MMR_NODE_TYPE_POINTER;
                    node_length := len |} in
      let c := {| buffer := buffer c; buffer_length := buffer_length c;
                  index := u32 (index c + (2 + len)) |} in
      (0, c, out).

Definition _mmr_default_command_read (c : mmr_default_buffer_reader_t)
    (out_command : Z) : Z * mmr_default_buffer_reader_t * Z :=
  if index c >=? buffer_length c then (ERROR_NO_MORE_COMMANDS, c, out_command)
  else
    let out_command := byte_at (buffer c) (index c) in
    let c := {| buffer := buffer c; buffer_length := buffer_length c;
                index := u32 (index c + 1) |} in
    (0, c, out_command).

Definition _mmr_default_leaf_iter_read (c : mmr_default_buffer_reader_t)
    (out_node : mmr_node_t) (out_position : Z)
  : Z * mmr_default_buffer_reader_t * mmr_node_t * Z :=
  if index c >=? buffer_length c then
    (ERROR_NO_MORE_LEAFS, c, out_node, out_position)
  else if u32 (buffer_length c - index c) <? 8 then
    (ERROR_LEAF_EOF, c, out_node, out_position)
  else
    let position := load64 (buffer c) (index c) in
    let c := {| buffer := buffer c; buffer_length := buffer_length c;
                index := u32 (index c + 8) |} in
    let '(ret, c, out_node) := _mmr_default_buffer_read_node c out_node in
    if negb (ret =? 0) then (ret, c, out_node, out_position)
    else (0, c, out_node, position).

(** ** The default merge: BLAKE2b (blake2b.h) *)

Module blake2b.

Definition BLAKE2B_BLOCKBYTES : Z := 128.
Definition BLAKE2B_OUTBYTES : Z := 64.

Record blake2b_state : Type := mk_blake2b_state {
  h : list Z;
  t0 : Z; t1 : Z;
  f0 : Z; f1 : Z;
  buf : list byte;
  buflen : Z;
  outlen : Z;
  last_node : Z
}.

Definition rotr64 (w c : Z) : Z :=
  Z.lor (Z.shiftr w c) (u64 (Z.shiftl w (64 - c))).

(** ["ckb-default-hash"] *)
Definition DEFAULT_PERSONAL : list byte :=
  [x63; x6b; x62; x2d; x64; x65; x66; x61;
   x75; x6c; x74; x2d; x68; x61; x73; x68].

Definition blake2b_IV : list Z :=
  [0x6a09e667f3bcc908; 0xbb67ae8584caa73b; 0x3c6ef372fe94f82b;
   0xa54ff53a5f1d36f1; 0x510e527fade682d1; 0x9b05688c2b3e6c1f;
   0x1f83d9abfb41bd6b; 0x5be0cd19137e2179].

Definition blake2b_sigma : list (list nat) :=
  [[0; 1; 2; 3; 4; 5; 6; 7; 8; 9; 10; 11; 12; 13; 14; 15];
   [14; 10; 4; 8; 9; 15; 13; 6; 1; 12; 0; 2; 11; 7; 5; 3];
   [11; 8; 12; 0; 5; 2; 15; 13; 10; 14; 3; 6; 7; 1; 9; 4];
   [7; 9; 3; 1; 13; 12; 11; 14; 2; 6; 5; 10; 4; 0; 15; 8];
   [9; 0; 5; 7; 2; 4; 10; 15; 14; 1; 11; 12; 6; 8; 3; 13];
   [2; 12; 6; 10; 0; 11; 8; 3; 4; 13; 7; 5; 15; 14; 1; 9];
   [12; 5; 1; 15; 14; 13; 4; 10; 0; 7; 6; 3; 9; 2; 8; 11];
   [13; 11; 7; 14; 12; 1; 3; 9; 5; 0; 15; 4; 8; 6; 2; 10];
   [6; 15; 14; 9; 11; 3; 0; 8; 12; 2; 13; 7; 1; 4; 10; 5];
   [10; 2; 8; 4; 7; 6; 1; 5; 15; 11; 9; 14; 3; 12; 13; 0];
   [0; 1; 2; 3; 4; 5; 6; 7; 8; 9; 10; 11; 12; 13; 14; 15];
   [14; 10; 4; 8; 9; 15; 13; 6; 1; 12; 0; 2; 11; 7; 5; 3]]%nat.

Definition byte_of_Z (x : Z) : byte :=
  match Byte.of_N (Z.to_N (u8 x)) with
  | Some b => b
  | None => x00
  end.

Definition store64 (w : Z) : list byte :=
  map (fun i => byte_of_Z (Z.shiftr w (8 * Z.of_nat i))) (seq 0 8).

(** The [n] bytes found at [src + off]. *)
Definition bytes_at (src : list byte) (off n : nat) : list byte :=
  map (fun i => nth (off + i) src x00) (seq 0 n).

(** [memcpy(dst + off, src, n)] into the array [dst]. *)
Definition memcpy (dst : list byte) (off : nat) (src : list byte) (n : nat)
  : list byte :=
  take off dst ++ bytes_at src 0 n ++ drop (off + n) dst.

Definition blake2b_increment_counter (St : blake2b_state) (inc : Z)
  : blake2b_state :=
  let t0' := u64 (t0 St + inc) in
  let t1' := u64 (t1 St + (if t0' <? inc then 1 else 0)) in
  mk_blake2b_state (h St) t0' t1' (f0 St) (f1 St) (buf St) (buflen St) (outlen St)
    (last_node St).

Definition blake2b_set_lastblock (St : blake2b_state) : blake2b_state :=
  let f1' := if negb (last_node St =? 0) then u64 (-1) else f1 St in
  mk_blake2b_state (h St) (t0 St) (t1 St) (u64 (-1)) f1' (buf St) (buflen St)
    (outlen St) (last_node St).

(** The parameter block that [ckb_blake2b_init] fills, as 64 bytes. *)
Definition ckb_param_block (outlen : Z) : list byte :=
  [byte_of_Z outlen; x00; x01; x01] ++ replicate 44 x00 ++ DEFAULT_PERSONAL.

Definition blake2b_init_param (P : list byte) : blake2b_state :=
  mk_blake2b_state
    (map (fun i => Z.lxor (nth i blake2b_IV 0) (load64 P (8 * Z.of_nat i)))
       (seq 0 8))
    0 0 0 0 (replicate 128 x00) 0 (byte_val (nth 0 P x00)) 0.

Definition ckb_blake2b_init (outlen : Z) : option blake2b_state :=
  if (outlen =? 0) || (outlen >? BLAKE2B_OUTBYTES) then None
  else Some (blake2b_init_param (ckb_param_block outlen)).

Definition G (m : list Z) (r i a b c d : nat) (v : list Z) : list Z :=
  let sigma := nth r blake2b_sigma [] in
  let va := nth a v 0 in
  let vb := nth b v 0 in
  let vc := nth c v 0 in
  let vd := nth d v 0 in
  let va := u64 (va + vb + nth (nth (2 * i + 0) sigma O) m 0) in
  let vd := rotr64 (Z.lxor vd va) 32 in
  let vc := u64 (vc + vd) in
  let vb := rotr64 (Z.lxor vb vc) 24 in
  let va := u64 (va + vb + nth (nth (2 * i + 1) sigma O) m 0) in
  let vd := rotr64 (Z.lxor vd va) 16 in
  let vc := u64 (vc + vd) in
  let vb := rotr64 (Z.lxor vb vc) 63 in
  <[d:=vd]> (<[c:=vc]> (<[b:=vb]> (<[a:=va]> v))).

Definition ROUND (m : list Z) (r : nat) (v : list Z) : list Z :=
  let v := G m r 0 0 4 8 12 v in
  let v := G m r 1 1 5 9 13 v in
  let v := G m r 2 2 6 10 14 v in
  let v := G m r 3 3 7 11 15 v in
  let v := G m r 4 0 5 10 15 v in
  let v := G m r 5 1 6 11 12 v in
  let v := G m r 6 2 7 8 13 v in
  G m r 7 3 4 9 14 v.

Definition blake2b_compress (St : blake2b_state) (block : list byte)
  : blake2b_state :=
  let m := map (fun i => load64 block (8 * Z.of_nat i)) (seq 0 16) in
  let v :=
    h St ++ [nth 0 blake2b_IV 0; nth 1 blake2b_IV 0; nth 2 blake2b_IV 0;
            nth 3 blake2b_IV 0;
            Z.lxor (nth 4 blake2b_IV 0) (t0 St);
            Z.lxor (nth 5 blake2b_IV 0) (t1 St);
            Z.lxor (nth 6 blake2b_IV 0) (f0 St);
            Z.lxor (nth 7 blake2b_IV 0) (f1 St)] in
  let v := fold_left (fun v r => ROUND m r v) (seq 0 12) v in
  let h' :=
    map (fun i =>
           Z.lxor (Z.lxor (nth i (h St) 0) (nth i v 0)) (nth (i + 8) v 0))
      (seq 0 8) in
  mk_blake2b_state h' (t0 St) (t1 St) (f0 St) (f1 St) (buf St) (buflen St)
    (outlen St) (last_node St).

(** [while (inlen > BLAKE2B_BLOCKBYTES) { ... }] of [blake2b_update]:
    [inlen] goes down by 128 at each turn, and [n] counts the turns
    left. *)
Fixpoint update_blocks (n : nat) (St : blake2b_state) (input : list byte)
    (inlen : Z) : blake2b_state * list byte * Z :=
  match n with
  | O => (St, input, inlen)
  | Datatypes.S n' =>
      if inlen >? BLAKE2B_BLOCKBYTES then
        let St := blake2b_increment_counter St BLAKE2B_BLOCKBYTES in
        let St := blake2b_compress St input in
        update_blocks n' St (drop 128 input) (inlen - BLAKE2B_BLOCKBYTES)
      else (St, input, inlen)
  end.

Definition set_buf (St : blake2b_state) (buf : list byte) (buflen : Z)
  : blake2b_state :=
  mk_blake2b_state (h St) (t0 St) (t1 St) (f0 St) (f1 St) buf buflen (outlen St)
    (last_node St).

Definition blake2b_update (St : blake2b_state) (input : list byte)
    (inlen : Z) : blake2b_state :=
  if inlen >? 0 then
    let left := buflen St in
    let fill := BLAKE2B_BLOCKBYTES - left in
    let '(St, input, inlen) :=
      if inlen >? fill then
        let St :=
          set_buf St (memcpy (buf St) (Z.to_nat left) input (Z.to_nat fill)) 0 in
        let St := blake2b_increment_counter St BLAKE2B_BLOCKBYTES in
        let St := blake2b_compress St (buf St) in
        update_blocks (Z.to_nat (inlen / 128)) St
          (drop (Z.to_nat fill) input) (inlen - fill)
      else (St, input, inlen) in
    set_buf St
      (memcpy (buf St) (Z.to_nat (buflen St)) input (Z.to_nat inlen))
      (buflen St + inlen)
  else St.

(** [blake2b_final]: the [int] it returns and the bytes written to
    [out]. *)
Definition blake2b_final (St : blake2b_state) (out : list byte)
    (outlen' : Z) : Z * list byte :=
  if outlen' <? outlen St then (-1, out)
  else if negb (f0 St =? 0) then (-1, out)
  else
    let St := blake2b_increment_counter St (buflen St) in
    let St := blake2b_set_lastblock St in
    let St :=
      set_buf St
        (take (Z.to_nat (buflen St)) (buf St)
         ++ replicate (Z.to_nat (BLAKE2B_BLOCKBYTES - buflen St)) x00)
        (buflen St) in
    let St := blake2b_compress St (buf St) in
    let buffer := concat (map store64 (h St)) in
    (0, memcpy out 0 buffer (Z.to_nat (outlen St))).

End blake2b.

(** [dst] may be the node of [lhs] or of [rhs]: both are read before
    [blake2b_final] writes the digest. *)
Definition mmr_blake2b_merge (dst lhs rhs : mmr_node_t) : Z * mmr_node_t :=
  match blake2b.ckb_blake2b_init 32 with
  | None => (0, dst)
  | Some ctx =>
      let ctx := blake2b.blake2b_update ctx (mmr_node_value lhs) (node_length lhs) in
      let ctx := blake2b.blake2b_update ctx (mmr_node_value rhs) (node_length rhs) in
      let buffer :=
        snd (blake2b.blake2b_final ctx
               (blake2b.bytes_at (node_value dst) 0
                  (Z.to_nat MMR_NODE_BUFFER_MAX_BYTES)) 32) in
      (0, {| node_value := buffer; node_t := MMR_NODE_TYPE_BUFFER;
             node_length := 32 |})
  end.

(** ** The verifier *)

Record _mmr_stack_value_t : Type := mk_stack_value {
  sv_t : Z;
  sv_node : mmr_node_t;
  sv_position : Z;
  sv_height : Z
}.

Definition _MMR_STACK_NODE : Z := 1.
Definition _MMR_STACK_PROOF : Z := 2.
Definition _MMR_STACK_PEAK : Z := 3.

(** How a piece of the body of [mmr_verify] ends. *)
Inductive outcome (A : Type) : Type :=
| Continue (a : A)   (* the end of the loop body is reached *)
| Break (a : A)      (* [break] *)
| Return (code : Z)  (* [return code] *)
| Fault              (* [stack[i]] with [i] outside the array *)
| OutOfFuel.         (* a loop counter of the model ran out *)
Arguments Continue {A} a.
Arguments Break {A} a.
Arguments Return {A} code.
Arguments Fault {A}.
Arguments OutOfFuel {A}.

(** The local array [stack[MMR_STACK_SIZE]]: a list of that length, read
    and written by index.  An index outside the array is not an access
    that C defines, it gives [None]. *)
Definition stack_get (stack : list _mmr_stack_value_t) (i : Z)
  : option _mmr_stack_value_t :=
  if (0 <=? i) && (i <? MMR_STACK_SIZE) then stack !! Z.to_nat i else None.

Definition stack_set (stack : list _mmr_stack_value_t) (i : Z)
    (v : _mmr_stack_value_t) : option (list _mmr_stack_value_t) :=
  if (0 <=? i) && (i <? MMR_STACK_SIZE) && (i <? Z.of_nat (length stack))
  then Some (<[Z.to_nat i := v]> stack) else None.

(** The locals of [mmr_verify] that live across iterations, with the two
    reader contexts its arguments point to. *)
Record verify_state {PCtx LCtx : Type} : Type := mk_state {
  stack : list _mmr_stack_value_t;
  stack_top : Z;
  next_peak_info : _mmr_peak_t;
  last_leaf_pos : Z;
  has_last_leaf : Z;
  command : Z;
  proof_reader_context : PCtx;
  leaf_reader_context : LCtx
}.
Arguments verify_state : clear implicits.
Arguments mk_state {PCtx LCtx}.

(** The loop of opcode 5:
    [while (next_peak_info.present != 0 && pos != next_peak_info.pos)
       _mmr_get_right_peak(&next_peak_info, mmr_size);] *)
Fixpoint peak_seek_loop (fuel : nat) (pos : Z) (next_peak_info : _mmr_peak_t)
    (mmr_size : Z) : option _mmr_peak_t :=
  match fuel with
  | O => None
  | S fuel' =>
      if negb (peak_present next_peak_info =? 0)
         && negb (pos =? peak_pos next_peak_info)
      then peak_seek_loop fuel' pos
             (snd (_mmr_get_right_peak next_peak_info mmr_size)) mmr_size
      else Some next_peak_info
  end.

Definition PEAK_SEEK_FUEL : nat := 130.

Definition uninit_node : mmr_node_t :=
  {| node_t := 0; node_value := []; node_length := 0 |}.
Definition uninit_stack_value : _mmr_stack_value_t :=
  {| sv_t := 0; sv_node := uninit_node; sv_position := 0; sv_height := 0 |}.

(** What a call of [mmr_verify] comes to. *)
Inductive result : Type :=
| Returns (code : Z)
| Faults
| Stops.   (* a loop counter of the model ran out *)

Section Verifier.

(** The hooks [MMR_MERGE], [MMR_MERGE_PEAKS], [MMR_LEAF_READER],
    [MMR_COMMAND_READER] and [MMR_PROOF_READER] are macros of the
    header; the verifier is written once for every choice of them.  The
    two reader contexts are the [void *] arguments of [mmr_verify]. *)
Context {PCtx LCtx : Type}.
Variable MMR_MERGE : mmr_node_t -> mmr_node_t -> mmr_node_t -> Z * mmr_node_t.
Variable MMR_MERGE_PEAKS :
  mmr_node_t -> mmr_node_t -> mmr_node_t -> Z * mmr_node_t.
Variable MMR_LEAF_READER : LCtx -> mmr_node_t -> Z -> Z * LCtx * mmr_node_t * Z.
Variable MMR_COMMAND_READER : PCtx -> Z -> Z * PCtx * Z.
Variable MMR_PROOF_READER : PCtx -> mmr_node_t -> Z * PCtx * mmr_node_t.

Abbreviation state := (verify_state PCtx LCtx).

Definition set_stack (st : state) (stack : list _mmr_stack_value_t)
    (stack_top : Z) : state :=
  mk_state stack stack_top (next_peak_info st) (last_leaf_pos st)
    (has_last_leaf st) (command st) (proof_reader_context st)
    (leaf_reader_context st).

(** [case 1:] push the next leaf. *)
Definition case_1 (mmr_size : Z) (st : state) : outcome state :=
  if stack_top st >=? MMR_STACK_SIZE then Return ERROR_INVALID_STACK
  else
    match stack_get (stack st) (stack_top st) with
    | None => Fault
    | Some slot =>
        let '(leaf_success, lctx, node, position) :=
          MMR_LEAF_READER (leaf_reader_context st) (sv_node slot)
            (sv_position slot) in
        if negb (leaf_success =? 0) then Return leaf_success
        else if negb (has_last_leaf st =? 0)
                && (last_leaf_pos st >=? position)
        then Return ERROR_INVALID_PROOF
        else if position >=? mmr_size then Return ERROR_INVALID_PROOF
        else
          match _mmr_pos_height_in_tree position with
          | None => OutOfFuel
          | Some h =>
              if h >? 0 then Return ERROR_INVALID_PROOF
              else
                match stack_set (stack st) (stack_top st)
                        {| sv_t := _MMR_STACK_NODE; sv_node := node;
                           sv_position := position; sv_height := 0 |} with
                | None => Fault
                | Some stack' =>
                    Continue
                      (mk_state stack' (u32 (stack_top st + 1))
                         (next_peak_info st) position 1 (command st)
                         (proof_reader_context st) lctx)
                end
          end
    end.

(** [case 2:] push a node of the proof. *)
Definition case_2 (st : state) : outcome state :=
  if stack_top st >=? MMR_STACK_SIZE then Return ERROR_INVALID_STACK
  else
    match stack_get (stack st) (stack_top st) with
    | None => Fault
    | Some slot =>
        let '(ret, pctx, node) :=
          MMR_PROOF_READER (proof_reader_context st) (sv_node slot) in
        if negb (ret =? 0) then Return ret
        else
          match stack_set (stack st) (stack_top st)
                  {| sv_t := _MMR_STACK_PROOF; sv_node := node;
                     sv_position := 0; sv_height := 0 |} with
          | None => Fault
          | Some stack' =>
              Continue
                (mk_state stack' (u32 (stack_top st + 1))
                   (next_peak_info st) (last_leaf_pos st)
                   (has_last_leaf st) (command st) pctx
                   (leaf_reader_context st))
          end
    end.

(** [case 3:] merge the two entries on top into their parent. *)
Definition case_3 (st : state) : outcome state :=
  if stack_top st <? 2 then Return ERROR_INVALID_STACK
  else
    let lhs_index := u32 (stack_top st - 2) in
    let rhs_index := u32 (stack_top st - 1) in
    match stack_get (stack st) lhs_index, stack_get (stack st) rhs_index with
    | Some lhs, Some rhs =>
        let '(pos, height, next_pos, next_t, item, sibling_item) :=
          if sv_t lhs =? _MMR_STACK_PROOF
          then (sv_position rhs, sv_height rhs, sv_position lhs, sv_t lhs,
                sv_node rhs, sv_node lhs)
          else (sv_position lhs, sv_height lhs, sv_position rhs, sv_t rhs,
                sv_node lhs, sv_node rhs) in
        match _mmr_pos_height_in_tree (u64 (pos + 1)) with
        | None => OutOfFuel
        | Some next_height =>
            let sibling_offset := _mmr_sibling_offset height in
            let '(sib_pos, parent_pos) :=
              if next_height >? height
              then (u64 (pos - sibling_offset), u64 (pos + 1))
              else (u64 (pos + sibling_offset),
                    u64 (pos + _mmr_parent_offset height)) in
            if negb (sib_pos =? next_pos)
               && negb (next_t =? _MMR_STACK_PROOF)
            then Return ERROR_INVALID_PROOF
            else
              let merged :=
                if next_height >? height
                then snd (MMR_MERGE (sv_node lhs) sibling_item item)
                else snd (MMR_MERGE (sv_node lhs) item sibling_item) in
              match stack_set (stack st) (u32 (stack_top st - 2))
                      {| sv_node := merged; sv_position := parent_pos;
                         sv_height := u32 (height + 1);
                         sv_t := _MMR_STACK_NODE |} with
              | None => Fault
              | Some stack' =>
                  Continue (set_stack st stack' (u32 (stack_top st - 1)))
              end
        end
    | _, _ => Fault
    end.

(** [case 4:] merge two peaks. *)
Definition case_4 (st : state) : outcome state :=
  if stack_top st <? 2 then Return ERROR_INVALID_STACK
  else
    let top_index := u32 (stack_top st - 1) in
    let bottom_index := u32 (stack_top st - 2) in
    match stack_get (stack st) top_index,
          stack_get (stack st) bottom_index with
    | Some top, Some bottom =>
        if negb (sv_t top =? _MMR_STACK_PEAK)
           || negb (sv_t bottom =? _MMR_STACK_PEAK)
        then Return ERROR_INVALID_PROOF
        else
          let merged :=
            snd (MMR_MERGE_PEAKS (sv_node bottom) (sv_node top)
                   (sv_node bottom)) in
          match stack_set (stack st) (u32 (stack_top st - 2))
                  {| sv_t := sv_t bottom; sv_node := merged;
                     sv_position := sv_position bottom;
                     sv_height := 0 |} with
          | None => Fault
          | Some stack' =>
              Continue (set_stack st stack' (u32 (stack_top st - 1)))
          end
    | _, _ => Fault
    end.

(** The end of [case 5:], [stack[stack_top - 1].t = _MMR_STACK_PEAK]. *)
Definition case_5_retag (st : state) (top : _mmr_stack_value_t)
    (next_peak_info : _mmr_peak_t) : outcome state :=
  match stack_set (stack st) (u32 (stack_top st - 1))
          {| sv_t := _MMR_STACK_PEAK; sv_node := sv_node top;
             sv_position := sv_position top;
             sv_height := sv_height top |} with
  | None => Fault
  | Some stack' =>
      Continue
        (mk_state stack' (stack_top st) next_peak_info
           (last_leaf_pos st) (has_last_leaf st) (command st)
           (proof_reader_context st) (leaf_reader_context st))
  end.

(** [case 5:] mark the entry on top as a peak. *)
Definition case_5 (mmr_size : Z) (st : state) : outcome state :=
  if stack_top st <? 1 then Return ERROR_INVALID_STACK
  else
    match stack_get (stack st) (u32 (stack_top st - 1)) with
    | None => Fault
    | Some top =>
        let pos := sv_position top in
        if negb (sv_t top =? _MMR_STACK_PROOF) then
          match peak_seek_loop PEAK_SEEK_FUEL pos (next_peak_info st)
                  mmr_size with
          | None => OutOfFuel
          | Some next_peak_info =>
              if peak_present next_peak_info =? 0
              then Return ERROR_INVALID_PROOF
              else
                case_5_retag st top
                  (snd (_mmr_get_right_peak next_peak_info mmr_size))
          end
        else case_5_retag st top (next_peak_info st)
    end.

(** One iteration of [while (1) { ... }]. *)
Definition mmr_verify_step (mmr_size : Z) (st : state) : outcome state :=
  let '(ret, pctx, command) :=
    MMR_COMMAND_READER (proof_reader_context st) (command st) in
  let st :=
    mk_state (stack st) (stack_top st) (next_peak_info st)
      (last_leaf_pos st) (has_last_leaf st) command pctx
      (leaf_reader_context st) in
  if ret =? ERROR_NO_MORE_COMMANDS then Break st
  else if negb (ret =? 0) then Return ret
  else
    match command with
    | 1 => case_1 mmr_size st
    | 2 => case_2 st
    | 3 => case_3 st
    | 4 => case_4 st
    | 5 => case_5 mmr_size st
    | _ => Return ERROR_INVALID_COMMAND
    end.

Fixpoint mmr_verify_loop (fuel : nat) (mmr_size : Z) (st : state)
  : outcome state :=
  match fuel with
  | O => OutOfFuel
  | S fuel' =>
      match mmr_verify_step mmr_size st with
      | Continue st' => mmr_verify_loop fuel' mmr_size st'
      | r => r
      end
  end.

(** The checks after the loop. *)
Definition mmr_verify_finish (root : list byte) (root_length : Z)
    (st : state) : result :=
  if negb (stack_top st =? 1) then Returns ERROR_INVALID_PROOF
  else
    let '(ret, _, _, _) :=
      MMR_LEAF_READER (leaf_reader_context st) uninit_node 0 in
    if ret =? 0 then Returns ERROR_INVALID_PROOF
    else
      match stack_get (stack st) 0 with
      | None => Faults
      | Some bottom =>
          if negb (root_length =? node_length (sv_node bottom))
          then Returns ERROR_INVALID_PROOF
          else if negb (MMR_MEMCMP root (mmr_node_value (sv_node bottom))
                          root_length =? 0)
          then Returns ERROR_INVALID_PROOF
          else Returns 0
      end.

Definition initial_state (next_peak_info : _mmr_peak_t)
    (proof_reader_context : PCtx) (leaf_reader_context : LCtx) : state :=
  mk_state (replicate (Z.to_nat MMR_STACK_SIZE) uninit_stack_value) 0
    next_peak_info 0 0 255 proof_reader_context leaf_reader_context.

(** [mmr_verify]; [fuel] bounds the number of iterations of its
    [while (1)]. *)
Definition mmr_verify (fuel : nat) (root : list byte)
    (root_length mmr_size : Z) (proof_reader_context : PCtx)
    (leaf_reader_context : LCtx) : result :=
  match _mmr_left_peak_height_pos mmr_size with
  | None => Stops
  | Some next_peak_info =>
      if mmr_size =? 0 then Returns ERROR_INVALID_PROOF
      else
        match mmr_verify_loop fuel mmr_size
                (initial_state next_peak_info proof_reader_context
                   leaf_reader_context) with
        | Continue _ => Stops
        | Break st => mmr_verify_finish root root_length st
        | Return code => Returns code
        | Fault => Faults
        | OutOfFuel => Stops
        end
  end.

End Verifier.

(** ** The test harness (rust-tests/mmr.c) *)

Definition run_mmr_verify (root : list byte) (root_length mmr_size : Z)
    (proof : list byte) (proof_length : Z) (leaves : list byte)
    (leaves_length : Z) : result :=
  let proof_buffer_reader :=
    snd (mmr_default_buffer_reader_init proof proof_length) in
  let leaf_buffer_reader :=
    snd (mmr_default_buffer_reader_init leaves leaves_length) in
  mmr_verify mmr_blake2b_merge mmr_blake2b_merge _mmr_default_leaf_iter_read
    _mmr_default_command_read _mmr_default_buffer_read_node
    (S (Z.to_nat proof_length)) root root_length mmr_size
    proof_buffer_reader leaf_buffer_reader.



(** ** Notions used to state the properties *)

(** The value of a [uint32_t] variable. *)
Definition is_u32 (x : Z) : Prop := 0 <= x < 2 ^ 32.

(** The array [stack] has its [MMR_STACK_SIZE] slots and [stack_top]
    lies within them. *)
Definition stack_wf {PCtx LCtx : Type} (st : verify_state PCtx LCtx) : Prop :=
  length (stack st) = Z.to_nat MMR_STACK_SIZE
  /\ 0 <= stack_top st <= MMR_STACK_SIZE.

(** A default reader whose cursor lies within its buffer. *)
Definition reader_wf (c : mmr_default_buffer_reader_t) : Prop :=
  0 <= index c <= buffer_length c /\ buffer_length c < 2 ^ 32.

(** A whole leaf record lies at the cursor of a default reader. *)
Definition complete_leaf_record (c : mmr_default_buffer_reader_t) : Prop :=
  10 <= buffer_length c - index c
  /\ load16 (buffer c) (index c + 8) <= buffer_length c - index c - 10.

(** The peak cursor after [k] calls of [_mmr_get_right_peak]. *)
Definition advance_peak (mmr_size : Z) (k : nat) (peak : _mmr_peak_t)
  : _mmr_peak_t :=
  Nat.iter k (fun peak => snd (_mmr_get_right_peak peak mmr_size)) peak.

(** The condition that ends the loop of opcode 5. *)
Definition peak_found (pos : Z) (peak : _mmr_peak_t) : Prop :=
  peak_present peak = 0 \/ peak_pos peak = pos.

(** The peak cursor of a run on an MMR of at most [2^31 - 2] nodes: it is
    absent, or it stands below [mmr_size] at a height of at most 29, and
    what lies to its right fits a tree of that height. *)
Definition peak_inv (mmr_size : Z) (peak : _mmr_peak_t) : Prop :=
  peak_present peak = 0
  \/ (0 <= peak_height peak <= 29
      /\ 0 <= peak_pos peak < mmr_size
      /\ mmr_size <= peak_pos peak + 2 ^ (peak_height peak + 1)).

(** A bound on the calls of [_mmr_get_right_peak] that the cursor still
    answers with a peak. *)
Definition peak_measure (mmr_size : Z) (peak : _mmr_peak_t) : nat :=
  if peak_present peak =? 0 then 0%nat
  else if mmr_size =? peak_pos peak + 1 then 1%nat
  else (Z.to_nat (peak_height peak) + 2)%nat.

(** What holds of the state of a run with the default readers. *)
Definition run_inv (mmr_size : Z)
    (st : verify_state mmr_default_buffer_reader_t
            mmr_default_buffer_reader_t) : Prop :=
  stack_wf st
  /\ reader_wf (proof_reader_context st)
  /\ reader_wf (leaf_reader_context st)
  /\ peak_inv mmr_size (next_peak_info st).

(** The height of the node at the 1-based position [q] of an MMR: a
    position of the form [2^(h+1) - 1] is the top of a perfect tree of
    height [h]; another one is as high as the position that lies as far
    into the tree to the left. *)
Inductive tree_height : Z -> Z -> Prop :=
| tree_height_top h : 0 <= h -> tree_height (2 ^ (h + 1) - 1) h
| tree_height_jump k q h :
    0 <= k -> 2 ^ k <= q <= 2 ^ (k + 1) - 2 ->
    tree_height (q - 2 ^ k + 1) h -> tree_height q h.

Section Runs.

Context {PCtx LCtx : Type}.
Variable MMR_MERGE : mmr_node_t -> mmr_node_t -> mmr_node_t -> Z * mmr_node_t.
Variable MMR_MERGE_PEAKS :
  mmr_node_t -> mmr_node_t -> mmr_node_t -> Z * mmr_node_t.
Variable MMR_LEAF_READER : LCtx -> mmr_node_t -> Z -> Z * LCtx * mmr_node_t * Z.
Variable MMR_COMMAND_READER : PCtx -> Z -> Z * PCtx * Z.
Variable MMR_PROOF_READER : PCtx -> mmr_node_t -> Z * PCtx * mmr_node_t.

(** The state after [n] whole iterations of the main loop, when the run
    gets that far. *)
Fixpoint run_steps (n : nat) (mmr_size : Z) (st : verify_state PCtx LCtx)
  : outcome (verify_state PCtx LCtx) :=
  match n with
  | O => Continue st
  | S n' =>
      match mmr_verify_step MMR_MERGE MMR_MERGE_PEAKS MMR_LEAF_READER
              MMR_COMMAND_READER MMR_PROOF_READER mmr_size st with
      | Continue st' => run_steps n' mmr_size st'
      | r => r
      end
  end.

(** [st] is a state in which a run of [mmr_verify] on these arguments
    starts an iteration of its loop. *)
Definition reachable (mmr_size : Z) (proof_reader_context : PCtx)
    (leaf_reader_context : LCtx) (st : verify_state PCtx LCtx) : Prop :=
  exists next_peak_info n,
    _mmr_left_peak_height_pos mmr_size = Some next_peak_info
    /\ mmr_size <> 0
    /\ run_steps n mmr_size
         (initial_state next_peak_info proof_reader_context
            leaf_reader_context) = Continue st.

End Runs.

(** ** Inputs of the examples *)

(** A node of 32 bytes, its record in a proof (length, little-endian,
    then the bytes) and the record of a leaf at a position below 256. *)
Definition example_node : list byte := replicate 32 x07.

Definition example_node_record : list byte := [x20; x00] ++ example_node.

Definition example_leaf_record (position : byte) : list byte :=
  [position; x00; x00; x00; x00; x00; x00; x00] ++ example_node_record.

Definition example_node_entry (position height : Z) : _mmr_stack_value_t :=
  mk_stack_value _MMR_STACK_NODE
    (mk_node MMR_NODE_TYPE_POINTER example_node 32) position height.

Definition example_proof_entry : _mmr_stack_value_t :=
  mk_stack_value _MMR_STACK_PROOF
    (mk_node MMR_NODE_TYPE_POINTER example_node 32) 0 0.

(** A state of a run on an MMR of one node, with the given stack and
    what is left of the proof and of the leaves. *)
Definition example_state (stack : list _mmr_stack_value_t) (stack_top : Z)
    (proof leaves : list byte)
  : verify_state mmr_default_buffer_reader_t mmr_default_buffer_reader_t :=
  mk_state stack stack_top (mk_peak 0 0 1) 0 0 255
    (mk_reader proof (Z.of_nat (length proof)) 0)
    (mk_reader leaves (Z.of_nat (length leaves)) 0).

(** The hooks as the header defines them. *)
Abbreviation default_step :=
  (mmr_verify_step mmr_blake2b_merge mmr_blake2b_merge
     _mmr_default_leaf_iter_read _mmr_default_command_read
     _mmr_default_buffer_read_node).
Abbreviation default_steps :=
  (run_steps mmr_blake2b_merge mmr_blake2b_merge
     _mmr_default_leaf_iter_read _mmr_default_command_read
     _mmr_default_buffer_read_node).
Abbreviation default_reachable :=
  (reachable mmr_blake2b_merge mmr_blake2b_merge
     _mmr_default_leaf_iter_read _mmr_default_command_read
     _mmr_default_buffer_read_node).

(** The positions after the 1-based position [base] have the heights of
    the positions of an MMR that starts there, as far as the parent of
    a tree of height [h] would reach. *)
Definition transparent (base h : Z) : Prop :=
  forall d h0, 1 <= d <= 2 ^ (h + 2) - 2 ->
               tree_height d h0 -> tree_height (base + d) h0.

(** The peak cursor on its way from the left peak to the right: once
    absent it stays as it is; while present it stands on a node of the
    height it records, the top of a tree that starts after [base]. *)
Definition peak_chain_inv (mmr_size : Z) (peak : _mmr_peak_t) : Prop :=
  (peak_present peak = 0
   /\ snd (_mmr_get_right_peak peak mmr_size) = peak)
  \/ (peak_present peak <> 0
      /\ 0 <= peak_height peak <= 29
      /\ 0 <= peak_pos peak < mmr_size
      /\ mmr_size <= peak_pos peak + 2 ^ (peak_height peak + 1)
      /\ tree_height (peak_pos peak + 1) (peak_height peak)
      /\ (mmr_size = peak_pos peak + 1
          \/ exists base,
               0 <= base
               /\ peak_pos peak + 1 = base + 2 ^ (peak_height peak + 1) - 1
               /\ transparent base (peak_height peak))).

(** A run on an MMR of four nodes, the leaves at 0, 1 and 3 and the
    parent of the first two at 2: the proof pushes the leaf at 0 and the
    node at 1, merges them, marks the peak at 2, pushes the leaf at 3
    and marks it. *)
Definition example_proof : list byte :=
  [x01; x02] ++ example_node_record ++ [x03; x05; x01; x05].

Definition example_leaves : list byte :=
  example_leaf_record x00 ++ example_leaf_record x03.

Definition example_run_start
  : verify_state mmr_default_buffer_reader_t mmr_default_buffer_reader_t :=
  initial_state (mk_peak 2 1 1) (mk_reader example_proof 40 0)
    (mk_reader example_leaves 84 0).

(** The state of that run after [n] iterations. *)
Definition example_run_state (n : nat)
  : verify_state mmr_default_buffer_reader_t mmr_default_buffer_reader_t :=
  match default_steps n 4 example_run_start with
  | Continue st => st
  | _ => example_run_start
  end.

(** ** BLAKE2b as a function of the bytes absorbed *)

(** A BLAKE2b state without its buffer, and the bytes that wait in the
    buffer. *)
Definition blake2b_core (St : blake2b.blake2b_state) : blake2b.blake2b_state :=
  blake2b.set_buf St [] 0.

Definition blake2b_pending (St : blake2b.blake2b_state) : list byte :=
  take (Z.to_nat (blake2b.buflen St)) (blake2b.buf St).

(** The array [buf] has its 128 bytes and [buflen] lies within them. *)
Definition buffer_wf (St : blake2b.blake2b_state) : Prop :=
  length (blake2b.buf St) = 128%nat /\ 0 <= blake2b.buflen St <= 128.

(** One more byte of input: it waits with the others, unless 128 wait
    already; these are compressed first. *)
Definition absorb_byte (a : blake2b.blake2b_state * list byte) (x : byte)
  : blake2b.blake2b_state * list byte :=
  if (length (snd a) <? 128)%nat then (fst a, snd a ++ [x])
  else (blake2b.blake2b_compress
          (blake2b.blake2b_increment_counter (fst a) 128) (snd a), [x]).

Definition absorb (a : blake2b.blake2b_state * list byte) (data : list byte)
  : blake2b.blake2b_state * list byte :=
  fold_left absorb_byte data a.

(** The bytes of a node: [length] bytes from where its value starts. *)
Definition node_bytes (node : mmr_node_t) : list byte :=
  blake2b.bytes_at (mmr_node_value node) 0 (Z.to_nat (node_length node)).

(** The state in which [mmr_blake2b_merge] starts. *)
Definition example_blake2b_state : blake2b.blake2b_state :=
  blake2b.blake2b_init_param (blake2b.ckb_param_block 32).

(** ** The records of the default readers *)

(** A node as [_mmr_default_buffer_read_node] expects it: the length in
    two bytes, the low one first, and the bytes. *)
Definition node_record (bytes : list byte) : list byte :=
  [blake2b.byte_of_Z (Z.of_nat (length bytes));
   blake2b.byte_of_Z (Z.shiftr (Z.of_nat (length bytes)) 8)] ++ bytes.

(** A leaf as [_mmr_default_leaf_iter_read] expects it: the position in
    eight bytes, the lowest first, and the node. *)
Definition leaf_record (position : Z) (bytes : list byte) : list byte :=
  blake2b.store64 position ++ node_record bytes.
(** * Properties *)

(** ** Machine integers *)

Lemma u32_range x : 0 <= u32 x < 2 ^ 32.
Proof. unfold u32. apply Z.mod_pos_bound. lia. Qed.

Lemma u64_range x : 0 <= u64 x < 2 ^ 64.
Proof. unfold u64. apply Z.mod_pos_bound. lia. Qed.

Lemma u32_small x : 0 <= x < 2 ^ 32 -> u32 x = x.
Proof. intros H. unfold u32. apply Z.mod_small. exact H. Qed.

Lemma u64_small x : 0 <= x < 2 ^ 64 -> u64 x = x.
Proof. intros H. unfold u64. apply Z.mod_small. exact H. Qed.

Lemma i32_small x : - 2 ^ 31 <= x < 2 ^ 31 -> i32 x = x.
Proof. intros H. unfold i32. rewrite Z.mod_small; lia. Qed.

Lemma shl64_spec x n : 0 <= n -> shl64 x n = u64 (Z.shiftl x n).
Proof.
  intros Hn. unfold shl64. destruct (Z.ltb_spec n 64) as [Hlt | Hge]; [reflexivity |].
  unfold u64. rewrite Z.shiftl_mul_pow2 by lia.
  replace n with (64 + (n - 64)) by lia.
  rewrite Z.pow_add_r by lia.
  replace (x * (2 ^ 64 * 2 ^ (n - 64))) with (x * 2 ^ (n - 64) * 2 ^ 64) by ring.
  symmetry. apply Z.mod_mul. lia.
Qed.

Lemma shl_int_spec x n : 0 <= n -> shl_int x n = i32 (Z.shiftl x n).
Proof.
  intros Hn. unfold shl_int. destruct (Z.ltb_spec n 32) as [Hlt | Hge]; [reflexivity |].
  unfold i32. rewrite Z.shiftl_mul_pow2 by lia.
  replace n with (32 + (n - 32)) by lia.
  rewrite Z.pow_add_r by lia.
  replace (x * (2 ^ 32 * 2 ^ (n - 32)) + 2 ^ 31)
    with (2 ^ 31 + x * 2 ^ (n - 32) * 2 ^ 32) by ring.
  rewrite Z.mod_add by lia. reflexivity.
Qed.

Lemma pow2_pos n : 0 <= n -> 0 < 2 ^ n.
Proof. intros. apply Z.pow_pos_nonneg; lia. Qed.

Lemma pow2_le m n : 0 <= m <= n -> 2 ^ m <= 2 ^ n.
Proof. intros. apply Z.pow_le_mono_r; lia. Qed.

Lemma pow2_lt m n : 0 <= m < n -> 2 ^ m < 2 ^ n.
Proof. intros. apply Z.pow_lt_mono_r; lia. Qed.

Lemma pow2_succ n : 0 <= n -> 2 ^ (n + 1) = 2 * 2 ^ n.
Proof. intros. rewrite Z.pow_add_r by lia. lia. Qed.

(** Within the heights for which [2 << height] fits an [int], the two
    offsets are the powers of two of the MMR. *)
Lemma parent_offset_small height :
  0 <= height <= 29 -> _mmr_parent_offset height = 2 ^ (height + 1).
Proof.
  intros H. unfold _mmr_parent_offset, shl_int.
  destruct (Z.ltb_spec height 32); [| lia].
  rewrite Z.shiftl_mul_pow2 by lia.
  assert (2 ^ (height + 1) <= 2 ^ 30) by (apply pow2_le; lia).
  assert (0 < 2 ^ (height + 1)) by (apply pow2_pos; lia).
  rewrite pow2_succ in * by lia.
  rewrite i32_small by lia. apply u64_small. lia.
Qed.

Lemma sibling_offset_small height :
  0 <= height <= 29 -> _mmr_sibling_offset height = 2 ^ (height + 1) - 1.
Proof.
  intros H. unfold _mmr_sibling_offset, shl_int.
  destruct (Z.ltb_spec height 32); [| lia].
  rewrite Z.shiftl_mul_pow2 by lia.
  assert (2 ^ (height + 1) <= 2 ^ 30) by (apply pow2_le; lia).
  assert (0 < 2 ^ (height + 1)) by (apply pow2_pos; lia).
  rewrite pow2_succ in * by lia.
  rewrite (i32_small (2 * 2 ^ height)) by lia.
  rewrite i32_small by lia. apply u64_small. lia.
Qed.

Lemma peak_pos_by_height_small height :
  0 <= height <= 62 -> _mmr_get_peak_pos_by_height height = 2 ^ (height + 1) - 2.
Proof.
  intros H. unfold _mmr_get_peak_pos_by_height.
  rewrite (u32_small (height + 1)) by lia.
  unfold shl64. destruct (Z.ltb_spec (height + 1) 64); [| lia].
  rewrite Z.shiftl_mul_pow2 by lia.
  assert (2 ^ (height + 1) <= 2 ^ 63) by (apply pow2_le; lia).
  assert (2 ^ 1 <= 2 ^ (height + 1)) by (apply pow2_le; lia).
  rewrite Z.mul_1_l. rewrite (u64_small (2 ^ _)) by lia. apply u64_small. lia.
Qed.

(** ** The default leaf reader *)

Lemma default_leaf_iter_read_spec (c : mmr_default_buffer_reader_t)
    (out_node : mmr_node_t) (out_position : Z) :
  0 <= index c <= buffer_length c -> buffer_length c < 2 ^ 32 ->
  let remaining := buffer_length c - index c in
  let len := load16 (buffer c) (index c + 8) in
  let r := _mmr_default_leaf_iter_read c out_node out_position in
  (remaining = 0 -> r = (ERROR_NO_MORE_LEAFS, c, out_node, out_position))
  /\ (0 < remaining < 8 -> r = (ERROR_LEAF_EOF, c, out_node, out_position))
  /\ (8 <= remaining -> remaining < 10 \/ remaining - 10 < len ->
      r = (ERROR_NODE_EOF,
           mk_reader (buffer c) (buffer_length c) (index c + 8),
           out_node, out_position))
  /\ (10 <= remaining -> len <= remaining - 10 ->
      r = (0,
           mk_reader (buffer c) (buffer_length c) (index c + 8 + 2 + len),
           mk_node MMR_NODE_TYPE_POINTER
             (drop (Z.to_nat (index c + 8 + 2)) (buffer c)) len,
           load64 (buffer c) (index c))).
Proof.
  intros Hidx Hlen remaining len r.
  assert (Hu : u32 (buffer_length c - index c) = remaining)
    by (apply u32_small; unfold remaining; lia).
  subst r. unfold _mmr_default_leaf_iter_read, _mmr_default_buffer_read_node.
  cbn [index buffer buffer_length]. rewrite Hu.
  repeat split.
  - intros H0. destruct (Z.geb_spec (index c) (buffer_length c)); [reflexivity | lia].
  - intros H0. destruct (Z.geb_spec (index c) (buffer_length c)); [lia |].
    destruct (Z.ltb_spec remaining 8); [reflexivity | lia].
  - intros H8 Hcut.
    destruct (Z.geb_spec (index c) (buffer_length c)); [lia |].
    destruct (Z.ltb_spec remaining 8); [lia |].
    rewrite (u32_small (index c + 8)) by lia.
    assert (Hr8 : u32 (buffer_length c - (index c + 8)) = remaining - 8)
      by (rewrite u32_small; unfold remaining; lia).
    rewrite Hr8.
    destruct (Z.ltb_spec (remaining - 8) 2) as [H2 | H2]; [reflexivity |].
    rewrite (u32_small (remaining - 8 - 2)) by (unfold remaining in *; lia).
    fold len.
    destruct (Z.ltb_spec (remaining - 8 - 2) len); [reflexivity | lia].
  - intros H10 Hfit.
    destruct (Z.geb_spec (index c) (buffer_length c)); [lia |].
    destruct (Z.ltb_spec remaining 8); [lia |].
    rewrite (u32_small (index c + 8)) by lia.
    assert (Hr8 : u32 (buffer_length c - (index c + 8)) = remaining - 8)
      by (rewrite u32_small; unfold remaining; lia).
    rewrite Hr8.
    destruct (Z.ltb_spec (remaining - 8) 2) as [H2 | H2]; [lia |].
    rewrite (u32_small (remaining - 8 - 2)) by (unfold remaining in *; lia).
    fold len.
    destruct (Z.ltb_spec (remaining - 8 - 2) len) as [H3 | H3]; [lia |].
    assert (0 <= len).
    { unfold len, load16, byte_at, byte_val. lia. }
    cbn [negb Z.eqb].
    rewrite (u32_small (index c + 8 + 2)) by (unfold remaining in *; lia).
    rewrite (u32_small (index c + 8 + (2 + len))) by (unfold remaining in *; lia).
    replace (index c + 8 + (2 + len)) with (index c + 8 + 2 + len) by ring.
    reflexivity.
Qed.

(** ** Bit counting and the height of a position *)

Lemma popcount_pos_bounds p : 1 <= popcount_pos p <= Z.pos (Pos.size p).
Proof.
  induction p as [q IH | q IH |]; cbn [popcount_pos Pos.size];
    rewrite ?Pos2Z.inj_succ; lia.
Qed.

Lemma log2_pos_size p : Z.log2 (Z.pos p) = Z.pos (Pos.size p) - 1.
Proof.
  destruct p as [q | q |]; cbn [Z.log2 Pos.size]; rewrite ?Pos2Z.inj_succ; lia.
Qed.

(** A positive number is made of ones only exactly when it counts as
    many ones as it has digits. *)
Lemma popcount_pos_full p :
  popcount_pos p = Z.pos (Pos.size p) <-> Z.pos p = 2 ^ Z.pos (Pos.size p) - 1.
Proof.
  induction p as [q IH | q IH |]; cbn [popcount_pos Pos.size].
  - rewrite Pos2Z.inj_succ, Z.pow_succ_r by lia.
    rewrite Pos2Z.inj_xI. split; intros H.
    + assert (Hq : popcount_pos q = Z.pos (Pos.size q)) by lia.
      apply IH in Hq. lia.
    + assert (Hq : Z.pos q = 2 ^ Z.pos (Pos.size q) - 1) by lia.
      apply IH in Hq. lia.
  - rewrite Pos2Z.inj_succ, Z.pow_succ_r by lia.
    rewrite Pos2Z.inj_xO. pose proof (popcount_pos_bounds q) as Hb. split; intros H; lia.
  - split; reflexivity.
Qed.

Lemma all_ones_zero : _mmr_all_ones 0 = false.
Proof. reflexivity. Qed.

Lemma all_ones_spec q :
  0 < q -> (_mmr_all_ones q = true <-> q = 2 ^ (Z.log2 q + 1) - 1).
Proof.
  intros Hq. destruct q as [| p | p]; try lia.
  unfold _mmr_all_ones, _mmr_count_zeros_u64, _mmr_leading_zeros_u64.
  cbn [Z.eqb negb andb popcount].
  rewrite log2_pos_size.
  replace (Z.pos (Pos.size p) - 1 + 1) with (Z.pos (Pos.size p)) by lia.
  rewrite <- popcount_pos_full, Z.eqb_eq. lia.
Qed.

Lemma log2_bounds q : 0 < q -> 2 ^ Z.log2 q <= q < 2 ^ (Z.log2 q + 1).
Proof. intros Hq. pose proof (Z.log2_spec q Hq). unfold Z.succ in *. lia. Qed.

Lemma log2_unique' q k : 0 <= k -> 2 ^ k <= q < 2 ^ (k + 1) -> Z.log2 q = k.
Proof. intros Hk Hq. apply Z.log2_unique; unfold Z.succ; lia. Qed.

Lemma log2_lt_64 q : 0 < q < 2 ^ 64 -> 0 <= Z.log2 q <= 63.
Proof.
  intros Hq. split; [apply Z.log2_nonneg |].
  assert (Z.log2 q < 64); [| lia].
  apply Z.log2_lt_pow2; lia.
Qed.

Lemma leading_zeros_pos q :
  0 < q < 2 ^ 64 -> _mmr_leading_zeros_u64 q = 63 - Z.log2 q.
Proof.
  intros Hq. unfold _mmr_leading_zeros_u64.
  destruct (Z.eqb_spec q 0); [lia | reflexivity].
Qed.

(** [_mmr_jump_left] takes away the leading one and adds one. *)
Lemma jump_left_spec q :
  0 < q < 2 ^ 64 -> _mmr_jump_left q = q - 2 ^ Z.log2 q + 1.
Proof.
  intros Hq. pose proof (log2_lt_64 q Hq) as Hk. pose proof (log2_bounds q) as Hb.
  unfold _mmr_jump_left. rewrite leading_zeros_pos by exact Hq.
  replace (64 - (63 - Z.log2 q)) with (Z.log2 q + 1) by ring.
  rewrite (u64_small (Z.log2 q + 1)) by lia.
  replace (Z.log2 q + 1 - 1) with (Z.log2 q) by ring.
  rewrite (u64_small (Z.log2 q)) by lia.
  unfold shl64. destruct (Z.ltb_spec (Z.log2 q) 64); [| lia].
  rewrite Z.shiftl_mul_pow2, Z.mul_1_l by lia.
  assert (0 < 2 ^ Z.log2 q) by (apply pow2_pos; lia).
  rewrite (u64_small (2 ^ Z.log2 q)) by lia.
  rewrite (u64_small (2 ^ Z.log2 q - 1)) by lia.
  rewrite u64_small by lia. ring.
Qed.

Lemma jump_left_zero : _mmr_jump_left 0 = 1.
Proof. reflexivity. Qed.

Lemma jump_left_smaller q :
  0 < q < 2 ^ 64 -> _mmr_all_ones q = false ->
  0 < _mmr_jump_left q < 2 ^ Z.log2 q.
Proof.
  intros Hq Hno. rewrite jump_left_spec by exact Hq.
  pose proof (log2_bounds q) as Hb.
  assert (q <> 2 ^ (Z.log2 q + 1) - 1).
  { intros Heq. apply all_ones_spec in Heq; [congruence | lia]. }
  pose proof (log2_lt_64 q Hq). rewrite pow2_succ in * by lia. lia.
Qed.

(** The loop of [_mmr_pos_height_in_tree] ends: from a position of at
    most [n] digits it takes at most [n] turns. *)
Lemma pos_height_loop_ends n q fuel :
  0 < q < 2 ^ Z.of_nat n -> (n <= 64)%nat -> (n <= fuel)%nat ->
  exists p, pos_height_loop fuel q = Some p /\ _mmr_all_ones p = true
            /\ 0 < p <= q.
Proof.
  revert q fuel. induction n as [| n IH]; intros q fuel Hq Hn Hfuel.
  - cbn in Hq. lia.
  - destruct fuel as [| fuel]; [lia |]. cbn [pos_height_loop].
    destruct (_mmr_all_ones q) eqn:Hall.
    + exists q. repeat split; [exact Hall | lia | lia].
    + assert (Hq64 : 0 < q < 2 ^ 64).
      { split; [lia |]. eapply Z.lt_le_trans; [apply Hq |]. apply pow2_le. lia. }
      pose proof (jump_left_smaller q Hq64 Hall) as Hj.
      assert (Hlog : Z.log2 q < Z.of_nat (S n)) by (apply Z.log2_lt_pow2; lia).
      destruct (IH (_mmr_jump_left q) fuel) as (p & Hp & Hones & Hle).
      * split; [lia |]. eapply Z.lt_le_trans; [apply Hj |].
        apply pow2_le. pose proof (Z.log2_nonneg q). lia.
      * lia.
      * lia.
      * pose proof (log2_bounds q) as Hb.
        exists p. repeat split; [exact Hp | exact Hones | lia | lia].
Qed.

Lemma pos_height_loop_total q :
  0 <= q < 2 ^ 64 ->
  exists p, pos_height_loop 66 q = Some p /\ _mmr_all_ones p = true
            /\ 0 < p < 2 ^ 64.
Proof.
  intros Hq. destruct (Z.eq_dec q 0) as [-> | Hne].
  - exists 1. repeat split; lia.
  - destruct (pos_height_loop_ends 64 q 66) as (p & Hp & Hones & Hle);
      [change (Z.of_nat 64) with 64; lia | lia | lia |].
    exists p. repeat split; [exact Hp | exact Hones | lia | lia].
Qed.

(** [_mmr_pos_height_in_tree] returns for every position. *)
Lemma pos_height_in_tree_total pos :
  exists h, _mmr_pos_height_in_tree pos = Some h /\ 0 <= h <= 63.
Proof.
  unfold _mmr_pos_height_in_tree.
  destruct (pos_height_loop_total (u64 (pos + 1)) (u64_range _))
    as (p & Hp & _ & Hrange).
  rewrite Hp. eexists. split; [reflexivity |].
  rewrite leading_zeros_pos by exact Hrange.
  pose proof (log2_lt_64 p Hrange).
  replace (64 - (63 - Z.log2 p)) with (Z.log2 p + 1) by ring.
  rewrite (u64_small (Z.log2 p + 1)) by lia.
  replace (Z.log2 p + 1 - 1) with (Z.log2 p) by ring.
  rewrite (u64_small (Z.log2 p)) by lia.
  rewrite u32_small by lia. lia.
Qed.

(** ** The left peak *)

Lemma left_peak_loop_first mmr_size h : forall (n fuel : nat) height prev_pos,
  (n < fuel)%nat -> 1 <= height -> height + Z.of_nat n = h -> h <= 63 ->
  (forall j, height <= j < h -> _mmr_get_peak_pos_by_height j < mmr_size) ->
  mmr_size <= _mmr_get_peak_pos_by_height h ->
  left_peak_loop fuel mmr_size height prev_pos
    (_mmr_get_peak_pos_by_height height)
  = Some (h, match n with
             | O => prev_pos
             | S _ => _mmr_get_peak_pos_by_height (h - 1)
             end).
Proof.
  induction n as [| n IH]; intros fuel height prev_pos Hfuel Hheight Hh Hmax
    Hbelow Hat; (destruct fuel as [| fuel]; [lia |]); cbn [left_peak_loop].
  - replace height with h by lia.
    destruct (Z.ltb_spec (_mmr_get_peak_pos_by_height h) mmr_size); [lia |].
    reflexivity.
  - assert (Hlt : _mmr_get_peak_pos_by_height height < mmr_size)
      by (apply Hbelow; lia).
    destruct (Z.ltb_spec (_mmr_get_peak_pos_by_height height) mmr_size);
      [| lia].
    rewrite (u32_small (height + 1)) by lia.
    rewrite (IH fuel (height + 1) (_mmr_get_peak_pos_by_height height));
      try lia.
    + destruct n as [| n]; [| reflexivity].
      replace (h - 1) with height by lia. reflexivity.
    + intros j Hj. apply Hbelow. lia.
Qed.

Lemma left_peak_present mmr_size peak :
  _mmr_left_peak_height_pos mmr_size = Some peak -> peak_present peak = 1.
Proof.
  unfold _mmr_left_peak_height_pos.
  destruct (left_peak_loop _ _ _ _ _) as [[height prev_pos] |];
    [| discriminate].
  intros H. inversion H. reflexivity.
Qed.

Lemma left_peak_first (mmr_size : Z) :
  (forall peak,
     _mmr_left_peak_height_pos mmr_size = Some peak -> peak_present peak = 1)
  /\ (forall h,
        1 <= h <= 63 ->
        mmr_size <= _mmr_get_peak_pos_by_height h ->
        (forall j, 1 <= j < h -> _mmr_get_peak_pos_by_height j < mmr_size) ->
        _mmr_left_peak_height_pos mmr_size
        = Some {| peak_pos := _mmr_get_peak_pos_by_height (h - 1);
                  peak_height := h - 1;
                  peak_present := 1 |}).
Proof.
  split; [apply left_peak_present |].
  intros h Hh Hat Hbelow. unfold _mmr_left_peak_height_pos.
  rewrite (left_peak_loop_first mmr_size h (Z.to_nat (h - 1)) 64 1 0);
    [| lia | lia | lia | lia | exact Hbelow | exact Hat].
  rewrite (u32_small (h - 1)) by lia.
  destruct (Z.to_nat (h - 1)) eqn:Hn; [| reflexivity].
  replace (h - 1) with 0 by lia. reflexivity.
Qed.

(** Sizes below [2^63 - 1] have such a first height, so that the loop of
    [_mmr_left_peak_height_pos] ends on them without shifting by 64. *)
Lemma first_height_exists mmr_size :
  mmr_size <= 2 ^ 63 - 2 ->
  exists h, 1 <= h <= 62
            /\ mmr_size <= _mmr_get_peak_pos_by_height h
            /\ forall j, 1 <= j < h -> _mmr_get_peak_pos_by_height j < mmr_size.
Proof.
  intros Hsize.
  assert (Hsearch : forall (k : nat) h0,
             h0 = 62 - Z.of_nat k -> 1 <= h0 ->
             (forall j, 1 <= j < h0 ->
                        _mmr_get_peak_pos_by_height j < mmr_size) ->
             exists h, 1 <= h <= 62
                       /\ mmr_size <= _mmr_get_peak_pos_by_height h
                       /\ forall j, 1 <= j < h ->
                                    _mmr_get_peak_pos_by_height j < mmr_size).
  { induction k as [| k IH]; intros h0 Hh0 Hge Hbelow.
    - exists h0. repeat split; [lia | lia | | exact Hbelow].
      rewrite peak_pos_by_height_small by lia.
      replace (h0 + 1) with 63 by lia. exact Hsize.
    - destruct (Z_le_gt_dec mmr_size (_mmr_get_peak_pos_by_height h0))
        as [Hle | Hgt].
      + exists h0. repeat split; [lia | lia | exact Hle | exact Hbelow].
      + apply (IH (h0 + 1)); [lia | lia |].
        intros j Hj. destruct (Z.eq_dec j h0) as [-> | Hne]; [lia |].
        apply Hbelow. lia. }
  apply (Hsearch 61%nat 1); [lia | lia |]. intros j Hj. lia.
Qed.

Lemma left_peak_total mmr_size :
  mmr_size <= 2 ^ 63 - 2 ->
  exists h, 1 <= h <= 62
            /\ mmr_size <= 2 ^ (h + 1) - 2
            /\ (2 <= h -> 2 ^ h - 2 < mmr_size)
            /\ _mmr_left_peak_height_pos mmr_size
               = Some {| peak_pos := 2 ^ h - 2; peak_height := h - 1;
                         peak_present := 1 |}.
Proof.
  intros Hsize. destruct (first_height_exists mmr_size Hsize)
    as (h & Hh & Hat & Hbelow).
  exists h. split; [exact Hh |].
  rewrite peak_pos_by_height_small in Hat by lia.
  split; [exact Hat |]. split.
  - intros H2. specialize (Hbelow (h - 1)).
    rewrite peak_pos_by_height_small in Hbelow by lia.
    replace (h - 1 + 1) with h in Hbelow by ring. apply Hbelow. lia.
  - destruct (left_peak_first mmr_size) as [_ Hfirst].
    rewrite (Hfirst h); [| lia | rewrite peak_pos_by_height_small by lia; exact Hat
                         | exact Hbelow ].
    rewrite peak_pos_by_height_small by lia.
    replace (h - 1 + 1) with h by ring. reflexivity.
Qed.

(** ** The height of a parent *)

Lemma pow2_lt_inv a b : 0 <= a -> 0 <= b -> 2 ^ a < 2 ^ b -> a < b.
Proof. intros Ha Hb H. apply (Z.pow_lt_mono_r_iff 2); lia. Qed.

Lemma pow2_le_inv a b : 0 <= a -> 0 <= b -> 2 ^ a <= 2 ^ b -> a <= b.
Proof. intros Ha Hb H. apply (Z.pow_le_mono_r_iff 2); lia. Qed.

Lemma pow2_inj a b : 0 <= a -> 0 <= b -> 2 ^ a = 2 ^ b -> a = b.
Proof.
  intros Ha Hb H. apply Z.le_antisymm; apply pow2_le_inv; lia.
Qed.

(** No number of the form [2^a - 1] lies strictly between [2^k - 1] and
    [2^(k+1) - 1]. *)
Lemma no_top_between a k q :
  0 <= a -> 0 <= k -> 2 ^ k <= q <= 2 ^ (k + 1) - 2 -> q <> 2 ^ a - 1.
Proof.
  intros Ha Hk Hq Heq.
  destruct (Z_le_gt_dec a k) as [Hle | Hgt].
  - pose proof (pow2_le a k ltac:(lia)). lia.
  - pose proof (pow2_le (k + 1) a ltac:(lia)). lia.
Qed.

Lemma tree_height_bounds q h : tree_height q h -> 0 <= h /\ 2 ^ (h + 1) - 1 <= q.
Proof.
  induction 1 as [h Hh | k q h Hk Hq Hrec [IH0 IH]].
  - split; lia.
  - split; [exact IH0 |]. pose proof (pow2_pos k Hk). lia.
Qed.

Lemma tree_height_inv q h :
  tree_height q h ->
  (0 <= h /\ q = 2 ^ (h + 1) - 1)
  \/ (exists k, 0 <= k /\ 2 ^ k <= q <= 2 ^ (k + 1) - 2
                /\ tree_height (q - 2 ^ k + 1) h).
Proof. intros H. destruct H; eauto 10. Qed.

Lemma tree_height_unique q h1 : tree_height q h1 ->
  forall h2, tree_height q h2 -> h1 = h2.
Proof.
  induction 1 as [h Hh | k q h Hk Hq Hrec IH]; intros h2 H2;
    destruct (tree_height_inv _ _ H2) as [[Hh2 Heq] | (k' & Hk' & Hq' & Hrec')].
  - assert (2 ^ (h2 + 1) = 2 ^ (h + 1)) as Hp by lia.
    apply pow2_inj in Hp; lia.
  - exfalso. eapply (no_top_between (h + 1) k'); [| | exact Hq' | reflexivity]; lia.
  - exfalso. eapply (no_top_between (h2 + 1) k); [| | exact Hq | exact Heq]; lia.
  - assert (k' = k).
    { rewrite <- (log2_unique' q k') by (rewrite ?pow2_succ in * by lia; lia).
      apply log2_unique'; rewrite ?pow2_succ in * by lia; lia. }
    subst k'. apply IH. exact Hrec'.
Qed.

Lemma tree_height_one h : tree_height 1 h -> h = 0.
Proof.
  intros H. symmetry. eapply tree_height_unique; [| exact H].
  exact (tree_height_top 0 ltac:(lia)).
Qed.

(** The parent of a node of height [h] at the 1-based position [q]: when
    the next position is higher, it is that position, of height [h + 1];
    when it is not, the parent lies [2^(h+1)] further, and again has
    height [h + 1]. *)
Lemma tree_height_parent q h : tree_height q h ->
  forall h', tree_height (q + 1) h' ->
    (h < h' -> h' = h + 1)
    /\ (h' <= h ->
        tree_height (q + 2 ^ (h + 1)) (h + 1)
        /\ (q <> 2 ^ (h + 1) - 1 -> q + 2 ^ (h + 1) < 2 ^ (Z.log2 q + 1))).
Proof.
  induction 1 as [h Hh | k q h Hk Hq Hrec IH]; intros h' Hnext.
  - pose proof (pow2_succ h Hh) as Hsh.
    pose proof (pow2_succ (h + 1) ltac:(lia)) as Hssh.
    pose proof (pow2_pos h Hh) as Hph.
    replace (2 ^ (h + 1) - 1 + 1) with (2 ^ (h + 1)) in Hnext by ring.
    assert (h' = 0) as ->.
    { destruct (tree_height_inv _ _ Hnext)
        as [[Hh2 Heq] | (k' & Hk' & Hq' & Hrec')].
      - exfalso. pose proof (pow2_succ h' Hh2). lia.
      - assert (k' = h + 1).
        { destruct (Z_lt_le_dec k' (h + 1)) as [Hlt | Hge].
          - pose proof (pow2_le (k' + 1) (h + 1) ltac:(lia)). lia.
          - destruct (Z.eq_dec k' (h + 1)) as [| Hne]; [assumption |].
            pose proof (pow2_lt (h + 1) k' ltac:(lia)). lia. }
        subst k'. replace (2 ^ (h + 1) - 2 ^ (h + 1) + 1) with 1 in Hrec' by ring.
        apply tree_height_one. exact Hrec'. }
    split; [lia |]. intros _. split; [| lia].
    replace (2 ^ (h + 1) - 1 + 2 ^ (h + 1)) with (2 ^ (h + 1 + 1) - 1) by lia.
    apply tree_height_top. lia.
  - pose proof (tree_height_bounds _ _ Hrec) as [Hh Hlow].
    pose proof (pow2_pos k Hk) as Hpk.
    pose proof (pow2_succ k Hk) as Hsk.
    pose proof (pow2_succ h Hh) as Hsh.
    pose proof (pow2_succ (h + 1) ltac:(lia)) as Hssh.
    pose proof (pow2_pos h Hh) as Hph.
    assert (Hlogq : Z.log2 q = k) by (apply log2_unique'; lia).
    destruct (Z.eq_dec (q + 1) (2 ^ (k + 1) - 1)) as [Hlast | Hmore].
    + (* [q] is the last position before the top of the tree of [k] *)
      rewrite Hlast in Hnext.
      assert (h' = k) as ->.
      { eapply tree_height_unique; [exact Hnext |]. apply tree_height_top. lia. }
      assert (1 <= k).
      { destruct (Z.eq_dec k 0) as [-> | Hne]; [| lia].
        change (2 ^ 0) with 1 in *. lia. }
      assert (h = k - 1) as ->.
      { eapply tree_height_unique; [exact Hrec |].
        replace (q - 2 ^ k + 1) with (2 ^ (k - 1 + 1) - 1).
        - apply tree_height_top. lia.
        - replace (k - 1 + 1) with k by ring. lia. }
      split; [lia | lia].
    + assert (Hnext' : tree_height (q - 2 ^ k + 1 + 1) h').
      { destruct (tree_height_inv _ _ Hnext)
          as [[Hh2 Heq] | (k' & Hk' & Hq' & Hrec')].
        - exfalso. eapply (no_top_between (h' + 1) k (q + 1));
            [| | | exact Heq]; lia.
        - assert (k' = k).
          { pose proof (pow2_succ k' Hk').
            rewrite <- (log2_unique' (q + 1) k') by lia.
            apply log2_unique'; lia. }
          subst k'. replace (q - 2 ^ k + 1 + 1) with (q + 1 - 2 ^ k + 1) by ring.
          exact Hrec'. }
      destruct (IH h' Hnext') as [IHup IHleft].
      split; [exact IHup |]. intros Hle.
      destruct (IHleft Hle) as [Hparent Hfit].
      assert (Hroom : q - 2 ^ k + 1 + 2 ^ (h + 1) <= 2 ^ k - 1).
      { destruct (Z.eq_dec (q - 2 ^ k + 1) (2 ^ (h + 1) - 1)) as [Htop | Hnot].
        - assert (h + 1 < k) by (apply pow2_lt_inv; lia).
          pose proof (pow2_le (h + 1 + 1) k ltac:(lia)) as Hp. lia.
        - specialize (Hfit Hnot).
          assert (Z.log2 (q - 2 ^ k + 1) < k) by (apply Z.log2_lt_pow2; lia).
          pose proof (Z.log2_nonneg (q - 2 ^ k + 1)).
          pose proof (pow2_le (Z.log2 (q - 2 ^ k + 1) + 1) k ltac:(lia)).
          lia. }
      split.
      * apply (tree_height_jump k); [exact Hk | lia |].
        replace (q + 2 ^ (h + 1) - 2 ^ k + 1) with (q - 2 ^ k + 1 + 2 ^ (h + 1))
          by ring.
        exact Hparent.
      * intros _. rewrite Hlogq. lia.
Qed.

(** What [_mmr_pos_height_in_tree] computes is that height. *)
Lemma pos_height_loop_tree_height : forall fuel q p,
  0 < q < 2 ^ 64 -> pos_height_loop fuel q = Some p ->
  tree_height q (Z.log2 p).
Proof.
  induction fuel as [| fuel IH]; intros q p Hq H; [discriminate |].
  cbn [pos_height_loop] in H. destruct (_mmr_all_ones q) eqn:Hall.
  - inversion H; subst p. apply all_ones_spec in Hall; [| lia].
    rewrite Hall at 1. apply tree_height_top. apply Z.log2_nonneg.
  - pose proof (jump_left_smaller q Hq Hall) as Hj.
    pose proof (log2_bounds q ltac:(lia)) as Hb.
    pose proof (log2_lt_64 q Hq) as Hk.
    assert (q <> 2 ^ (Z.log2 q + 1) - 1).
    { intros Heq. apply all_ones_spec in Heq; [congruence | lia]. }
    apply (tree_height_jump (Z.log2 q)); [lia | lia |].
    rewrite <- jump_left_spec by exact Hq.
    apply IH; [| exact H]. split; [lia |].
    pose proof (pow2_le (Z.log2 q) 64 ltac:(lia)). lia.
Qed.

Lemma pos_height_in_tree_tree_height pos h :
  0 <= pos < 2 ^ 64 - 1 ->
  (_mmr_pos_height_in_tree pos = Some h <-> tree_height (pos + 1) h).
Proof.
  intros Hpos.
  assert (Hfun : forall h', _mmr_pos_height_in_tree pos = Some h' ->
                            tree_height (pos + 1) h').
  { intros h'. unfold _mmr_pos_height_in_tree. rewrite u64_small by lia.
    destruct (pos_height_loop 66 (pos + 1)) as [p |] eqn:Hloop; [| discriminate].
    intros H. inversion H; subst h'.
    destruct (pos_height_loop_ends 64 (pos + 1) 66) as (p' & Hp' & Hones & Hle);
      [change (Z.of_nat 64) with 64; lia | lia | lia |].
    assert (p' = p) by congruence. subst p'.
    assert (Hp : 0 < p < 2 ^ 64) by lia.
    rewrite leading_zeros_pos by exact Hp.
    pose proof (log2_lt_64 p Hp).
    replace (64 - (63 - Z.log2 p)) with (Z.log2 p + 1) by ring.
    rewrite (u64_small (Z.log2 p + 1)) by lia.
    replace (Z.log2 p + 1 - 1) with (Z.log2 p) by ring.
    rewrite (u64_small (Z.log2 p)) by lia. rewrite u32_small by lia.
    eapply pos_height_loop_tree_height; [| exact Hloop]. lia. }
  split; [apply Hfun |].
  intros Ht. destruct (pos_height_in_tree_total pos) as (h' & Hh' & _).
  rewrite Hh'. f_equal. eapply tree_height_unique; [apply Hfun; exact Hh' | exact Ht].
Qed.

(** The two ways in which opcode 3 places the parent of a node give a
    position whose height is one more than the height of the node. *)
Lemma parent_pos_height pos h next_height :
  0 <= pos -> h <= 29 -> pos + 2 ^ (h + 1) < 2 ^ 64 - 1 ->
  _mmr_pos_height_in_tree pos = Some h ->
  _mmr_pos_height_in_tree (u64 (pos + 1)) = Some next_height ->
  let parent_pos :=
    if next_height >? h then u64 (pos + 1)
    else u64 (pos + _mmr_parent_offset h) in
  _mmr_pos_height_in_tree parent_pos = Some (u32 (h + 1)).
Proof.
  intros Hpos Hh29 Hroom Hh Hnext parent_pos.
  assert (0 <= h) as Hh0.
  { destruct (pos_height_in_tree_total pos) as (h' & Hh' & Hr).
    rewrite Hh in Hh'. inversion Hh'. lia. }
  pose proof (pow2_pos (h + 1) ltac:(lia)) as Hp.
  assert (1 < 2 ^ (h + 1)).
  { pose proof (pow2_lt 0 (h + 1) ltac:(lia)). change (2 ^ 0) with 1 in *. lia. }
  rewrite (u64_small (pos + 1)) in * by lia.
  apply pos_height_in_tree_tree_height in Hh; [| lia].
  apply pos_height_in_tree_tree_height in Hnext; [| lia].
  destruct (tree_height_parent _ _ Hh _ Hnext) as [Hup Hleft].
  rewrite (u32_small (h + 1)) by lia. subst parent_pos.
  destruct (Z.gtb_spec next_height h) as [Hgt | Hle].
  - rewrite (u64_small (pos + 1)) by lia.
    apply pos_height_in_tree_tree_height; [lia |].
    rewrite <- (Hup ltac:(lia)). exact Hnext.
  - rewrite parent_offset_small by lia. rewrite u64_small by lia.
    apply pos_height_in_tree_tree_height; [lia |].
    replace (pos + 2 ^ (h + 1) + 1) with (pos + 1 + 2 ^ (h + 1)) by ring.
    apply Hleft. lia.
Qed.

(** ** The peaks to the right *)

Lemma right_peak_loop_spec mmr_size pos :
  0 < mmr_size <= 2 ^ 31 - 2 -> 0 <= pos < mmr_size ->
  forall h : nat, (h <= 29)%nat ->
    match right_peak_loop h (pos + 2 ^ (Z.of_nat h + 1) - 1) mmr_size with
    | None => mmr_size <= pos + 1
    | Some (p', h') =>
        (h' <= h)%nat /\ p' = pos + 2 ^ (Z.of_nat h' + 1) - 1 /\ p' < mmr_size
        /\ ((h' < h)%nat -> mmr_size < pos + 2 ^ (Z.of_nat h' + 2))
    end.
Proof.
  intros Hsize Hpos. induction h as [| h IH]; intros Hh; cbn [right_peak_loop];
    rewrite (u64_small (mmr_size - 1)) by lia.
  - change (2 ^ (Z.of_nat 0 + 1)) with 2.
    destruct (Z.gtb_spec (pos + 2 - 1) (mmr_size - 1)); [lia |].
    repeat split; [lia | lia | lia].
  - pose proof (pow2_succ (Z.of_nat h + 1) ltac:(lia)) as Hs.
    pose proof (pow2_pos (Z.of_nat h + 1) ltac:(lia)) as Hp.
    pose proof (pow2_le (Z.of_nat h + 1) 29 ltac:(lia)) as Hle.
    replace (Z.of_nat (S h) + 1) with (Z.of_nat h + 1 + 1) by lia.
    destruct (Z.gtb_spec (pos + 2 ^ (Z.of_nat h + 1 + 1) - 1) (mmr_size - 1))
      as [Hgt | Hfit].
    + rewrite parent_offset_small by lia.
      replace (u64 (pos + 2 ^ (Z.of_nat h + 1 + 1) - 1 - 2 ^ (Z.of_nat h + 1)))
        with (pos + 2 ^ (Z.of_nat h + 1) - 1)
        by (rewrite u64_small by lia; lia).
      specialize (IH ltac:(lia)).
      destruct (right_peak_loop h (pos + 2 ^ (Z.of_nat h + 1) - 1) mmr_size)
        as [[p' h'] |]; [| exact IH].
      destruct IH as (Hh' & Hp' & Hlt & Hnext).
      repeat split; [lia | exact Hp' | exact Hlt |].
      intros _. destruct (Nat.eq_dec h' h) as [-> | Hne].
      * replace (Z.of_nat h + 2) with (Z.of_nat h + 1 + 1) by ring. lia.
      * apply Hnext. lia.
    + repeat split; [lia | | lia | lia].
      replace (Z.of_nat (S h) + 1) with (Z.of_nat h + 1 + 1) by lia. reflexivity.
Qed.

(** A call of [_mmr_get_right_peak] keeps the cursor as [peak_inv]
    describes it and brings it nearer to the end. *)
Lemma right_peak_decreases mmr_size peak :
  0 < mmr_size <= 2 ^ 31 - 2 -> peak_inv mmr_size peak ->
  peak_present peak <> 0 ->
  let peak' := snd (_mmr_get_right_peak peak mmr_size) in
  peak_inv mmr_size peak'
  /\ (peak_measure mmr_size peak' < peak_measure mmr_size peak)%nat.
Proof.
  intros Hsize [Habsent | (Hh & Hpos & Hfit)] Hpresent; [congruence |].
  pose proof (pow2_pos (peak_height peak + 1) ltac:(lia)) as Hp.
  pose proof (pow2_le (peak_height peak + 1) 30 ltac:(lia)) as Hle.
  pose proof (right_peak_loop_spec mmr_size (peak_pos peak) Hsize Hpos
                (Z.to_nat (peak_height peak)) ltac:(lia)) as Hloop.
  rewrite Z2Nat.id in Hloop by lia.
  unfold _mmr_get_right_peak. rewrite sibling_offset_small by lia.
  replace (u64 (peak_pos peak + (2 ^ (peak_height peak + 1) - 1)))
    with (peak_pos peak + 2 ^ (peak_height peak + 1) - 1)
    by (rewrite u64_small by lia; lia).
  unfold peak_measure at 2.
  destruct (Z.eqb_spec (peak_present peak) 0); [congruence |].
  destruct (right_peak_loop _ _ _) as [[p' h'] |]; cbn [snd].
  - destruct Hloop as (Hh' & Hp' & Hlt & Hnext).
    pose proof (pow2_pos (Z.of_nat h' + 1) ltac:(lia)) as Hp2.
    pose proof (pow2_succ (Z.of_nat h' + 1) ltac:(lia)) as Hs2.
    replace (Z.of_nat h' + 1 + 1) with (Z.of_nat h' + 2) in Hs2 by ring.
    assert (1 < 2 ^ (Z.of_nat h' + 1)).
    { pose proof (pow2_lt 0 (Z.of_nat h' + 1) ltac:(lia)).
      change (2 ^ 0) with 1 in *. lia. }
    split.
    + right. cbn [peak_present peak_pos peak_height].
      repeat split; try lia.
      destruct (Nat.eq_dec h' (Z.to_nat (peak_height peak))) as [Heq | Hne].
      * replace (Z.of_nat h') with (peak_height peak) in * by lia. lia.
      * specialize (Hnext ltac:(lia)). lia.
    + unfold peak_measure. cbn [peak_present peak_pos peak_height Z.eqb].
      destruct (Z.eqb_spec mmr_size (peak_pos peak + 1)); [lia |].
      destruct (Z.eqb_spec mmr_size (p' + 1)); [lia |].
      destruct (Nat.eq_dec h' (Z.to_nat (peak_height peak))) as [Heq | Hne].
      * replace (Z.of_nat h') with (peak_height peak) in * by lia. lia.
      * lia.
  - split; [left; reflexivity |]. unfold peak_measure.
    cbn [peak_present Z.eqb].
    destruct (Z.eqb_spec mmr_size (peak_pos peak + 1)); lia.
Qed.

Lemma peak_measure_bound mmr_size peak :
  peak_inv mmr_size peak -> (peak_measure mmr_size peak <= 31)%nat.
Proof.
  intros Hinv. unfold peak_measure.
  destruct (Z.eqb_spec (peak_present peak) 0); [lia |].
  destruct (Z.eqb_spec mmr_size (peak_pos peak + 1)); [lia |].
  destruct Hinv as [| (Hh & _)]; [congruence | lia].
Qed.

(** The loop of opcode 5 ends before its counter does. *)
Lemma peak_seek_loop_total mmr_size pos :
  0 < mmr_size <= 2 ^ 31 - 2 ->
  forall (fuel : nat) peak,
    peak_inv mmr_size peak -> (peak_measure mmr_size peak < fuel)%nat ->
    exists peak', peak_seek_loop fuel pos peak mmr_size = Some peak'
                  /\ peak_inv mmr_size peak'.
Proof.
  intros Hsize. induction fuel as [| fuel IH]; intros peak Hinv Hfuel; [lia |].
  cbn [peak_seek_loop].
  destruct (Z.eqb_spec (peak_present peak) 0) as [Habsent | Hpresent];
    cbn [negb andb]; [eauto |].
  destruct (negb (pos =? peak_pos peak)); [| eauto].
  destruct (right_peak_decreases mmr_size peak Hsize Hinv Hpresent)
    as [Hinv' Hless].
  apply IH; [exact Hinv' | lia].
Qed.


(** ** The array of the stack *)

Lemma MMR_STACK_SIZE_range : 0 < MMR_STACK_SIZE < 2 ^ 32.
Proof. unfold MMR_STACK_SIZE. lia. Qed.

Lemma stack_get_Some stack i v :
  stack_get stack i = Some v ->
  0 <= i < MMR_STACK_SIZE /\ stack !! Z.to_nat i = Some v.
Proof.
  unfold stack_get. destruct (Z.leb_spec 0 i), (Z.ltb_spec i MMR_STACK_SIZE);
    cbn [andb]; intros Hget; try discriminate. split; [lia | exact Hget].
Qed.

Lemma stack_get_in_range stack i :
  0 <= i < MMR_STACK_SIZE -> stack_get stack i = stack !! Z.to_nat i.
Proof.
  intros Hi. unfold stack_get.
  destruct (Z.leb_spec 0 i), (Z.ltb_spec i MMR_STACK_SIZE); try lia. reflexivity.
Qed.

Lemma stack_get_defined stack i :
  length stack = Z.to_nat MMR_STACK_SIZE -> 0 <= i < MMR_STACK_SIZE ->
  exists v, stack_get stack i = Some v.
Proof.
  intros Hlen Hi. rewrite stack_get_in_range by exact Hi.
  apply lookup_lt_is_Some_2. lia.
Qed.

Lemma stack_set_Some stack i v stack' :
  stack_set stack i v = Some stack' ->
  0 <= i < MMR_STACK_SIZE /\ stack' = <[Z.to_nat i := v]> stack.
Proof.
  unfold stack_set.
  destruct (Z.leb_spec 0 i), (Z.ltb_spec i MMR_STACK_SIZE),
    (Z.ltb_spec i (Z.of_nat (length stack)));
    cbn [andb]; intros Hset; try discriminate.
  inversion Hset. split; [lia | reflexivity].
Qed.

Lemma stack_set_defined stack i v :
  0 <= i < MMR_STACK_SIZE -> (Z.to_nat i < length stack)%nat ->
  stack_set stack i v = Some (<[Z.to_nat i := v]> stack).
Proof.
  intros Hi Hlen. unfold stack_set.
  destruct (Z.leb_spec 0 i), (Z.ltb_spec i MMR_STACK_SIZE),
    (Z.ltb_spec i (Z.of_nat (length stack))); try lia. reflexivity.
Qed.

Lemma stack_get_insert_ne (stack : list _mmr_stack_value_t) i j v :
  0 <= i -> 0 <= j -> i <> j ->
  stack_get (<[Z.to_nat j := v]> stack) i = stack_get stack i.
Proof.
  intros Hi Hj Hne. unfold stack_get.
  destruct ((0 <=? i) && (i <? MMR_STACK_SIZE)); [| reflexivity].
  apply list_lookup_insert_ne. lia.
Qed.

Lemma stack_get_insert_eq (stack : list _mmr_stack_value_t) i v :
  0 <= i < MMR_STACK_SIZE -> (Z.to_nat i < length stack)%nat ->
  stack_get (<[Z.to_nat i := v]> stack) i = Some v.
Proof.
  intros Hi Hlen. rewrite stack_get_in_range by exact Hi.
  apply list_lookup_insert_eq. exact Hlen.
Qed.

Lemma stack_get_lt_length stack i v :
  stack_get stack i = Some v -> (Z.to_nat i < length stack)%nat.
Proof.
  intros H. apply stack_get_Some in H as [_ H]. eapply lookup_lt_Some. exact H.
Qed.

(** ** The loop of opcode 5 *)

Lemma advance_peak_S mmr_size k peak :
  advance_peak mmr_size (S k) peak
  = advance_peak mmr_size k (snd (_mmr_get_right_peak peak mmr_size)).
Proof. unfold advance_peak. rewrite Nat.iter_succ_r. reflexivity. Qed.

Lemma peak_found_dec pos peak :
  (negb (peak_present peak =? 0) && negb (pos =? peak_pos peak) = false)
  <-> peak_found pos peak.
Proof.
  unfold peak_found.
  destruct (Z.eqb_spec (peak_present peak) 0), (Z.eqb_spec pos (peak_pos peak));
    cbn [negb andb]; split; intros Hf; try reflexivity; try discriminate;
    try lia; destruct Hf; congruence.
Qed.

(** Enough fuel gives the cursor at the first place where the loop of
    opcode 5 ends. *)
Lemma peak_seek_loop_finds mmr_size pos k : forall fuel peak,
  (k < fuel)%nat ->
  (forall j, (j < k)%nat -> ~ peak_found pos (advance_peak mmr_size j peak)) ->
  peak_found pos (advance_peak mmr_size k peak) ->
  peak_seek_loop fuel pos peak mmr_size = Some (advance_peak mmr_size k peak).
Proof.
  induction k as [| k IH]; intros fuel peak Hfuel Hbefore Hfound.
  - destruct fuel as [| fuel]; [lia |]. cbn [peak_seek_loop].
    change (advance_peak mmr_size 0 peak) with peak in *.
    apply peak_found_dec in Hfound. rewrite Hfound. reflexivity.
  - destruct fuel as [| fuel]; [lia |]. cbn [peak_seek_loop].
    assert (Hnot : ~ peak_found pos peak) by (apply (Hbefore O); lia).
    rewrite <- peak_found_dec in Hnot.
    destruct (negb (peak_present peak =? 0) && negb (pos =? peak_pos peak));
      [| congruence].
    rewrite advance_peak_S. apply IH; [lia | | ].
    + intros j Hj. rewrite <- advance_peak_S. apply Hbefore. lia.
    + rewrite <- advance_peak_S. exact Hfound.
Qed.

(** What the loop of opcode 5 returns is the cursor at the first place
    where it ends. *)
Lemma peak_seek_loop_found mmr_size pos : forall fuel peak peak',
  peak_seek_loop fuel pos peak mmr_size = Some peak' ->
  exists k, (k < fuel)%nat /\ peak' = advance_peak mmr_size k peak
            /\ peak_found pos peak'
            /\ forall j, (j < k)%nat ->
                         ~ peak_found pos (advance_peak mmr_size j peak).
Proof.
  induction fuel as [| fuel IH]; intros peak peak' H; [discriminate |].
  cbn [peak_seek_loop] in H.
  destruct (negb (peak_present peak =? 0) && negb (pos =? peak_pos peak)) eqn:Hc.
  - apply IH in H as (k & Hk & Heq & Hfound & Hbefore).
    exists (S k). rewrite advance_peak_S. repeat split; [lia | exact Heq | exact Hfound |].
    intros [| j] Hj.
    + change (advance_peak mmr_size 0 peak) with peak.
      rewrite <- peak_found_dec. congruence.
    + rewrite advance_peak_S. apply Hbefore. lia.
  - inversion H; subst peak'. exists O. repeat split; [lia | |].
    + apply peak_found_dec. exact Hc.
    + intros j Hj. lia.
Qed.

(** ** Tactics for the cases of an iteration *)

Ltac zbool :=
  repeat match goal with
  | H : negb _ = true |- _ => apply negb_true_iff in H
  | H : negb _ = false |- _ => apply negb_false_iff in H
  | H : (_ && _) = true |- _ => apply andb_true_iff in H; destruct H
  | H : (_ || _) = false |- _ => apply orb_false_iff in H; destruct H
  | H : (_ <? _) = true |- _ => apply Z.ltb_lt in H
  | H : (_ <? _) = false |- _ => apply Z.ltb_ge in H
  | H : (_ >=? _) = true |- _ => rewrite Z.geb_leb in H; apply Z.leb_le in H
  | H : (_ >=? _) = false |- _ => rewrite Z.geb_leb in H; apply Z.leb_gt in H
  | H : (_ >? _) = true |- _ => rewrite Z.gtb_ltb in H; apply Z.ltb_lt in H
  | H : (_ >? _) = false |- _ => rewrite Z.gtb_ltb in H; apply Z.ltb_ge in H
  | H : (_ =? _) = true |- _ => apply Z.eqb_eq in H
  | H : (_ =? _) = false |- _ => apply Z.eqb_neq in H
  end.

Ltac state_fields :=
  cbn [stack stack_top next_peak_info last_leaf_pos has_last_leaf command
       proof_reader_context leaf_reader_context] in *.

Ltac invert_step H :=
  unfold mmr_verify_step, case_1, case_2, case_3, case_4, case_5,
    case_5_retag, set_stack in H;
  repeat case_match; try discriminate; simplify_eq; zbool; state_fields.

Ltac stack_facts :=
  repeat match goal with
  | H : stack_get _ _ = Some _ |- _ =>
      let Hr := fresh "Hrange" in let Hl := fresh "Hlookup" in
      pose proof (stack_get_lt_length _ _ _ H);
      apply stack_get_Some in H as [Hr Hl]
  | H : stack_set _ _ _ = Some _ |- _ =>
      let Hr := fresh "Hrange" in
      apply stack_set_Some in H as [Hr ->]
  end.


(** ** The opcodes *)

Section VerifierFacts.

Context {PCtx LCtx : Type}.
Variable MMR_MERGE : mmr_node_t -> mmr_node_t -> mmr_node_t -> Z * mmr_node_t.
Variable MMR_MERGE_PEAKS :
  mmr_node_t -> mmr_node_t -> mmr_node_t -> Z * mmr_node_t.
Variable MMR_LEAF_READER : LCtx -> mmr_node_t -> Z -> Z * LCtx * mmr_node_t * Z.
Variable MMR_COMMAND_READER : PCtx -> Z -> Z * PCtx * Z.
Variable MMR_PROOF_READER : PCtx -> mmr_node_t -> Z * PCtx * mmr_node_t.

Abbreviation state := (verify_state PCtx LCtx).
Abbreviation step :=
  (mmr_verify_step MMR_MERGE MMR_MERGE_PEAKS MMR_LEAF_READER
     MMR_COMMAND_READER MMR_PROOF_READER).
Abbreviation steps :=
  (run_steps MMR_MERGE MMR_MERGE_PEAKS MMR_LEAF_READER
     MMR_COMMAND_READER MMR_PROOF_READER).

(** C4.  Opcode 1, once the leaf reader has returned 0 with
    [(position, node)]: the result is [ERROR_INVALID_PROOF] exactly when
    there is a last leaf and [position <= last_leaf_pos], or
    [position >= mmr_size], or the height of [position] is not 0; in
    the other case the slot at [stack_top] receives the entry of kind
    Node with that node, that position and height 0, [stack_top] grows
    by one, and [last_leaf_pos] becomes [position]. *)
Theorem case_1_push_leaf (mmr_size : Z) (st : state)
    (slot : _mmr_stack_value_t) (lctx : LCtx) (node : mmr_node_t)
    (position : Z) :
  stack_get (stack st) (stack_top st) = Some slot ->
  MMR_LEAF_READER (leaf_reader_context st) (sv_node slot) (sv_position slot)
  = (0, lctx, node, position) ->
  let rejected :=
    (has_last_leaf st <> 0 /\ position <= last_leaf_pos st)
    \/ position >= mmr_size
    \/ _mmr_pos_height_in_tree position <> Some 0 in
  (case_1 MMR_LEAF_READER mmr_size st = Return ERROR_INVALID_PROOF
   <-> rejected)
  /\ (~ rejected ->
      case_1 MMR_LEAF_READER mmr_size st
      = Continue
          (mk_state
             (<[Z.to_nat (stack_top st) :=
                  mk_stack_value _MMR_STACK_NODE node position 0]> (stack st))
             (stack_top st + 1) (next_peak_info st) position 1 (command st)
             (proof_reader_context st) lctx)).
Proof.
  clear MMR_MERGE MMR_MERGE_PEAKS MMR_COMMAND_READER MMR_PROOF_READER.
  intros Hslot Hread rejected.
  pose proof (stack_get_Some _ _ _ Hslot) as [Htop _].
  pose proof (stack_get_lt_length _ _ _ Hslot) as Hlen.
  pose proof MMR_STACK_SIZE_range as Hsize.
  destruct (pos_height_in_tree_total position) as (h & Hh & Hhr).
  unfold case_1. destruct (Z.geb_spec (stack_top st) MMR_STACK_SIZE); [lia |].
  rewrite Hslot, Hread. cbn [Z.eqb negb].
  rewrite Hh, (stack_set_defined _ _ _ Htop Hlen).
  rewrite (u32_small (stack_top st + 1)) by lia.
  assert (Hiff : Some h <> Some 0 <-> h <> 0).
  { split; [intros H1 H2; apply H1; f_equal; exact H2 | intros H1 [=]; lia]. }
  subst rejected. rewrite Hh, Hiff.
  destruct (Z.eqb_spec (has_last_leaf st) 0),
    (Z.geb_spec (last_leaf_pos st) position),
    (Z.geb_spec position mmr_size), (Z.gtb_spec h 0);
    cbn [negb andb];
    intuition (try lia; try discriminate; try reflexivity).
Qed.



Lemma stack_get_None_wf stack i :
  length stack = Z.to_nat MMR_STACK_SIZE -> stack_get stack i = None ->
  ~ 0 <= i < MMR_STACK_SIZE.
Proof.
  intros Hlen Hnone Hi. destruct (stack_get_defined stack i Hlen Hi) as [v Hv].
  congruence.
Qed.

Lemma stack_set_None_wf stack i v :
  length stack = Z.to_nat MMR_STACK_SIZE -> stack_set stack i v = None ->
  ~ 0 <= i < MMR_STACK_SIZE.
Proof.
  intros Hlen Hnone Hi. rewrite stack_set_defined in Hnone by lia. discriminate.
Qed.

Lemma step_stack_wf mmr_size (st st' : state) :
  stack_wf st -> step mmr_size st = Continue st' -> stack_wf st'.
Proof.
  intros [Hlen Htop] H. pose proof MMR_STACK_SIZE_range as Hsize.
  unfold stack_wf. invert_step H; stack_facts; state_fields;
    rewrite ?length_insert; (split; [exact Hlen |]);
    rewrite ?u32_small in * by lia; lia.
Qed.

Lemma step_no_fault mmr_size (st : state) :
  stack_wf st -> step mmr_size st <> Fault.
Proof.
  intros [Hlen Htop] H. pose proof MMR_STACK_SIZE_range as Hsize.
  invert_step H;
    repeat match goal with
    | Hn : stack_get _ _ = None |- _ =>
        apply (stack_get_None_wf _ _ Hlen) in Hn
    | Hn : stack_set _ _ _ = None |- _ =>
        apply (stack_set_None_wf _ _ _ Hlen) in Hn
    end; rewrite ?u32_small in * by lia; lia.
Qed.

Lemma initial_state_wf next_peak_info (pctx : PCtx) (lctx : LCtx) :
  stack_wf (initial_state next_peak_info pctx lctx).
Proof.
  unfold stack_wf, initial_state. cbn [stack stack_top].
  rewrite length_replicate. pose proof MMR_STACK_SIZE_range. lia.
Qed.

Lemma steps_stack_wf mmr_size n : forall st st' : state,
  stack_wf st -> steps n mmr_size st = Continue st' -> stack_wf st'.
Proof.
  induction n as [| n IH]; intros st st' Hwf H; cbn [run_steps] in H.
  - inversion H; subst; exact Hwf.
  - destruct (step mmr_size st) as [st1 | | | |] eqn:Hstep; try discriminate.
    eapply IH; [| exact H]. eapply step_stack_wf; [exact Hwf | exact Hstep].
Qed.

Lemma reachable_stack_wf mmr_size pctx lctx (st : state) :
  reachable MMR_MERGE MMR_MERGE_PEAKS MMR_LEAF_READER MMR_COMMAND_READER
    MMR_PROOF_READER mmr_size pctx lctx st ->
  stack_wf st.
Proof.
  intros (peak & n & _ & _ & Hrun).
  eapply steps_stack_wf; [apply initial_state_wf | exact Hrun].
Qed.

(** C8.  In every state that a run of [mmr_verify] reaches, [stack_top]
    is at most [MMR_STACK_SIZE]; the next iteration accesses no slot
    outside the array; and when the stack holds [MMR_STACK_SIZE] entries
    the opcodes 1 and 2 end the run with [ERROR_INVALID_STACK]. *)
Theorem stack_never_exceeds_bound (mmr_size : Z) (pctx : PCtx) (lctx : LCtx)
    (st : state) :
  reachable MMR_MERGE MMR_MERGE_PEAKS MMR_LEAF_READER MMR_COMMAND_READER
    MMR_PROOF_READER mmr_size pctx lctx st ->
  0 <= stack_top st <= MMR_STACK_SIZE
  /\ step mmr_size st <> Fault
  /\ (stack_top st = MMR_STACK_SIZE ->
      forall pctx' opcode,
        MMR_COMMAND_READER (proof_reader_context st) (command st)
        = (0, pctx', opcode) ->
        opcode = 1 \/ opcode = 2 ->
        step mmr_size st = Return ERROR_INVALID_STACK).
Proof.
  intros Hreach. apply reachable_stack_wf in Hreach as Hwf.
  split; [apply Hwf |]. split; [apply step_no_fault; exact Hwf |].
  intros Hfull pctx' opcode Hread Hop.
  unfold mmr_verify_step. rewrite Hread. cbn [Z.eqb negb].
  destruct Hop as [-> | ->]; unfold case_1, case_2; cbn [stack_top];
    rewrite Hfull; reflexivity.
Qed.

(** C10.  An iteration of the main loop leaves every entry of the stack
    below the top two as it was, and every entry below the top one when
    the opcode is 1, 2 or 5. *)
Theorem step_frame (mmr_size : Z) (st st' : state) :
  is_u32 (stack_top st) ->
  step mmr_size st = Continue st' \/ step mmr_size st = Break st' ->
  let opcode := command st' in
  let touched :=
    if (opcode =? 1) || (opcode =? 2) || (opcode =? 5) then 1 else 2 in
  forall i, 0 <= i < stack_top st - touched ->
            stack_get (stack st') i = stack_get (stack st) i.
Proof.
  intros Hu [H | H]; pose proof MMR_STACK_SIZE_range as Hsize;
    unfold is_u32 in Hu.
  - invert_step H; stack_facts; state_fields;
      intros i Hi; cbn [Z.eqb Pos.eqb orb] in Hi;
      rewrite ?u32_small in * by lia;
      apply stack_get_insert_ne; lia.
  - invert_step H. intros i Hi. reflexivity.
Qed.

(** ** The loop and the checks after it *)

Abbreviation loop :=
  (mmr_verify_loop MMR_MERGE MMR_MERGE_PEAKS MMR_LEAF_READER
     MMR_COMMAND_READER MMR_PROOF_READER).

(** An iteration ends in [break] exactly when the command reader returns
    [ERROR_NO_MORE_COMMANDS]; nothing but the proof reader and [command]
    can have changed. *)
Lemma step_Break_iff mmr_size (st st' : state) :
  step mmr_size st = Break st'
  <-> exists pctx' cmd,
        MMR_COMMAND_READER (proof_reader_context st) (command st)
        = (ERROR_NO_MORE_COMMANDS, pctx', cmd)
        /\ st' = mk_state (stack st) (stack_top st) (next_peak_info st)
                   (last_leaf_pos st) (has_last_leaf st) cmd pctx'
                   (leaf_reader_context st).
Proof.
  split.
  - intros H. invert_step H. subst. eauto.
  - intros (pctx' & cmd & Hread & ->). unfold mmr_verify_step.
    rewrite Hread. reflexivity.
Qed.

Lemma loop_Break_iff mmr_size : forall fuel (st st_end : state),
  loop fuel mmr_size st = Break st_end
  <-> exists n st',
        (n < fuel)%nat /\ steps n mmr_size st = Continue st'
        /\ step mmr_size st' = Break st_end.
Proof.
  induction fuel as [| fuel IH]; intros st st_end; cbn [mmr_verify_loop].
  - split; [discriminate | intros (n & st' & Hn & _); lia].
  - split.
    + destruct (step mmr_size st) as [st1 | st1 | | |] eqn:Hstep;
        intros H; try discriminate.
      * apply IH in H as (n & st' & Hn & Hrun & Hend).
        exists (S n), st'. cbn [run_steps]. rewrite Hstep.
        repeat split; [lia | exact Hrun | exact Hend].
      * inversion H; subst st1. exists O, st. repeat split; [lia | exact Hstep].
    + intros (n & st' & Hn & Hrun & Hend). destruct n as [| n].
      * cbn [run_steps] in Hrun. inversion Hrun; subst st'.
        rewrite Hend. reflexivity.
      * cbn [run_steps] in Hrun.
        destruct (step mmr_size st) as [st1 | | | |] eqn:Hstep;
          try discriminate.
        apply IH. exists n, st'. repeat split; [lia | exact Hrun | exact Hend].
Qed.

(** Every [return] inside the loop carries a code other than 0. *)
Lemma step_Return_nonzero mmr_size (st : state) code :
  step mmr_size st = Return code -> code <> 0.
Proof.
  intros H. invert_step H;
    unfold ERROR_INVALID_STACK, ERROR_INVALID_COMMAND, ERROR_INVALID_PROOF;
    lia.
Qed.

Lemma loop_Return_nonzero mmr_size : forall fuel (st : state) code,
  loop fuel mmr_size st = Return code -> code <> 0.
Proof.
  induction fuel as [| fuel IH]; intros st code; cbn [mmr_verify_loop];
    [discriminate |].
  destruct (step mmr_size st) as [st1 | st1 | c | |] eqn:Hstep;
    intros H; try discriminate.
  - eapply IH; exact H.
  - inversion H; subst c. eapply step_Return_nonzero; exact Hstep.
Qed.

Lemma finish_zero_iff root root_length (st : state) :
  mmr_verify_finish MMR_LEAF_READER root root_length st = Returns 0
  <-> stack_top st = 1
      /\ fst (fst (fst (MMR_LEAF_READER (leaf_reader_context st)
                          uninit_node 0))) <> 0
      /\ exists bottom,
           stack_get (stack st) 0 = Some bottom
           /\ node_length (sv_node bottom) = root_length
           /\ MMR_MEMCMP root (mmr_node_value (sv_node bottom)) root_length
              = 0.
Proof.
  unfold mmr_verify_finish.
  destruct (MMR_LEAF_READER (leaf_reader_context st) uninit_node 0)
    as [[[ret lctx] node] position]. cbn [fst].
  destruct (Z.eqb_spec (stack_top st) 1), (Z.eqb_spec ret 0); cbn [negb];
    try (split; [discriminate | intros (? & ? & _); congruence]).
  destruct (stack_get (stack st) 0) as [bottom |].
  - destruct (Z.eqb_spec root_length (node_length (sv_node bottom))),
      (Z.eqb_spec (MMR_MEMCMP root (mmr_node_value (sv_node bottom))
                     root_length) 0); cbn [negb];
      (split;
       [ intros H; try discriminate; eauto 10
       | intros (_ & _ & b & Hb & Hl & Hm); inversion Hb; subst b;
         try congruence ]).
  - split; [discriminate | intros (_ & _ & b & Hb & _); discriminate].
Qed.

(** [mmr_verify] returns 0 exactly when the loop is left by the [break]
    taken on [ERROR_NO_MORE_COMMANDS] and the three checks that follow
    pass. *)
Lemma mmr_verify_zero_iff fuel root root_length mmr_size (pctx : PCtx)
    (lctx : LCtx) :
  mmr_verify MMR_MERGE MMR_MERGE_PEAKS MMR_LEAF_READER MMR_COMMAND_READER
    MMR_PROOF_READER fuel root root_length mmr_size pctx lctx = Returns 0
  <-> exists next_peak_info (n : nat) (st : state) pctx' cmd bottom,
        _mmr_left_peak_height_pos mmr_size = Some next_peak_info
        /\ mmr_size <> 0
        /\ (n < fuel)%nat
        /\ steps n mmr_size (initial_state next_peak_info pctx lctx)
           = Continue st
        /\ MMR_COMMAND_READER (proof_reader_context st) (command st)
           = (ERROR_NO_MORE_COMMANDS, pctx', cmd)
        /\ stack_top st = 1
        /\ fst (fst (fst (MMR_LEAF_READER (leaf_reader_context st)
                            uninit_node 0))) <> 0
        /\ stack_get (stack st) 0 = Some bottom
        /\ node_length (sv_node bottom) = root_length
        /\ MMR_MEMCMP root (mmr_node_value (sv_node bottom)) root_length = 0.
Proof.
  unfold mmr_verify. split.
  - destruct (_mmr_left_peak_height_pos mmr_size) as [peak |] eqn:Hpeak;
      [| discriminate].
    destruct (Z.eqb_spec mmr_size 0) as [| Hne]; [discriminate |].
    destruct (loop fuel mmr_size (initial_state peak pctx lctx))
      as [st1 | st_end | | |] eqn:Hloop; try discriminate.
    + intros Hfin. apply loop_Break_iff in Hloop as (n & st & Hn & Hrun & Hend).
      apply step_Break_iff in Hend as (pctx' & cmd & Hread & ->).
      apply finish_zero_iff in Hfin as (Htop & Hprobe & bottom & Hb & Hl & Hm).
      cbn [stack stack_top leaf_reader_context] in *.
      exists peak, n, st, pctx', cmd, bottom.
      repeat split; assumption.
    + intros H. inversion H; subst code.
      apply loop_Return_nonzero in Hloop. congruence.
  - intros (peak & n & st & pctx' & cmd & bottom & Hpeak & Hne & Hn & Hrun
            & Hread & Htop & Hprobe & Hb & Hl & Hm).
    rewrite Hpeak. destruct (Z.eqb_spec mmr_size 0); [congruence |].
    assert (Hloop : loop fuel mmr_size (initial_state peak pctx lctx)
                    = Break (mk_state (stack st) (stack_top st)
                               (next_peak_info st) (last_leaf_pos st)
                               (has_last_leaf st) cmd pctx'
                               (leaf_reader_context st))).
    { apply loop_Break_iff. exists n, st. repeat split; [exact Hn | exact Hrun |].
      apply step_Break_iff. eauto. }
    rewrite Hloop. apply finish_zero_iff.
    cbn [stack stack_top leaf_reader_context]. eauto 10.
Qed.

(** ** Node entries *)

(** C2, as the code has it.  An entry pushed by opcode 1 is of kind
    Node, its position is below [mmr_size] and its height, 0, is the
    height of its position.  An entry produced by opcode 3 is of kind
    Node as well; its position is not compared with [mmr_size], and its
    height is the height of its position whenever that holds of the
    anchor it was merged from, the anchor is at most 29 high and the
    position of the parent stays below [2^64 - 1]. *)
Theorem node_entries_position_height (mmr_size : Z) (st st' : state) :
  is_u32 (stack_top st) ->
  (case_1 MMR_LEAF_READER mmr_size st = Continue st' ->
   exists entry,
     stack_get (stack st') (stack_top st) = Some entry
     /\ stack_top st' = stack_top st + 1
     /\ sv_t entry = _MMR_STACK_NODE
     /\ sv_position entry < mmr_size
     /\ sv_height entry = 0
     /\ _mmr_pos_height_in_tree (sv_position entry) = Some (sv_height entry))
  /\ (case_3 MMR_MERGE st = Continue st' ->
      exists under top entry,
        stack_get (stack st) (stack_top st - 2) = Some under
        /\ stack_get (stack st) (stack_top st - 1) = Some top
        /\ stack_get (stack st') (stack_top st - 2) = Some entry
        /\ stack_top st' = stack_top st - 1
        /\ sv_t entry = _MMR_STACK_NODE
        /\ let anchor :=
             if sv_t under =? _MMR_STACK_PROOF then top else under in
           sv_height entry = u32 (sv_height anchor + 1)
           /\ (0 <= sv_position anchor ->
               sv_height anchor <= 29 ->
               sv_position anchor + 2 ^ (sv_height anchor + 1) < 2 ^ 64 - 1 ->
               _mmr_pos_height_in_tree (sv_position anchor)
               = Some (sv_height anchor) ->
               _mmr_pos_height_in_tree (sv_position entry)
               = Some (sv_height entry))).
Proof.
  intros Hu. unfold is_u32 in Hu.
  pose proof MMR_STACK_SIZE_range as Hsize. split; intros H.
  - unfold case_1 in H. repeat case_match; try discriminate. simplify_eq.
    zbool. stack_facts. state_fields.
    eexists. rewrite stack_get_insert_eq by assumption.
    split; [reflexivity |]. cbn [sv_t sv_position sv_height].
    rewrite u32_small by lia.
    match goal with
    | Hh : _mmr_pos_height_in_tree ?p = Some ?h |- _ =>
        destruct (pos_height_in_tree_total p) as (h' & Hh' & Hr);
        assert (h = 0) as -> by (rewrite Hh in Hh'; inversion Hh'; lia)
    end.
    repeat split; try assumption; try lia.
  - unfold case_3, set_stack in H. repeat case_match; try discriminate;
      simplify_eq; zbool; state_fields;
      rewrite ?(u32_small (stack_top st - 2)), ?(u32_small (stack_top st - 1))
        in * by lia;
      stack_facts.
    all: do 3 eexists.
    all: rewrite !stack_get_in_range by lia.
    all: (split; [eassumption |]); (split; [eassumption |]).
    all: rewrite list_lookup_insert_eq by assumption.
    all: (split; [reflexivity |]); (split; [reflexivity |]);
      (split; [reflexivity |]); cbn [sv_position sv_height].
    all: match goal with
         | Hk : sv_t _ = _MMR_STACK_PROOF |- _ =>
             rewrite (proj2 (Z.eqb_eq _ _) Hk)
         | Hk : sv_t _ <> _MMR_STACK_PROOF |- _ =>
             rewrite (proj2 (Z.eqb_neq _ _) Hk)
         end.
    all: split; [reflexivity |]; intros Hpos H29 Hroom Hanchor.
    all: match goal with
         | Hn : _mmr_pos_height_in_tree (u64 (?pos + 1)) = Some ?nh,
           Ha : _mmr_pos_height_in_tree ?pos = Some ?h |- _ =>
             pose proof (parent_pos_height pos h nh Hpos H29 Hroom Ha Hn)
               as Hparent;
             cbn zeta in Hparent;
             destruct (Z.gtb_spec nh h); first [lia | exact Hparent]
         end.
Qed.

End VerifierFacts.

(** ** The default readers *)

Lemma byte_val_range b : 0 <= byte_val b < 256.
Proof. unfold byte_val. pose proof (Byte.to_N_bounded b). lia. Qed.

Lemma byte_at_range s i : 0 <= byte_at s i < 256.
Proof. apply byte_val_range. Qed.

Lemma load16_range s i : 0 <= load16 s i < 2 ^ 16.
Proof.
  unfold load16. pose proof (byte_at_range s i).
  pose proof (byte_at_range s (i + 1)). lia.
Qed.

Lemma load64_range s i : 0 <= load64 s i < 2 ^ 64.
Proof.
  unfold load64.
  pose proof (byte_at_range s i). pose proof (byte_at_range s (i + 1)).
  pose proof (byte_at_range s (i + 2)). pose proof (byte_at_range s (i + 3)).
  pose proof (byte_at_range s (i + 4)). pose proof (byte_at_range s (i + 5)).
  pose proof (byte_at_range s (i + 6)). pose proof (byte_at_range s (i + 7)).
  lia.
Qed.

Lemma default_command_read_inv c out ret c' cmd :
  reader_wf c -> _mmr_default_command_read c out = (ret, c', cmd) ->
  (ret = ERROR_NO_MORE_COMMANDS /\ c' = c /\ cmd = out)
  \/ (ret = 0 /\ index c < buffer_length c
      /\ c' = mk_reader (buffer c) (buffer_length c) (index c + 1)
      /\ cmd = byte_at (buffer c) (index c)).
Proof.
  intros [Hidx Hlen] H. unfold _mmr_default_command_read in H.
  destruct (Z.geb_spec (index c) (buffer_length c)).
  - inversion H; subst. left. repeat split.
  - rewrite u32_small in H by lia. inversion H; subst. right. repeat split. lia.
Qed.

Lemma default_command_read_wf c out c' cmd :
  reader_wf c -> _mmr_default_command_read c out = (0, c', cmd) ->
  reader_wf c' /\ buffer_length c' = buffer_length c
  /\ index c' = index c + 1.
Proof.
  intros Hwf H.
  destruct (default_command_read_inv c out 0 c' cmd Hwf H)
    as [(Hret & _) | (_ & Hlt & -> & _)]; [discriminate |].
  destruct Hwf as [Hidx Hlen]. unfold reader_wf. cbn [index buffer_length].
  repeat split; lia.
Qed.

Lemma default_read_node_inv c out ret c' node :
  reader_wf c -> _mmr_default_buffer_read_node c out = (ret, c', node) ->
  (ret = ERROR_NODE_EOF /\ c' = c /\ node = out)
  \/ (ret = 0
      /\ 2 + load16 (buffer c) (index c) <= buffer_length c - index c
      /\ c' = mk_reader (buffer c) (buffer_length c)
                (index c + 2 + load16 (buffer c) (index c))
      /\ node = mk_node MMR_NODE_TYPE_POINTER
                  (drop (Z.to_nat (index c + 2)) (buffer c))
                  (load16 (buffer c) (index c))).
Proof.
  intros [Hidx Hlen] H. unfold _mmr_default_buffer_read_node in H.
  pose proof (load16_range (buffer c) (index c)) as Hl.
  rewrite (u32_small (buffer_length c - index c)) in H by lia.
  destruct (Z.ltb_spec (buffer_length c - index c) 2).
  - inversion H; subst. left. repeat split.
  - rewrite (u32_small (buffer_length c - index c - 2)) in H by lia.
    destruct (Z.ltb_spec (buffer_length c - index c - 2)
                (load16 (buffer c) (index c))).
    + inversion H; subst. left. repeat split.
    + rewrite !u32_small in H by lia. inversion H; subst. right.
      replace (index c + (2 + load16 (buffer c) (index c)))
        with (index c + 2 + load16 (buffer c) (index c)) by ring.
      repeat split. lia.
Qed.

Lemma default_read_node_wf c out ret c' node :
  reader_wf c -> _mmr_default_buffer_read_node c out = (ret, c', node) ->
  reader_wf c' /\ buffer_length c' = buffer_length c
  /\ (ret = 0 -> index c < index c') /\ (ret <> 0 -> c' = c).
Proof.
  intros Hwf H. pose proof (load16_range (buffer c) (index c)) as Hl.
  destruct (default_read_node_inv c out ret c' node Hwf H)
    as [(-> & -> & _) | (-> & Hfit & -> & _)]; destruct Hwf as [Hidx Hlen];
    unfold reader_wf, ERROR_NODE_EOF; cbn [index buffer_length];
    repeat split; try lia; try reflexivity.
Qed.

(** The leaf reader succeeds exactly on a whole record. *)
Lemma default_leaf_read_wf c out_node out_position ret c' node position :
  reader_wf c ->
  _mmr_default_leaf_iter_read c out_node out_position
  = (ret, c', node, position) ->
  reader_wf c' /\ (ret = 0 <-> complete_leaf_record c)
  /\ (ret = 0 -> 0 <= position < 2 ^ 64).
Proof.
  intros [Hidx Hlen] H.
  destruct (default_leaf_iter_read_spec c out_node out_position Hidx Hlen)
    as (Hend & Hshort & Hcut & Hwhole).
  pose proof (load16_range (buffer c) (index c + 8)) as Hl.
  pose proof (load64_range (buffer c) (index c)) as Hp.
  unfold complete_leaf_record, reader_wf.
  destruct (Z.eq_dec (buffer_length c - index c) 0) as [H0 | H0].
  { rewrite (Hend H0) in H. inversion H; subst.
    unfold ERROR_NO_MORE_LEAFS. repeat split; lia. }
  destruct (Z_lt_le_dec (buffer_length c - index c) 8) as [H8 | H8].
  { rewrite (Hshort ltac:(lia)) in H. inversion H; subst.
    unfold ERROR_LEAF_EOF. repeat split; lia. }
  destruct (Z_lt_le_dec (buffer_length c - index c) 10) as [H10 | H10].
  { rewrite (Hcut H8 ltac:(lia)) in H. inversion H; subst.
    unfold ERROR_NODE_EOF. cbn [index buffer_length]. repeat split; lia. }
  destruct (Z_lt_le_dec (buffer_length c - index c - 10)
              (load16 (buffer c) (index c + 8))) as [Hlong | Hfit].
  { rewrite (Hcut H8 ltac:(lia)) in H. inversion H; subst.
    unfold ERROR_NODE_EOF. cbn [index buffer_length]. repeat split; lia. }
  rewrite (Hwhole H10 Hfit) in H. inversion H; subst.
  cbn [index buffer_length]. repeat split; lia.
Qed.

(** ** Runs with the default readers end *)

Section DefaultReaders.

Variable MMR_MERGE : mmr_node_t -> mmr_node_t -> mmr_node_t -> Z * mmr_node_t.
Variable MMR_MERGE_PEAKS :
  mmr_node_t -> mmr_node_t -> mmr_node_t -> Z * mmr_node_t.

Abbreviation dstate :=
  (verify_state mmr_default_buffer_reader_t mmr_default_buffer_reader_t).
Abbreviation dstep :=
  (mmr_verify_step MMR_MERGE MMR_MERGE_PEAKS _mmr_default_leaf_iter_read
     _mmr_default_command_read _mmr_default_buffer_read_node).
Abbreviation dsteps :=
  (run_steps MMR_MERGE MMR_MERGE_PEAKS _mmr_default_leaf_iter_read
     _mmr_default_command_read _mmr_default_buffer_read_node).
Abbreviation dloop :=
  (mmr_verify_loop MMR_MERGE MMR_MERGE_PEAKS _mmr_default_leaf_iter_read
     _mmr_default_command_read _mmr_default_buffer_read_node).

Lemma dstep_Continue_inv mmr_size (st st' : dstate) :
  0 < mmr_size <= 2 ^ 31 - 2 -> run_inv mmr_size st ->
  dstep mmr_size st = Continue st' ->
  run_inv mmr_size st'
  /\ buffer_length (proof_reader_context st')
     = buffer_length (proof_reader_context st)
  /\ index (proof_reader_context st) < index (proof_reader_context st').
Proof.
  intros Hsize (Hstack & Hp & Hl & Hpeak) H.
  pose proof (step_stack_wf _ _ _ _ _ _ _ _ Hstack H) as Hstack'.
  unfold run_inv. invert_step H; subst.
  all: match goal with
       | Hc : _mmr_default_command_read _ _ = (0, _, _) |- _ =>
           destruct (default_command_read_wf _ _ _ _ Hp Hc)
             as (Hp' & Hlen' & Hidx')
       end.
  all: try match goal with
       | Hn : _mmr_default_buffer_read_node _ _ = (0, _, _) |- _ =>
           destruct (default_read_node_wf _ _ _ _ _ Hp' Hn)
             as (Hp'' & Hlen'' & Hidx'' & _);
           specialize (Hidx'' eq_refl)
       end.
  all: try match goal with
       | Hr : _mmr_default_leaf_iter_read _ _ _ = _ |- _ =>
           destruct (default_leaf_read_wf _ _ _ _ _ _ _ Hl Hr) as (Hl' & _)
       end.
  all: try match goal with
       | Hs : peak_seek_loop PEAK_SEEK_FUEL ?pos _ _ = Some ?pk,
         Hpres : peak_present ?pk <> 0 |- _ =>
           let Hpk := fresh "Hpk" in
           assert (Hpk : peak_inv mmr_size pk);
           [ pose proof (peak_measure_bound _ _ Hpeak) as Hbound;
             destruct (peak_seek_loop_total mmr_size pos Hsize PEAK_SEEK_FUEL
                         _ Hpeak) as (pk' & Hpk' & Hinv');
             [ unfold PEAK_SEEK_FUEL; lia | congruence ]
           | destruct (right_peak_decreases mmr_size pk Hsize Hpk Hpres)
               as [Hnext _] ]
       end.
  all: split;
    [ split; [exact Hstack' | split; [assumption | split; assumption]]
    | split; lia ].
Qed.


Lemma dsteps_inv mmr_size : forall n (st st' : dstate),
  0 < mmr_size <= 2 ^ 31 - 2 -> run_inv mmr_size st ->
  dsteps n mmr_size st = Continue st' -> run_inv mmr_size st'.
Proof.
  induction n as [| n IH]; intros st st' Hsize Hinv H; cbn [run_steps] in H.
  - inversion H; subst; exact Hinv.
  - destruct (dstep mmr_size st) as [st1 | | | |] eqn:Hstep; try discriminate.
    eapply IH; [exact Hsize | | exact H].
    eapply dstep_Continue_inv; [exact Hsize | exact Hinv | exact Hstep].
Qed.

(** The leaf reader stays within its buffer whatever the MMR size. *)
Lemma dstep_leaf_wf mmr_size (st st' : dstate) :
  reader_wf (leaf_reader_context st) -> dstep mmr_size st = Continue st' ->
  reader_wf (leaf_reader_context st').
Proof.
  intros Hl H. invert_step H; try assumption.
  match goal with
  | Hr : _mmr_default_leaf_iter_read _ _ _ = _ |- _ =>
      destruct (default_leaf_read_wf _ _ _ _ _ _ _ Hl Hr) as (Hl' & _)
  end. exact Hl'.
Qed.

Lemma dsteps_leaf_wf mmr_size : forall n (st st' : dstate),
  reader_wf (leaf_reader_context st) -> dsteps n mmr_size st = Continue st' ->
  reader_wf (leaf_reader_context st').
Proof.
  induction n as [| n IH]; intros st st' Hl H; cbn [run_steps] in H.
  - inversion H; subst; exact Hl.
  - destruct (dstep mmr_size st) as [st1 | | | |] eqn:Hstep; try discriminate.
    eapply IH; [| exact H]. eapply dstep_leaf_wf; [exact Hl | exact Hstep].
Qed.

(** After the loop, with one entry on the stack: a whole record left in
    the leaf buffer makes the result [ERROR_INVALID_PROOF]. *)
Lemma finish_rejects_record root root_length (st : dstate) :
  stack_top st = 1 -> reader_wf (leaf_reader_context st) ->
  complete_leaf_record (leaf_reader_context st) ->
  mmr_verify_finish _mmr_default_leaf_iter_read root root_length st
  = Returns ERROR_INVALID_PROOF.
Proof.
  intros Htop Hl Hrec. unfold mmr_verify_finish. rewrite Htop. cbn [Z.eqb negb].
  destruct (_mmr_default_leaf_iter_read _ _ _)
    as [[[ret lctx] node] position] eqn:Hread.
  destruct (default_leaf_read_wf _ _ _ _ _ _ _ Hl Hread) as (_ & Hiff & _).
  rewrite (proj2 Hiff Hrec). reflexivity.
Qed.

(** A run that returns 0 has left no whole record in the leaf buffer. *)
Lemma mmr_verify_zero_no_record fuel root root_length mmr_size proof_ctx
    leaf_ctx :
  reader_wf leaf_ctx ->
  mmr_verify MMR_MERGE MMR_MERGE_PEAKS _mmr_default_leaf_iter_read
    _mmr_default_command_read _mmr_default_buffer_read_node fuel root
    root_length mmr_size proof_ctx leaf_ctx = Returns 0 ->
  exists next_peak_info (n : nat) (st : dstate),
    _mmr_left_peak_height_pos mmr_size = Some next_peak_info
    /\ dsteps n mmr_size (initial_state next_peak_info proof_ctx leaf_ctx)
       = Continue st
    /\ fst (fst (_mmr_default_command_read (proof_reader_context st)
                   (command st))) = ERROR_NO_MORE_COMMANDS
    /\ ~ complete_leaf_record (leaf_reader_context st).
Proof.
  intros Hl H. apply mmr_verify_zero_iff in H
    as (peak & n & st & pctx' & cmd & bottom & Hpeak & Hne & Hn & Hrun & Hread
        & Htop & Hprobe & _).
  exists peak, n, st. repeat split; [exact Hpeak | exact Hrun | |].
  - rewrite Hread. reflexivity.
  - intros Hrec.
    assert (Hl' : reader_wf (leaf_reader_context st)).
    { eapply dsteps_leaf_wf; [| exact Hrun]. exact Hl. }
    destruct (_mmr_default_leaf_iter_read (leaf_reader_context st) uninit_node 0)
      as [[[ret lctx] node] position] eqn:Hleaf.
    destruct (default_leaf_read_wf _ _ _ _ _ _ _ Hl' Hleaf) as (_ & Hiff & _).
    apply Hprobe. cbn [fst]. apply Hiff. exact Hrec.
Qed.




End DefaultReaders.

Lemma reader_init_wf buffer buffer_length :
  0 <= buffer_length < 2 ^ 32 ->
  reader_wf (snd (mmr_default_buffer_reader_init buffer buffer_length)).
Proof. intros H. unfold reader_wf. cbn. lia. Qed.


(** ** The left peak and the leaf reader, as claimed *)

(** C7, as the code has it.  [_mmr_left_peak_height_pos] never returns
    an absent peak, not even for [mmr_size = 0].  Whenever [h] is the
    first height from 1 on with [peak_pos_by_height(h) >= mmr_size], it
    returns the peak at [peak_pos_by_height(h - 1)] of height [h - 1],
    marked present ([mmr_size = 0] is the case [h = 1]). *)
Theorem left_peak_first_height (mmr_size : Z) :
  (forall peak,
     _mmr_left_peak_height_pos mmr_size = Some peak -> peak_present peak = 1)
  /\ (forall h,
        1 <= h <= 63 ->
        mmr_size <= _mmr_get_peak_pos_by_height h ->
        (forall j, 1 <= j < h -> _mmr_get_peak_pos_by_height j < mmr_size) ->
        _mmr_left_peak_height_pos mmr_size
        = Some {| peak_pos := _mmr_get_peak_pos_by_height (h - 1);
                  peak_height := h - 1;
                  peak_present := 1 |}).
Proof. exact (left_peak_first mmr_size). Qed.

(** C9.  The default leaf reader, on a reader whose cursor lies within
    its buffer: it returns [ERROR_NO_MORE_LEAFS] when the cursor is at
    the end of the buffer; [ERROR_LEAF_EOF] when some but fewer than 8
    bytes remain; [ERROR_NODE_EOF] when the 8 bytes of the position are
    there but the node that follows is cut short (fewer than 2 bytes for
    its length, or fewer bytes than the length announces); and otherwise 0
    with the little-endian 64-bit position, the node of the announced
    length that points just behind the length field, and the cursor moved
    behind the whole record. *)
Theorem default_leaf_iter_read_cases (c : mmr_default_buffer_reader_t)
    (out_node : mmr_node_t) (out_position : Z) :
  0 <= index c <= buffer_length c -> buffer_length c < 2 ^ 32 ->
  let remaining := buffer_length c - index c in
  let len := load16 (buffer c) (index c + 8) in
  let r := _mmr_default_leaf_iter_read c out_node out_position in
  (remaining = 0 -> r = (ERROR_NO_MORE_LEAFS, c, out_node, out_position))
  /\ (0 < remaining < 8 -> r = (ERROR_LEAF_EOF, c, out_node, out_position))
  /\ (8 <= remaining -> remaining < 10 \/ remaining - 10 < len ->
      r = (ERROR_NODE_EOF,
           mk_reader (buffer c) (buffer_length c) (index c + 8),
           out_node, out_position))
  /\ (10 <= remaining -> len <= remaining - 10 ->
      r = (0,
           mk_reader (buffer c) (buffer_length c) (index c + 8 + 2 + len),
           mk_node MMR_NODE_TYPE_POINTER
             (drop (Z.to_nat (index c + 8 + 2)) (buffer c)) len,
           load64 (buffer c) (index c))).
Proof. exact (default_leaf_iter_read_spec c out_node out_position). Qed.

(** ** The verdict *)

(** [memcmp] returns 0 exactly on equal bytes. *)
Lemma byte_val_inj b1 b2 : byte_val b1 = byte_val b2 -> b1 = b2.
Proof.
  unfold byte_val. intros H. apply N2Z.inj in H.
  pose proof (Byte.of_to_N b1) as H1. pose proof (Byte.of_to_N b2) as H2.
  rewrite H in H1. congruence.
Qed.

Lemma memcmp_zero_iff : forall n s1 s2,
  memcmp s1 s2 n = 0
  <-> forall i, (i < n)%nat -> nth i s1 x00 = nth i s2 x00.
Proof.
  induction n as [| n IH]; intros s1 s2; cbn [memcmp].
  - split; [intros _ i Hi; lia | reflexivity].
  - destruct (Z.eqb_spec (byte_val (hd x00 s1)) (byte_val (hd x00 s2)))
      as [Heq | Hne].
    + apply byte_val_inj in Heq. rewrite IH. split.
      * intros H [| i] Hi.
        -- destruct s1, s2; exact Heq.
        -- specialize (H i ltac:(lia)). destruct s1, s2; cbn in *;
             try exact H; destruct i; exact H.
      * intros H i Hi. specialize (H (S i) ltac:(lia)).
        destruct s1, s2; cbn in *; try exact H; destruct i; exact H.
    + split.
      * intros H. lia.
      * intros H. exfalso. apply Hne. f_equal.
        specialize (H O ltac:(lia)). destruct s1, s2; exact H.
Qed.


(** C6, as the code has it.  After the loop, with one entry on the
    stack, [mmr_verify] returns [ERROR_INVALID_PROOF] when the read of
    the leaf reader returns 0, which the default reader does exactly on
    a whole record; a read that fails, with whatever code, lets the run
    go on to the comparison with the root.  So no run of the harness that
    returns 0 leaves a whole record behind the leaves that opcode 1 has
    consumed. *)
Theorem leaf_probe_rejects_whole_record (root : list byte)
    (root_length mmr_size : Z) (proof : list byte) (proof_length : Z)
    (leaves : list byte) (leaves_length : Z) :
  (forall st : verify_state mmr_default_buffer_reader_t
                 mmr_default_buffer_reader_t,
     stack_top st = 1 -> reader_wf (leaf_reader_context st) ->
     complete_leaf_record (leaf_reader_context st) ->
     mmr_verify_finish _mmr_default_leaf_iter_read root root_length st
     = Returns ERROR_INVALID_PROOF)
  /\ (0 <= leaves_length < 2 ^ 32 ->
      run_mmr_verify root root_length mmr_size proof proof_length leaves
        leaves_length = Returns 0 ->
      exists next_peak_info (n : nat) st,
        _mmr_left_peak_height_pos mmr_size = Some next_peak_info
        /\ default_steps n mmr_size
             (initial_state next_peak_info
                (snd (mmr_default_buffer_reader_init proof proof_length))
                (snd (mmr_default_buffer_reader_init leaves leaves_length)))
           = Continue st
        /\ fst (fst (_mmr_default_command_read (proof_reader_context st)
                       (command st))) = ERROR_NO_MORE_COMMANDS
        /\ ~ complete_leaf_record (leaf_reader_context st)).
Proof.
  split.
  - intros st. apply finish_rejects_record.
  - intros Hleaves H. unfold run_mmr_verify in H.
    eapply mmr_verify_zero_no_record; [| exact H].
    apply reader_init_wf. exact Hleaves.
Qed.

(** ** Where the specification and the code part *)

(** C7, counterexample.  For [mmr_size = 0] the left peak comes back
    marked present (at position 0, height 0). *)
Lemma left_peak_zero_present :
  exists peak, _mmr_left_peak_height_pos 0 = Some peak
               /\ peak_pos peak = 0 /\ peak_height peak = 0
               /\ peak_present peak = 1 /\ peak_present peak <> 0.
Proof.
  exists (mk_peak 0 0 1). repeat split. cbn [peak_present]. lia.
Qed.

(** C6, counterexample.  One byte is left in the leaf buffer behind the
    only leaf; the read after the loop fails on it with [ERROR_LEAF_EOF],
    which is not [ERROR_NO_MORE_LEAFS], and the verification returns
    0. *)
Lemma trailing_byte_accepted :
  let proof := [x01; x05] in
  let leaves := example_leaf_record x00 ++ [x00] in
  run_mmr_verify example_node 32 1 proof 2 leaves 43 = Returns 0
  /\ exists st,
       default_steps 2 1
         (initial_state (mk_peak 0 0 1)
            (snd (mmr_default_buffer_reader_init proof 2))
            (snd (mmr_default_buffer_reader_init leaves 43)))
       = Continue st
       /\ index (leaf_reader_context st) = 42
       /\ buffer_length (leaf_reader_context st) = 43
       /\ fst (fst (fst (_mmr_default_leaf_iter_read (leaf_reader_context st)
                           uninit_node 0))) = ERROR_LEAF_EOF.
Proof.
  split; [vm_compute; reflexivity |].
  eexists. split; [reflexivity |]. repeat split.
Qed.

(** C2, counterexample.  On an MMR of one node the proof [1, 2, 3]
    merges the leaf at position 0 with a node of the proof: the stack then
    holds an entry of kind Node at position 2, which is not below
    [mmr_size]. *)
Lemma merged_node_beyond_mmr_size :
  let proof := [x01; x02] ++ example_node_record ++ [x03] in
  let leaves := example_leaf_record x00 in
  exists st entry,
    default_reachable 1 (snd (mmr_default_buffer_reader_init proof 37))
      (snd (mmr_default_buffer_reader_init leaves 42)) st
    /\ stack_top st = 1
    /\ stack_get (stack st) 0 = Some entry
    /\ sv_t entry = _MMR_STACK_NODE
    /\ sv_position entry = 2
    /\ ~ sv_position entry < 1.
Proof.
  eexists. eexists. split.
  - exists (mk_peak 0 0 1), 3%nat. split; [reflexivity |].
    split; [lia |]. vm_compute. reflexivity.
  - split; [reflexivity |]. split; [reflexivity |].
    split; [reflexivity |]. split; [reflexivity |]. cbn [sv_position]. lia.
Qed.

(** The height of the position need not be the height recorded either:
    on an MMR of three nodes, a peak that has been merged with another one
    keeps its position 2 with the height 0, and opcode 3 then makes of it
    a Node at position 4 with height 1, where position 4 is a leaf. *)
Lemma merged_node_height_differs :
  let proof :=
    [x01; x01; x03; x05; x02] ++ example_node_record
    ++ [x05; x04; x02] ++ example_node_record ++ [x03] in
  let leaves := example_leaf_record x00 ++ example_leaf_record x01 in
  exists st entry,
    default_reachable 3 (snd (mmr_default_buffer_reader_init proof 77))
      (snd (mmr_default_buffer_reader_init leaves 84)) st
    /\ stack_top st = 1
    /\ stack_get (stack st) 0 = Some entry
    /\ sv_t entry = _MMR_STACK_NODE
    /\ sv_position entry = 4 /\ sv_height entry = 1
    /\ _mmr_pos_height_in_tree (sv_position entry) = Some 0.
Proof.
  eexists. eexists. split.
  - exists (mk_peak 2 1 1), 9%nat. split; [reflexivity |].
    split; [lia |]. vm_compute. reflexivity.
  - repeat split.
Qed.

(** ** The theorems at work on the examples *)

(** The default reader on the record of one leaf. *)
Lemma default_leaf_iter_read_cases_witness :
  _mmr_default_leaf_iter_read (mk_reader (example_leaf_record x00) 42 0)
    uninit_node 0
  = (0, mk_reader (example_leaf_record x00) 42 42,
     mk_node MMR_NODE_TYPE_POINTER example_node 32, 0).
Proof.
  destruct (default_leaf_iter_read_cases
              (mk_reader (example_leaf_record x00) 42 0) uninit_node 0)
    as (_ & _ & _ & Hwhole).
  - cbn [index buffer_length]. lia.
  - cbn [index buffer_length]. lia.
  - apply Hwhole.
    + cbn [index buffer_length]. lia.
    + vm_compute. discriminate.
Defined.

(** The left peak of an MMR of three nodes. *)
Lemma left_peak_first_height_witness :
  _mmr_left_peak_height_pos 3 = Some (mk_peak 2 1 1).
Proof.
  destruct (left_peak_first_height 3) as [_ Hfirst].
  apply (Hfirst 2).
  - lia.
  - vm_compute. discriminate.
  - intros j Hj. assert (j = 1) as -> by lia. vm_compute. reflexivity.
Defined.

(** Opcode 1 pushes the leaf at position 0 of an MMR of one node. *)
Lemma case_1_push_leaf_witness :
  case_1 _mmr_default_leaf_iter_read 1
    (example_state [uninit_stack_value] 0 [] (example_leaf_record x00))
  = Continue
      (mk_state [example_node_entry 0 0] 1 (mk_peak 0 0 1) 0 1 255
         (mk_reader [] 0 0) (mk_reader (example_leaf_record x00) 42 42)).
Proof.
  destruct (case_1_push_leaf _mmr_default_leaf_iter_read 1
              (example_state [uninit_stack_value] 0 []
                 (example_leaf_record x00))
              uninit_stack_value
              (mk_reader (example_leaf_record x00) 42 42)
              (mk_node MMR_NODE_TYPE_POINTER example_node 32) 0)
    as [_ Hpush].
  - reflexivity.
  - reflexivity.
  - apply Hpush. intros [[Hlast _] | [Hsize | Hheight]].
    + apply Hlast. reflexivity.
    + vm_compute in Hsize. apply Hsize. reflexivity.
    + apply Hheight. reflexivity.
Defined.



(** The state in which a run on an MMR of one node starts. *)
Lemma stack_never_exceeds_bound_witness :
  0 <= stack_top
         (initial_state (mk_peak 0 0 1) (mk_reader [x01; x05] 2 0)
            (mk_reader (example_leaf_record x00) 42 0))
    <= MMR_STACK_SIZE.
Proof.
  apply (stack_never_exceeds_bound mmr_blake2b_merge mmr_blake2b_merge
           _mmr_default_leaf_iter_read _mmr_default_command_read
           _mmr_default_buffer_read_node 1 (mk_reader [x01; x05] 2 0)
           (mk_reader (example_leaf_record x00) 42 0)).
  exists (mk_peak 0 0 1), O. split; [reflexivity |]. split; [lia | reflexivity].
Defined.

(** Opcode 5 on a stack of two entries leaves the lower one alone. *)
Lemma step_frame_witness :
  stack_get
    [example_node_entry 0 0;
     mk_stack_value _MMR_STACK_PEAK
       (mk_node MMR_NODE_TYPE_POINTER example_node 32) 0 0] 0
  = stack_get [example_node_entry 0 0; example_proof_entry] 0.
Proof.
  apply (step_frame mmr_blake2b_merge mmr_blake2b_merge
           _mmr_default_leaf_iter_read _mmr_default_command_read
           _mmr_default_buffer_read_node 1
           (example_state [example_node_entry 0 0; example_proof_entry] 2
              [x05] [])
           (mk_state
              [example_node_entry 0 0;
               mk_stack_value _MMR_STACK_PEAK
                 (mk_node MMR_NODE_TYPE_POINTER example_node 32) 0 0]
              2 (mk_peak 0 0 1) 0 0 5 (mk_reader [x05] 1 1)
              (mk_reader [] 0 0))).
  - unfold is_u32. cbn [example_state stack_top]. lia.
  - left. reflexivity.
  - cbn. lia.
Defined.

(** The entry that opcode 1 pushes for the leaf at position 0. *)
Lemma node_entries_position_height_witness :
  exists entry,
    stack_get [example_node_entry 0 0] 0 = Some entry
    /\ sv_t entry = _MMR_STACK_NODE
    /\ sv_position entry < 1
    /\ _mmr_pos_height_in_tree (sv_position entry) = Some (sv_height entry).
Proof.
  destruct (node_entries_position_height mmr_blake2b_merge
              _mmr_default_leaf_iter_read 1
              (example_state [uninit_stack_value] 0 []
                 (example_leaf_record x00))
              (mk_state [example_node_entry 0 0] 1 (mk_peak 0 0 1) 0 1 255
                 (mk_reader [] 0 0)
                 (mk_reader (example_leaf_record x00) 42 42)))
    as [Hleaf _].
  - unfold is_u32. cbn [example_state stack_top]. lia.
  - destruct (Hleaf eq_refl) as (entry & Hget & _ & Hkind & Hpos & _ & Hheight).
    exists entry. repeat split; assumption.
Defined.


(** A second record in the leaf buffer, which no opcode 1 consumes. *)
Lemma leaf_probe_rejects_whole_record_witness :
  mmr_verify_finish _mmr_default_leaf_iter_read example_node 32
    (example_state [example_node_entry 0 0] 1 [] (example_leaf_record x01))
  = Returns ERROR_INVALID_PROOF.
Proof.
  destruct (leaf_probe_rejects_whole_record example_node 32 1 [] 0 [] 0)
    as [Hfinish _].
  apply Hfinish.
  - reflexivity.
  - unfold reader_wf. cbn. lia.
  - unfold complete_leaf_record. split.
    + cbn. lia.
    + vm_compute. discriminate.
Defined.

(** * Further properties of the code *)

(** ** The other opcodes *)

Section VerifierMore.

Context {PCtx LCtx : Type}.
Variable MMR_MERGE : mmr_node_t -> mmr_node_t -> mmr_node_t -> Z * mmr_node_t.
Variable MMR_MERGE_PEAKS :
  mmr_node_t -> mmr_node_t -> mmr_node_t -> Z * mmr_node_t.
Variable MMR_LEAF_READER : LCtx -> mmr_node_t -> Z -> Z * LCtx * mmr_node_t * Z.
Variable MMR_COMMAND_READER : PCtx -> Z -> Z * PCtx * Z.
Variable MMR_PROOF_READER : PCtx -> mmr_node_t -> Z * PCtx * mmr_node_t.

Abbreviation state' := (verify_state PCtx LCtx).
Abbreviation step' :=
  (mmr_verify_step MMR_MERGE MMR_MERGE_PEAKS MMR_LEAF_READER
     MMR_COMMAND_READER MMR_PROOF_READER).
Abbreviation steps' :=
  (run_steps MMR_MERGE MMR_MERGE_PEAKS MMR_LEAF_READER
     MMR_COMMAND_READER MMR_PROOF_READER).
Abbreviation loop' :=
  (mmr_verify_loop MMR_MERGE MMR_MERGE_PEAKS MMR_LEAF_READER
     MMR_COMMAND_READER MMR_PROOF_READER).

(** X1.  Opcode 2.  On a full stack the result is
    [ERROR_INVALID_STACK].  Otherwise the proof reader is called on the
    node of the slot at [stack_top]: a code other than 0 is returned as
    it is; on 0 the slot receives an entry of kind Proof with the node
    read, position 0 and height 0, [stack_top] grows by one and the proof
    reader is the one the call left, with nothing else changed. *)
Theorem case_2_push_proof (st : state') :
  (MMR_STACK_SIZE <= stack_top st ->
   case_2 MMR_PROOF_READER st = Return ERROR_INVALID_STACK)
  /\ (forall slot ret pctx node,
        stack_get (stack st) (stack_top st) = Some slot ->
        MMR_PROOF_READER (proof_reader_context st) (sv_node slot)
        = (ret, pctx, node) ->
        (ret <> 0 -> case_2 MMR_PROOF_READER st = Return ret)
        /\ (ret = 0 ->
            case_2 MMR_PROOF_READER st
            = Continue
                (mk_state
                   (<[Z.to_nat (stack_top st) :=
                        mk_stack_value _MMR_STACK_PROOF node 0 0]> (stack st))
                   (stack_top st + 1) (next_peak_info st) (last_leaf_pos st)
                   (has_last_leaf st) (command st) pctx
                   (leaf_reader_context st)))).
Proof.
  clear MMR_MERGE MMR_MERGE_PEAKS MMR_COMMAND_READER MMR_LEAF_READER.
  pose proof MMR_STACK_SIZE_range as Hsize. split.
  - intros Hfull. unfold case_2.
    destruct (Z.geb_spec (stack_top st) MMR_STACK_SIZE); [reflexivity | lia].
  - intros slot ret pctx node Hslot Hread.
    pose proof (stack_get_Some _ _ _ Hslot) as [Htop _].
    pose proof (stack_get_lt_length _ _ _ Hslot) as Hlen.
    unfold case_2. destruct (Z.geb_spec (stack_top st) MMR_STACK_SIZE); [lia |].
    rewrite Hslot, Hread, (stack_set_defined _ _ _ Htop Hlen).
    rewrite (u32_small (stack_top st + 1)) by lia.
    destruct (Z.eqb_spec ret 0); cbn [negb]; split; intros; try lia;
      reflexivity.
Qed.

(** X2.  Opcode 4 on a stack of at least two entries [under] and [top].
    Unless both are of kind Peak the result is [ERROR_INVALID_PROOF].
    When they are, the peak merge is called with [top] as its left and
    [under] as its right operand, and the two entries are replaced by one
    that keeps the kind and the position of [under], with the merged node
    and height 0.  On fewer than two entries the result is
    [ERROR_INVALID_STACK]. *)
Theorem case_4_merge_peaks (st : state') :
  (stack_top st < 2 -> case_4 MMR_MERGE_PEAKS st = Return ERROR_INVALID_STACK)
  /\ (forall under top,
        2 <= stack_top st ->
        stack_get (stack st) (stack_top st - 2) = Some under ->
        stack_get (stack st) (stack_top st - 1) = Some top ->
        (sv_t top <> _MMR_STACK_PEAK \/ sv_t under <> _MMR_STACK_PEAK ->
         case_4 MMR_MERGE_PEAKS st = Return ERROR_INVALID_PROOF)
        /\ (sv_t top = _MMR_STACK_PEAK -> sv_t under = _MMR_STACK_PEAK ->
            case_4 MMR_MERGE_PEAKS st
            = Continue
                (set_stack st
                   (<[Z.to_nat (stack_top st - 2) :=
                        mk_stack_value _MMR_STACK_PEAK
                          (snd (MMR_MERGE_PEAKS (sv_node under) (sv_node top)
                                  (sv_node under)))
                          (sv_position under) 0]> (stack st))
                   (stack_top st - 1)))).
Proof.
  clear MMR_MERGE MMR_PROOF_READER MMR_COMMAND_READER MMR_LEAF_READER.
  pose proof MMR_STACK_SIZE_range as Hsize. split.
  - intros Hfew. unfold case_4.
    destruct (Z.ltb_spec (stack_top st) 2); [reflexivity | lia].
  - intros under top Hge Hunder Htop.
    pose proof (stack_get_Some _ _ _ Hunder) as [Hi2 _].
    pose proof (stack_get_Some _ _ _ Htop) as [Hi1 _].
    pose proof (stack_get_lt_length _ _ _ Hunder) as Hlen.
    unfold case_4. destruct (Z.ltb_spec (stack_top st) 2); [lia |].
    rewrite (u32_small (stack_top st - 2)), (u32_small (stack_top st - 1))
      by lia.
    rewrite Hunder, Htop, (stack_set_defined _ _ _ Hi2 Hlen).
    destruct (Z.eqb_spec (sv_t top) _MMR_STACK_PEAK),
      (Z.eqb_spec (sv_t under) _MMR_STACK_PEAK); cbn [negb orb];
      split; intros; try tauto; try reflexivity.
    match goal with Hk : sv_t under = _ |- _ => rewrite Hk end. reflexivity.
Qed.

(** X3.  What an iteration rejects before it touches the stack: a code
    of the command reader other than 0 and [ERROR_NO_MORE_COMMANDS] is
    returned as it is; a command outside 1 to 5 gives
    [ERROR_INVALID_COMMAND]; the opcodes 3 and 4 on fewer than two
    entries, and opcode 5 on an empty stack, give [ERROR_INVALID_STACK]. *)
Theorem step_rejects (mmr_size : Z) (st : state') (ret : Z) (pctx : PCtx)
    (opcode : Z) :
  MMR_COMMAND_READER (proof_reader_context st) (command st)
  = (ret, pctx, opcode) ->
  (ret <> 0 -> ret <> ERROR_NO_MORE_COMMANDS -> step' mmr_size st = Return ret)
  /\ (ret = 0 -> ~ 1 <= opcode <= 5 ->
      step' mmr_size st = Return ERROR_INVALID_COMMAND)
  /\ (ret = 0 -> opcode = 3 \/ opcode = 4 -> stack_top st < 2 ->
      step' mmr_size st = Return ERROR_INVALID_STACK)
  /\ (ret = 0 -> opcode = 5 -> stack_top st < 1 ->
      step' mmr_size st = Return ERROR_INVALID_STACK).
Proof.
  intros Hread. unfold mmr_verify_step. rewrite Hread.
  repeat split.
  - intros H0 Hmore.
    destruct (Z.eqb_spec ret ERROR_NO_MORE_COMMANDS); [congruence |].
    destruct (Z.eqb_spec ret 0); [congruence | reflexivity].
  - intros -> Hout. cbn [Z.eqb negb].
    destruct opcode as [| p | p]; try reflexivity.
    destruct p as [[[p | p |] | [p | p |] |] | [[p | p |] | [p | p |] |] |];
      try reflexivity; exfalso; apply Hout; lia.
  - intros -> Hop Hfew. cbn [Z.eqb negb].
    destruct Hop as [-> | ->]; unfold case_3, case_4; cbn [stack_top];
      destruct (Z.ltb_spec (stack_top st) 2); try lia; reflexivity.
  - intros -> -> Hfew. cbn [Z.eqb negb]. unfold case_5. cbn [stack_top].
    destruct (Z.ltb_spec (stack_top st) 1); [reflexivity | lia].
Qed.

End VerifierMore.

(** ** The peak cursor moves to the right *)

(** What a call of [_mmr_get_right_peak] does to a cursor that
    [peak_inv] describes. *)
Lemma right_peak_facts mmr_size peak :
  0 < mmr_size <= 2 ^ 31 - 2 -> peak_inv mmr_size peak ->
  peak_present peak <> 0 ->
  let r := _mmr_get_right_peak peak mmr_size in
  (fst r = 0 /\ peak_present (snd r) = 0
   /\ peak_pos (snd r) = peak_pos peak
   /\ peak_height (snd r) = peak_height peak
   /\ mmr_size = peak_pos peak + 1)
  \/ (fst r = 1 /\ peak_present (snd r) = 1
      /\ 0 <= peak_height (snd r) <= peak_height peak
      /\ peak_pos (snd r)
         = peak_pos peak + 2 ^ (peak_height (snd r) + 1) - 1
      /\ peak_pos peak < peak_pos (snd r) < mmr_size
      /\ peak_pos peak + 1 < mmr_size).
Proof.
  intros Hsize [Habsent | (Hh & Hpos & Hfit)] Hpresent; [congruence |].
  pose proof (pow2_pos (peak_height peak + 1) ltac:(lia)) as Hp.
  pose proof (pow2_le (peak_height peak + 1) 30 ltac:(lia)) as Hle.
  pose proof (right_peak_loop_spec mmr_size (peak_pos peak) Hsize Hpos
                (Z.to_nat (peak_height peak)) ltac:(lia)) as Hloop.
  rewrite Z2Nat.id in Hloop by lia.
  unfold _mmr_get_right_peak. rewrite sibling_offset_small by lia.
  replace (u64 (peak_pos peak + (2 ^ (peak_height peak + 1) - 1)))
    with (peak_pos peak + 2 ^ (peak_height peak + 1) - 1)
    by (rewrite u64_small by lia; lia).
  destruct (right_peak_loop _ _ _) as [[p' h'] |];
    cbn [fst snd peak_pos peak_height peak_present].
  - destruct Hloop as (Hh' & Hp' & Hlt & Hnext).
    assert (1 < 2 ^ (Z.of_nat h' + 1)).
    { pose proof (pow2_lt 0 (Z.of_nat h' + 1) ltac:(lia)).
      change (2 ^ 0) with 1 in *. lia. }
    right. repeat split; try lia.
  - left. repeat split; lia.
Qed.

Section VerifierMore2.

Context {PCtx LCtx : Type}.
Variable MMR_MERGE : mmr_node_t -> mmr_node_t -> mmr_node_t -> Z * mmr_node_t.
Variable MMR_MERGE_PEAKS :
  mmr_node_t -> mmr_node_t -> mmr_node_t -> Z * mmr_node_t.
Variable MMR_LEAF_READER : LCtx -> mmr_node_t -> Z -> Z * LCtx * mmr_node_t * Z.
Variable MMR_COMMAND_READER : PCtx -> Z -> Z * PCtx * Z.
Variable MMR_PROOF_READER : PCtx -> mmr_node_t -> Z * PCtx * mmr_node_t.

Abbreviation state2 := (verify_state PCtx LCtx).
Abbreviation step2 :=
  (mmr_verify_step MMR_MERGE MMR_MERGE_PEAKS MMR_LEAF_READER
     MMR_COMMAND_READER MMR_PROOF_READER).
Abbreviation steps2 :=
  (run_steps MMR_MERGE MMR_MERGE_PEAKS MMR_LEAF_READER
     MMR_COMMAND_READER MMR_PROOF_READER).
Abbreviation loop2 :=
  (mmr_verify_loop MMR_MERGE MMR_MERGE_PEAKS MMR_LEAF_READER
     MMR_COMMAND_READER MMR_PROOF_READER).

(** *** No access outside the stack *)

Lemma loop_no_fault mmr_size : forall fuel (st : state2),
  stack_wf st ->
  loop2 fuel mmr_size st <> Fault
  /\ forall st', loop2 fuel mmr_size st = Break st' -> stack_wf st'.
Proof.
  induction fuel as [| fuel IH]; intros st Hwf; cbn [mmr_verify_loop].
  - split; [discriminate | intros st' H; discriminate].
  - pose proof (step_no_fault MMR_MERGE MMR_MERGE_PEAKS MMR_LEAF_READER
                  MMR_COMMAND_READER MMR_PROOF_READER mmr_size st Hwf) as Hnf.
    destruct (step2 mmr_size st) as [st1 | st1 | code | |] eqn:Hstep;
      try congruence.
    + apply IH. eapply step_stack_wf; [exact Hwf | exact Hstep].
    + split; [discriminate |]. intros st' H. inversion H; subst st'.
      apply step_Break_iff in Hstep as (pctx' & cmd & _ & ->). exact Hwf.
    + split; [discriminate | intros st' H; discriminate].
    + split; [discriminate | intros st' H; discriminate].
Qed.

Lemma finish_no_fault root root_length (st : state2) :
  stack_wf st ->
  mmr_verify_finish MMR_LEAF_READER root root_length st <> Faults.
Proof.
  intros [Hlen Htop]. unfold mmr_verify_finish.
  destruct (negb (stack_top st =? 1)); [discriminate |].
  destruct (MMR_LEAF_READER _ _ _) as [[[ret lctx] node] position].
  destruct (ret =? 0); [discriminate |].
  destruct (stack_get_defined (stack st) 0 Hlen) as [bottom Hb];
    [pose proof MMR_STACK_SIZE_range; lia |].
  rewrite Hb. repeat destruct (negb _); discriminate.
Qed.

(** X4.  Whatever the readers and the merges are, and whatever they
    return, [mmr_verify] reads and writes no slot outside
    [stack[0 .. MMR_STACK_SIZE - 1]], in the loop and in the checks
    after it. *)
Theorem mmr_verify_never_faults (fuel : nat) (root : list byte)
    (root_length mmr_size : Z) (pctx : PCtx) (lctx : LCtx) :
  mmr_verify MMR_MERGE MMR_MERGE_PEAKS MMR_LEAF_READER MMR_COMMAND_READER
    MMR_PROOF_READER fuel root root_length mmr_size pctx lctx <> Faults.
Proof.
  unfold mmr_verify.
  destruct (_mmr_left_peak_height_pos mmr_size) as [peak |]; [| discriminate].
  destruct (mmr_size =? 0); [discriminate |].
  destruct (loop_no_fault mmr_size fuel (initial_state peak pctx lctx)
              (initial_state_wf peak pctx lctx)) as [Hnf Hbreak].
  destruct (loop2 fuel mmr_size (initial_state peak pctx lctx))
    as [st1 | st1 | code | |]; try discriminate; try congruence.
  apply finish_no_fault. apply Hbreak. reflexivity.
Qed.

(** *** The order of the leaves *)

Lemma step_last_leaf mmr_size (st st' : state2) :
  step2 mmr_size st = Continue st' ->
  (command st' = 1 ->
   has_last_leaf st' = 1 /\ last_leaf_pos st' < mmr_size
   /\ (has_last_leaf st <> 0 -> last_leaf_pos st < last_leaf_pos st')
   /\ _mmr_pos_height_in_tree (last_leaf_pos st') = Some 0
   /\ exists entry, stack_get (stack st') (stack_top st) = Some entry
                    /\ sv_t entry = _MMR_STACK_NODE
                    /\ sv_position entry = last_leaf_pos st')
  /\ (command st' <> 1 ->
      has_last_leaf st' = has_last_leaf st
      /\ last_leaf_pos st' = last_leaf_pos st).
Proof.
  intros H. invert_step H; (split; [intros Hc | intros Hc]);
    try discriminate; try congruence; try (split; reflexivity).
  stack_facts.
  match goal with
  | Hh : _mmr_pos_height_in_tree ?p = Some ?h |- _ =>
      destruct (pos_height_in_tree_total p) as (h' & Hh' & Hr);
      assert (h = 0) as -> by (rewrite Hh in Hh'; inversion Hh'; lia)
  end.
  split; [reflexivity |]. split; [assumption |]. split; [| split].
  - intros Hhas.
    match goal with
    | Hb : negb (has_last_leaf st =? 0) && _ = false |- _ =>
        apply andb_false_iff in Hb as [Hnone | Hless]
    end.
    + apply negb_false_iff, Z.eqb_eq in Hnone. congruence.
    + rewrite Z.geb_leb in Hless. apply Z.leb_gt in Hless. lia.
  - assumption.
  - eexists. rewrite stack_get_insert_eq by assumption.
    repeat split.
Qed.

Lemma steps_last_leaf mmr_size : forall n (st st' : state2),
  steps2 n mmr_size st = Continue st' -> has_last_leaf st <> 0 ->
  has_last_leaf st' <> 0 /\ last_leaf_pos st <= last_leaf_pos st'.
Proof.
  induction n as [| n IH]; intros st st' H Hhas; cbn [run_steps] in H.
  - inversion H; subst. split; [exact Hhas | lia].
  - destruct (step2 mmr_size st) as [st1 | | | |] eqn:Hstep; try discriminate.
    destruct (step_last_leaf mmr_size st st1 Hstep) as [Hleaf Hother].
    destruct (Z.eq_dec (command st1) 1) as [Hc | Hc].
    + destruct (Hleaf Hc) as (Hhas1 & _ & Hlt & _).
      destruct (IH st1 st' H ltac:(lia)) as [Hhas' Hle].
      split; [exact Hhas' |]. specialize (Hlt Hhas). lia.
    + destruct (Hother Hc) as (Hhas1 & Hpos1).
      destruct (IH st1 st' H ltac:(congruence)) as [Hhas' Hle].
      split; [exact Hhas' | lia].
Qed.

(** X5.  Of two leaves that opcode 1 pushes in the course of a run, the
    later one has the greater position; both positions are below
    [mmr_size] and of height 0.  (The iteration from [st1] pushes the
    first leaf, [n] iterations later the one from [st3] pushes the
    second.) *)
Theorem pushed_leaves_increase (mmr_size : Z) (n : nat)
    (st1 st2 st3 st4 : state2) :
  step2 mmr_size st1 = Continue st2 -> command st2 = 1 ->
  steps2 n mmr_size st2 = Continue st3 ->
  step2 mmr_size st3 = Continue st4 -> command st4 = 1 ->
  exists first second,
    stack_get (stack st2) (stack_top st1) = Some first
    /\ stack_get (stack st4) (stack_top st3) = Some second
    /\ sv_t first = _MMR_STACK_NODE /\ sv_t second = _MMR_STACK_NODE
    /\ sv_position first < sv_position second < mmr_size
    /\ _mmr_pos_height_in_tree (sv_position first) = Some 0
    /\ _mmr_pos_height_in_tree (sv_position second) = Some 0.
Proof.
  intros H12 Hc2 H23 H34 Hc4.
  destruct (step_last_leaf mmr_size st1 st2 H12) as [Hleaf1 _].
  destruct (Hleaf1 Hc2) as (Hhas2 & _ & _ & Hh2 & e2 & Hget2 & Hk2 & Hp2).
  destruct (steps_last_leaf mmr_size n st2 st3 H23 ltac:(lia)) as [Hhas3 Hle].
  destruct (step_last_leaf mmr_size st3 st4 H34) as [Hleaf3 _].
  destruct (Hleaf3 Hc4) as (_ & Hlt4 & Hinc & Hh4 & e4 & Hget4 & Hk4 & Hp4).
  specialize (Hinc Hhas3).
  exists e2, e4. rewrite Hp2, Hp4.
  repeat split; try assumption; lia.
Qed.

End VerifierMore2.

(** ** The chain of the peaks *)

Lemma right_peak_absent_fix mmr_size peak :
  fst (_mmr_get_right_peak peak mmr_size) = 0 ->
  _mmr_get_right_peak (snd (_mmr_get_right_peak peak mmr_size)) mmr_size
  = _mmr_get_right_peak peak mmr_size.
Proof.
  unfold _mmr_get_right_peak.
  destruct (right_peak_loop _ _ _) as [[p' h'] |] eqn:Hloop;
    cbn [fst snd peak_pos peak_height]; [discriminate |].
  intros _. rewrite Hloop. reflexivity.
Qed.

Lemma peak_chain_peak_inv mmr_size peak :
  peak_chain_inv mmr_size peak -> peak_inv mmr_size peak.
Proof.
  intros [[Habsent _] | (_ & Hh & Hpos & Hfit & _)]; [left | right]; auto.
Qed.

Lemma left_peak_chain_inv mmr_size :
  0 < mmr_size <= 2 ^ 31 - 2 ->
  exists peak, _mmr_left_peak_height_pos mmr_size = Some peak
               /\ peak_chain_inv mmr_size peak.
Proof.
  intros Hsize.
  destruct (left_peak_total mmr_size ltac:(lia))
    as (h & Hh & Hle & Hgt & Hpeak).
  exists (mk_peak (2 ^ h - 2) (h - 1) 1). split; [exact Hpeak |].
  assert (h <= 30) as Hh30.
  { destruct (Z.le_gt_cases h 30) as [| Hbig]; [assumption |].
    pose proof (pow2_le 31 h ltac:(lia)). specialize (Hgt ltac:(lia)). lia. }
  pose proof (pow2_pos h ltac:(lia)) as Hp.
  pose proof (pow2_succ h ltac:(lia)) as Hs.
  assert (2 <= 2 ^ h).
  { pose proof (pow2_le 1 h ltac:(lia)). change (2 ^ 1) with 2 in *. lia. }
  right. cbn [peak_present peak_pos peak_height].
  replace (h - 1 + 1) with h by ring.
  split; [discriminate |]. split; [lia |]. split.
  { destruct (Z.eq_dec h 1) as [-> | Hne].
    - change (2 ^ 1) with 2. lia.
    - specialize (Hgt ltac:(lia)). lia. }
  split; [lia |]. split.
  { replace (2 ^ h - 2 + 1) with (2 ^ (h - 1 + 1) - 1)
      by (replace (h - 1 + 1) with h by ring; ring).
    apply tree_height_top. lia. }
  right. exists 0. split; [lia |]. split; [ring |].
  intros d h0 _ Hd. exact Hd.
Qed.

Lemma right_peak_chain_inv mmr_size peak :
  0 < mmr_size <= 2 ^ 31 - 2 -> peak_chain_inv mmr_size peak ->
  peak_chain_inv mmr_size (snd (_mmr_get_right_peak peak mmr_size)).
Proof.
  intros Hsize Hchain.
  pose proof (peak_chain_peak_inv _ _ Hchain) as Hinv.
  destruct Hchain as [[Habsent Hfix] | (Hpresent & Hh & Hpos & Hfit & Hth & Hbase)].
  { left. rewrite Hfix. split; assumption. }
  destruct (right_peak_decreases mmr_size peak Hsize Hinv Hpresent)
    as [Hinv' _].
  destruct (right_peak_facts mmr_size peak Hsize Hinv Hpresent)
    as [(Hret & Habs & _) | (_ & Hpres' & Hh' & Hpos' & Hlt & Hmore)].
  { left. split; [exact Habs |].
    rewrite (right_peak_absent_fix _ _ Hret). reflexivity. }
  set (peak' := snd (_mmr_get_right_peak peak mmr_size)) in *.
  destruct Hinv' as [Habs | (_ & _ & Hfit')]; [lia |].
  destruct Hbase as [Hlast | (base & Hbase0 & Hbase & Htrans)]; [lia |].
  pose proof (pow2_pos (peak_height peak + 1) ltac:(lia)) as Hp.
  pose proof (pow2_succ (peak_height peak + 1) ltac:(lia)) as Hs1.
  pose proof Hs1 as Hs.
  replace (peak_height peak + 1 + 1) with (peak_height peak + 2) in Hs by ring.
  pose proof (pow2_pos (peak_height peak' + 1) ltac:(lia)) as Hp'.
  pose proof (pow2_succ (peak_height peak' + 1) ltac:(lia)) as Hs'.
  replace (peak_height peak' + 1 + 1) with (peak_height peak' + 2) in Hs'
    by ring.
  pose proof (pow2_le (peak_height peak' + 1) (peak_height peak + 1)
                ltac:(lia)) as Hle.
  assert (2 <= 2 ^ (peak_height peak' + 1)) as Hp2.
  { pose proof (pow2_le 1 (peak_height peak' + 1) ltac:(lia)).
    change (2 ^ 1) with 2 in *. lia. }
  right. split; [lia |]. split; [lia |]. split; [lia |]. split; [lia |].
  split.
  - replace (peak_pos peak' + 1)
      with (base + (2 ^ (peak_height peak + 1)
                    + 2 ^ (peak_height peak' + 1) - 2)) by lia.
    apply Htrans; [lia |].
    apply (tree_height_jump (peak_height peak + 1)); [lia | lia |].
    replace (2 ^ (peak_height peak + 1) + 2 ^ (peak_height peak' + 1) - 2
             - 2 ^ (peak_height peak + 1) + 1)
      with (2 ^ (peak_height peak' + 1) - 1) by ring.
    apply tree_height_top. lia.
  - destruct (Z.eq_dec (peak_height peak') (peak_height peak)) as [Heq | Hne].
    + left. rewrite Heq in *. lia.
    + right. exists (peak_pos peak + 1). split; [lia |]. split; [lia |].
      pose proof (pow2_le (peak_height peak' + 2) (peak_height peak + 1)
                    ltac:(lia)) as Hle2.
      intros d h0 Hd Hth0.
      replace (peak_pos peak + 1 + d)
        with (base + (2 ^ (peak_height peak + 1) - 1 + d)) by lia.
      apply Htrans; [lia |].
      apply (tree_height_jump (peak_height peak + 1)); [lia | lia |].
      replace (2 ^ (peak_height peak + 1) - 1 + d
               - 2 ^ (peak_height peak + 1) + 1) with d by ring.
      exact Hth0.
Qed.

Lemma advance_peak_chain_inv mmr_size peak :
  0 < mmr_size <= 2 ^ 31 - 2 -> peak_chain_inv mmr_size peak ->
  forall k, peak_chain_inv mmr_size (advance_peak mmr_size k peak).
Proof.
  intros Hsize Hchain. induction k as [| k IH]; [exact Hchain |].
  change (advance_peak mmr_size (S k) peak)
    with (snd (_mmr_get_right_peak (advance_peak mmr_size k peak) mmr_size)).
  apply right_peak_chain_inv; assumption.
Qed.

Lemma advance_peak_add mmr_size a b peak :
  advance_peak mmr_size (a + b) peak
  = advance_peak mmr_size b (advance_peak mmr_size a peak).
Proof.
  unfold advance_peak. rewrite Nat.add_comm. apply Nat.iter_add.
Qed.

(** One more call of [_mmr_get_right_peak] on the chain. *)
Lemma advance_peak_next mmr_size peak k :
  0 < mmr_size <= 2 ^ 31 - 2 -> peak_chain_inv mmr_size peak ->
  let this := advance_peak mmr_size k peak in
  let next := advance_peak mmr_size (S k) peak in
  peak_present next <> 0 ->
  peak_present this <> 0
  /\ peak_pos this < peak_pos next
  /\ peak_height next <= peak_height this
  /\ (peak_measure mmr_size next < peak_measure mmr_size this)%nat.
Proof.
  intros Hsize Hchain this next Hnext.
  pose proof (advance_peak_chain_inv mmr_size peak Hsize Hchain k) as Hk.
  fold this in Hk.
  change next with (snd (_mmr_get_right_peak this mmr_size)) in *.
  destruct Hk as [[Habsent Hfix] | (Hpresent & Hrest)].
  { rewrite Hfix in Hnext. congruence. }
  assert (peak_inv mmr_size this) as Hinv by (right; tauto).
  destruct (right_peak_decreases mmr_size this Hsize Hinv Hpresent)
    as [_ Hdec].
  destruct (right_peak_facts mmr_size this Hsize Hinv Hpresent)
    as [(_ & Habs & _) | (_ & _ & Hh' & _ & Hlt & _)]; [congruence |].
  repeat split; [exact Hpresent | lia | lia | exact Hdec].
Qed.

Lemma advance_peak_earlier mmr_size peak :
  0 < mmr_size <= 2 ^ 31 - 2 -> peak_chain_inv mmr_size peak ->
  forall d j,
    let this := advance_peak mmr_size j peak in
    let later := advance_peak mmr_size (S d + j) peak in
    peak_present later <> 0 ->
    peak_present this <> 0
    /\ peak_pos this < peak_pos later
    /\ peak_height later <= peak_height this
    /\ (peak_measure mmr_size later + S d
        <= peak_measure mmr_size this)%nat.
Proof.
  intros Hsize Hchain. induction d as [| d IH]; intros j this later Hlater.
  - destruct (advance_peak_next mmr_size peak j Hsize Hchain Hlater)
      as (H1 & H2 & H3 & H4).
    fold this in H1, H2, H3, H4. change (advance_peak mmr_size (S j) peak)
      with later in H2, H3, H4. repeat split; try assumption; lia.
  - destruct (advance_peak_next mmr_size peak (S d + j) Hsize Hchain Hlater)
      as (H1 & H2 & H3 & H4).
    destruct (IH j H1) as (G1 & G2 & G3 & G4).
    fold this in G1, G2, G3, G4.
    change (advance_peak mmr_size (S (S d + j)) peak) with later in *.
    repeat split; try assumption; lia.
Qed.

(** X7.  The calls of [_mmr_get_right_peak] from the left peak of an MMR
    of at most [2^31 - 2] nodes: every peak they give lies below
    [mmr_size] at a position of the height it records, to the right
    of the ones before it and no higher, and the 31st call at the latest
    gives none. *)
Theorem peak_chain (mmr_size : Z) :
  0 < mmr_size <= 2 ^ 31 - 2 ->
  exists left_peak,
    _mmr_left_peak_height_pos mmr_size = Some left_peak
    /\ forall k,
         let peak := advance_peak mmr_size k left_peak in
         (peak_present peak <> 0 ->
          0 <= peak_pos peak < mmr_size
          /\ _mmr_pos_height_in_tree (peak_pos peak) = Some (peak_height peak)
          /\ forall j, (j < k)%nat ->
               let before := advance_peak mmr_size j left_peak in
               peak_present before <> 0
               /\ peak_pos before < peak_pos peak
               /\ peak_height peak <= peak_height before)
         /\ ((31 <= k)%nat -> peak_present peak = 0).
Proof.
  intros Hsize.
  destruct (left_peak_chain_inv mmr_size Hsize) as (left_peak & Hleft & Hchain).
  exists left_peak. split; [exact Hleft |]. intros k peak.
  pose proof (advance_peak_chain_inv mmr_size left_peak Hsize Hchain k) as Hk.
  fold peak in Hk.
  assert (forall j, (j < k)%nat -> peak_present peak <> 0 ->
            let before := advance_peak mmr_size j left_peak in
            peak_present before <> 0
            /\ peak_pos before < peak_pos peak
            /\ peak_height peak <= peak_height before
            /\ (peak_measure mmr_size peak + (k - j)
                <= peak_measure mmr_size before)%nat) as Hearlier.
  { intros j Hj Hpresent before.
    pose proof (advance_peak_earlier mmr_size left_peak Hsize Hchain
                  (k - j - 1) j) as H.
    replace (S (k - j - 1) + j)%nat with k in H by lia.
    specialize (H Hpresent). fold peak before in H.
    replace (S (k - j - 1)) with (k - j)%nat in H by lia. exact H. }
  split.
  - intros Hpresent.
    destruct Hk as [[Habsent _] | (_ & Hh & Hpos & _ & Hth & _)];
      [congruence |].
    split; [exact Hpos |]. split.
    + apply pos_height_in_tree_tree_height; [lia | exact Hth].
    + intros j Hj before.
      destruct (Hearlier j Hj Hpresent) as (H1 & H2 & H3 & _).
      repeat split; assumption.
  - intros Hk31.
    destruct (Z.eq_dec (peak_present peak) 0) as [| Hpresent]; [assumption |].
    exfalso.
    destruct (Hearlier O ltac:(lia) Hpresent) as (_ & _ & _ & Hm).
    change (advance_peak mmr_size 0 left_peak) with left_peak in Hm.
    pose proof (peak_measure_bound mmr_size left_peak
                  (peak_chain_peak_inv _ _ Hchain)) as Hb.
    assert (0 < peak_measure mmr_size peak)%nat.
    { unfold peak_measure.
      destruct (Z.eqb_spec (peak_present peak) 0); [congruence |].
      destruct (mmr_size =? peak_pos peak + 1); lia. }
    lia.
Qed.

Lemma peak_chain_witness :
  exists left_peak,
    _mmr_left_peak_height_pos 4 = Some left_peak
    /\ peak_pos (advance_peak 4 1 left_peak) = 3
    /\ _mmr_pos_height_in_tree 3 = Some 0
    /\ peak_present (advance_peak 4 2 left_peak) = 0.
Proof.
  destruct (peak_chain 4 ltac:(lia)) as (left_peak & Hleft & Hchain).
  exists left_peak. split; [exact Hleft |].
  assert (left_peak = mk_peak 2 1 1) as ->
    by (vm_compute in Hleft; congruence).
  destruct (Hchain 1%nat) as [Hpeak _].
  destruct (Hpeak ltac:(vm_compute; discriminate)) as (_ & Hheight & _).
  split; [reflexivity |]. split; [exact Hheight | reflexivity].
Defined.

Section VerifierMore3.

Context {PCtx LCtx : Type}.
Variable MMR_MERGE : mmr_node_t -> mmr_node_t -> mmr_node_t -> Z * mmr_node_t.
Variable MMR_MERGE_PEAKS :
  mmr_node_t -> mmr_node_t -> mmr_node_t -> Z * mmr_node_t.
Variable MMR_LEAF_READER : LCtx -> mmr_node_t -> Z -> Z * LCtx * mmr_node_t * Z.
Variable MMR_COMMAND_READER : PCtx -> Z -> Z * PCtx * Z.
Variable MMR_PROOF_READER : PCtx -> mmr_node_t -> Z * PCtx * mmr_node_t.

Abbreviation state3 := (verify_state PCtx LCtx).
Abbreviation step3 :=
  (mmr_verify_step MMR_MERGE MMR_MERGE_PEAKS MMR_LEAF_READER
     MMR_COMMAND_READER MMR_PROOF_READER).
Abbreviation steps3 :=
  (run_steps MMR_MERGE MMR_MERGE_PEAKS MMR_LEAF_READER
     MMR_COMMAND_READER MMR_PROOF_READER).
Abbreviation reachable3 :=
  (reachable MMR_MERGE MMR_MERGE_PEAKS MMR_LEAF_READER
     MMR_COMMAND_READER MMR_PROOF_READER).

(** *** The peaks that opcode 5 marks *)

Lemma steps_add mmr_size : forall a b (st st' : state3),
  steps3 a mmr_size st = Continue st' ->
  steps3 (a + b) mmr_size st = steps3 b mmr_size st'.
Proof.
  induction a as [| a IH]; intros b st st' H; cbn [run_steps Nat.add] in *.
  - inversion H. reflexivity.
  - destruct (step3 mmr_size st) as [st1 | | | |]; try discriminate.
    apply IH. exact H.
Qed.

Lemma reachable_steps mmr_size pctx lctx n (st st' : state3) :
  reachable3 mmr_size pctx lctx st ->
  steps3 n mmr_size st = Continue st' ->
  reachable3 mmr_size pctx lctx st'.
Proof.
  intros (peak & m & Hpeak & Hsize & Hrun) Hsteps.
  exists peak, (m + n)%nat. split; [exact Hpeak |]. split; [exact Hsize |].
  rewrite (steps_add mmr_size m n _ _ Hrun). exact Hsteps.
Qed.

Lemma step_cursor mmr_size (st st' : state3) :
  is_u32 (stack_top st) ->
  step3 mmr_size st = Continue st' ->
  (exists k, next_peak_info st'
             = advance_peak mmr_size k (next_peak_info st))
  /\ (command st' = 5 ->
      forall top,
        stack_get (stack st) (stack_top st - 1) = Some top ->
        sv_t top <> _MMR_STACK_PROOF ->
        exists k,
          peak_present (advance_peak mmr_size k (next_peak_info st)) <> 0
          /\ peak_pos (advance_peak mmr_size k (next_peak_info st))
             = sv_position top
          /\ next_peak_info st'
             = advance_peak mmr_size (S k) (next_peak_info st)).
Proof.
  intros Hu32 H. unfold is_u32 in Hu32.
  invert_step H;
    try (split; [exists O; reflexivity | intros Hc; discriminate]).
  - (* a node under the cursor *)
    rewrite (u32_small (stack_top st - 1)) in * by lia.
    match goal with
    | Hseek : peak_seek_loop _ _ _ _ = Some ?p |- _ =>
        destruct (peak_seek_loop_found _ _ _ _ _ Hseek)
          as (k & _ & Hk & Hfound & _)
    end.
    split.
    + exists (S k). subst. reflexivity.
    + intros _ top Hget Hkind.
      match goal with
      | Hg : stack_get (stack st) (stack_top st - 1) = Some ?m |- _ =>
          assert (m = top) as -> by congruence
      end.
      exists k. rewrite <- Hk.
      destruct Hfound as [Habsent | Hpos]; [congruence |].
      split; [congruence |]. split; [exact Hpos | rewrite Hk; reflexivity].
  - (* an entry of the proof *)
    rewrite (u32_small (stack_top st - 1)) in * by lia.
    split; [exists O; reflexivity |].
    intros _ top Hget Hkind.
    match goal with
    | Hg : stack_get (stack st) (stack_top st - 1) = Some ?m |- _ =>
        assert (m = top) as -> by congruence
    end.
    congruence.
Qed.

Lemma steps_cursor mmr_size : forall n (st st' : state3),
  stack_wf st -> steps3 n mmr_size st = Continue st' ->
  exists k, next_peak_info st' = advance_peak mmr_size k (next_peak_info st).
Proof.
  induction n as [| n IH]; intros st st' Hwf H; cbn [run_steps] in H.
  - inversion H; subst. exists O. reflexivity.
  - destruct (step3 mmr_size st) as [st1 | | | |] eqn:Hstep; try discriminate.
    assert (is_u32 (stack_top st)) as Hu32.
    { destruct Hwf as [_ Htop]. pose proof MMR_STACK_SIZE_range.
      unfold is_u32. lia. }
    destruct (step_cursor mmr_size st st1 Hu32 Hstep) as [[k1 Hk1] _].
    destruct (IH st1 st' ltac:(eapply step_stack_wf; eassumption) H)
      as [k2 Hk2].
    exists (k1 + k2)%nat. rewrite advance_peak_add, <- Hk1. exact Hk2.
Qed.

Lemma reachable_cursor mmr_size pctx lctx (st : state3) :
  reachable3 mmr_size pctx lctx st ->
  exists left_peak k,
    _mmr_left_peak_height_pos mmr_size = Some left_peak
    /\ next_peak_info st = advance_peak mmr_size k left_peak.
Proof.
  intros (peak & n & Hpeak & _ & Hrun).
  destruct (steps_cursor mmr_size n _ _ (initial_state_wf peak pctx lctx) Hrun)
    as [k Hk].
  exists peak, k. split; [exact Hpeak | exact Hk].
Qed.

(** X8.  Opcode 5 marks peaks from left to right: of two entries other
    than proof items that it marks in the course of a run on an MMR of
    at most [2^31 - 2] nodes, the later one lies to the right of the
    earlier one, both below [mmr_size], at positions whose heights in
    the tree do not increase. *)
Theorem marked_peaks_increase (mmr_size : Z) (pctx : PCtx) (lctx : LCtx)
    (n : nat) (st1 st2 st3 st4 : state3) (top1 top3 : _mmr_stack_value_t) :
  0 < mmr_size <= 2 ^ 31 - 2 ->
  reachable3 mmr_size pctx lctx st1 ->
  step3 mmr_size st1 = Continue st2 -> command st2 = 5 ->
  stack_get (stack st1) (stack_top st1 - 1) = Some top1 ->
  sv_t top1 <> _MMR_STACK_PROOF ->
  steps3 n mmr_size st2 = Continue st3 ->
  step3 mmr_size st3 = Continue st4 -> command st4 = 5 ->
  stack_get (stack st3) (stack_top st3 - 1) = Some top3 ->
  sv_t top3 <> _MMR_STACK_PROOF ->
  0 <= sv_position top1 < sv_position top3
  /\ sv_position top3 < mmr_size
  /\ exists h1 h3,
       _mmr_pos_height_in_tree (sv_position top1) = Some h1
       /\ _mmr_pos_height_in_tree (sv_position top3) = Some h3
       /\ h3 <= h1.
Proof.
  intros Hsize Hreach1 H12 Hc2 Hget1 Hkind1 H23 H34 Hc4 Hget3 Hkind3.
  assert (forall st : state3, stack_wf st -> is_u32 (stack_top st)) as Hu32.
  { intros st [_ Htop]. pose proof MMR_STACK_SIZE_range. unfold is_u32. lia. }
  pose proof (reachable_stack_wf _ _ _ _ _ _ _ _ _ Hreach1) as Hwf1.
  pose proof (step_stack_wf _ _ _ _ _ _ _ _ Hwf1 H12) as Hwf2.
  pose proof (steps_stack_wf _ _ _ _ _ _ _ _ _ Hwf2 H23) as Hwf3.
  destruct (reachable_cursor _ _ _ _ Hreach1) as (left_peak & k1 & Hleft & Hk1).
  destruct (left_peak_chain_inv mmr_size Hsize) as (left' & Hleft' & Hchain).
  assert (left' = left_peak) as -> by congruence.
  destruct (step_cursor mmr_size st1 st2 (Hu32 _ Hwf1) H12) as [_ Hmark1].
  destruct (Hmark1 Hc2 top1 Hget1 Hkind1) as (ka & Hpa & Hposa & Hnext2).
  destruct (steps_cursor mmr_size n st2 st3 Hwf2 H23) as [kn Hkn].
  destruct (step_cursor mmr_size st3 st4 (Hu32 _ Hwf3) H34) as [_ Hmark3].
  destruct (Hmark3 Hc4 top3 Hget3 Hkind3) as (kb & Hpb & Hposb & _).
  rewrite Hk1, <- advance_peak_add in Hpa, Hposa, Hnext2.
  rewrite Hkn, Hnext2, <- !advance_peak_add in Hpb, Hposb.
  replace (k1 + S ka + (kn + kb))%nat with (S (kn + kb) + (k1 + ka))%nat
    in Hpb, Hposb by lia.
  destruct (advance_peak_earlier mmr_size left_peak Hsize Hchain (kn + kb)
              (k1 + ka) Hpb) as (_ & Hlt & Hle & _).
  pose proof (advance_peak_chain_inv mmr_size left_peak Hsize Hchain
                (k1 + ka)) as Hinva.
  pose proof (advance_peak_chain_inv mmr_size left_peak Hsize Hchain
                (S (kn + kb) + (k1 + ka))) as Hinvb.
  destruct Hinva as [[Habs _] | (_ & _ & Hrangea & _ & Htha & _)];
    [congruence |].
  destruct Hinvb as [[Habs _] | (_ & _ & Hrangeb & _ & Hthb & _)];
    [congruence |].
  rewrite Hposa in *. rewrite Hposb in *.
  split; [lia |]. split; [lia |].
  eexists _, _. split; [| split; [| exact Hle]].
  - apply pos_height_in_tree_tree_height; [lia | exact Htha].
  - apply pos_height_in_tree_tree_height; [lia | exact Hthb].
Qed.

End VerifierMore3.
(** ** More on the default readers *)

Lemma default_read_node_spec (c : mmr_default_buffer_reader_t)
    (out : mmr_node_t) :
  0 <= index c <= buffer_length c -> buffer_length c < 2 ^ 32 ->
  let remaining := buffer_length c - index c in
  let len := load16 (buffer c) (index c) in
  let r := _mmr_default_buffer_read_node c out in
  (remaining < 2 \/ remaining - 2 < len -> r = (ERROR_NODE_EOF, c, out))
  /\ (2 <= remaining -> len <= remaining - 2 ->
      r = (0,
           mk_reader (buffer c) (buffer_length c) (index c + 2 + len),
           mk_node MMR_NODE_TYPE_POINTER
             (drop (Z.to_nat (index c + 2)) (buffer c)) len)).
Proof.
  intros Hidx Hlen remaining len r. subst remaining len r.
  pose proof (load16_range (buffer c) (index c)) as Hl.
  unfold _mmr_default_buffer_read_node.
  rewrite (u32_small (buffer_length c - index c)) by lia.
  destruct (Z.ltb_spec (buffer_length c - index c) 2) as [Hshort | Hlong].
  - split; [reflexivity | lia].
  - rewrite (u32_small (buffer_length c - index c - 2)) by lia.
    destruct (Z.ltb_spec (buffer_length c - index c - 2)
                (load16 (buffer c) (index c))) as [Hcut | Hfit].
    + split; [reflexivity | lia].
    + split; [lia |]. intros _ _.
      rewrite (u32_small (index c + 2)) by lia.
      rewrite (u32_small (index c + (2 + load16 (buffer c) (index c))))
        by lia.
      rewrite Z.add_assoc. reflexivity.
Qed.

Lemma default_command_read_spec (c : mmr_default_buffer_reader_t)
    (out_command : Z) :
  0 <= index c -> buffer_length c < 2 ^ 32 ->
  let r := _mmr_default_command_read c out_command in
  (buffer_length c <= index c -> r = (ERROR_NO_MORE_COMMANDS, c, out_command))
  /\ (index c < buffer_length c ->
      r = (0, mk_reader (buffer c) (buffer_length c) (index c + 1),
           byte_at (buffer c) (index c))).
Proof.
  intros Hidx Hlen r. subst r. unfold _mmr_default_command_read.
  rewrite Z.geb_leb.
  destruct (Z.leb_spec (buffer_length c) (index c)) as [Hend | Hmore].
  - split; [reflexivity | lia].
  - split; [lia |]. intros _. rewrite (u32_small (index c + 1)) by lia.
    reflexivity.
Qed.

(** X9.  [_mmr_default_buffer_read_node] on a reader whose cursor lies
    within its buffer: with fewer than two bytes left, or fewer after
    them than the length they give, it returns [ERROR_NODE_EOF] and
    changes nothing; else it returns 0 with a node that points at the
    bytes after the length field, of that length, and the cursor behind
    them. *)
Theorem default_buffer_read_node_cases (c : mmr_default_buffer_reader_t)
    (out : mmr_node_t) :
  0 <= index c <= buffer_length c -> buffer_length c < 2 ^ 32 ->
  let remaining := buffer_length c - index c in
  let len := load16 (buffer c) (index c) in
  let r := _mmr_default_buffer_read_node c out in
  (remaining < 2 \/ remaining - 2 < len -> r = (ERROR_NODE_EOF, c, out))
  /\ (2 <= remaining -> len <= remaining - 2 ->
      r = (0,
           mk_reader (buffer c) (buffer_length c) (index c + 2 + len),
           mk_node MMR_NODE_TYPE_POINTER
             (drop (Z.to_nat (index c + 2)) (buffer c)) len)).
Proof.
  exact (default_read_node_spec c out).
Qed.

Lemma default_buffer_read_node_cases_witness :
  _mmr_default_buffer_read_node (mk_reader example_node_record 34 0)
    uninit_node
  = (0, mk_reader example_node_record 34 34,
     mk_node MMR_NODE_TYPE_POINTER example_node 32).
Proof.
  destruct (default_buffer_read_node_cases
              (mk_reader example_node_record 34 0) uninit_node)
    as [_ Hwhole].
  - cbn [index buffer_length]. lia.
  - cbn [buffer_length]. lia.
  - apply Hwhole.
    + cbn [index buffer_length]. lia.
    + vm_compute. discriminate.
Defined.

(** X10.  None of the three default readers moves its cursor backwards
    or past the end of its buffer, or changes the buffer; the command
    reader moves it by one byte when it returns 0 and not at all
    otherwise. *)
Theorem default_readers_cursor (c : mmr_default_buffer_reader_t) :
  reader_wf c ->
  let stays c' :=
    buffer c' = buffer c /\ buffer_length c' = buffer_length c
    /\ index c <= index c' <= buffer_length c in
  (forall out_command ret c' command,
     _mmr_default_command_read c out_command = (ret, c', command) ->
     stays c' /\ (ret = 0 -> index c' = index c + 1)
     /\ (ret <> 0 -> c' = c /\ command = out_command))
  /\ (forall out ret c' node,
        _mmr_default_buffer_read_node c out = (ret, c', node) ->
        stays c' /\ (ret = 0 -> index c' = index c + 2 + node_length node)
        /\ (ret <> 0 -> c' = c /\ node = out))
  /\ (forall out_node out_position ret c' node position,
        _mmr_default_leaf_iter_read c out_node out_position
        = (ret, c', node, position) ->
        stays c'
        /\ (ret = 0 -> index c' = index c + 10 + node_length node)
        /\ (ret <> 0 -> node = out_node /\ position = out_position)).
Proof.
  intros [Hidx Hlen] stays. subst stays. cbv beta.
  pose proof (load16_range (buffer c) (index c)) as Hl.
  pose proof (load16_range (buffer c) (index c + 8)) as Hl8.
  split; [| split].
  - intros out_command ret c' command H.
    destruct (default_command_read_spec c out_command ltac:(lia) Hlen)
      as [Hend Hmore].
    destruct (Z_le_gt_dec (buffer_length c) (index c)) as [Hle | Hgt].
    + rewrite (Hend Hle) in H. inversion H; subst.
      unfold ERROR_NO_MORE_COMMANDS.
      repeat split; try reflexivity; try lia.
    + rewrite (Hmore ltac:(lia)) in H. inversion H; subst.
      cbn [buffer buffer_length index].
      repeat split; try reflexivity; try lia.
  - intros out ret c' node H.
    destruct (default_read_node_spec c out Hidx Hlen) as [Hcut Hwhole].
    destruct (Z_lt_le_dec (buffer_length c - index c) 2) as [Hshort | Hlong];
      [| destruct (Z_lt_le_dec (buffer_length c - index c - 2)
                     (load16 (buffer c) (index c))) as [Hbig | Hfit]].
    + rewrite (Hcut ltac:(lia)) in H. inversion H; subst.
      unfold ERROR_NODE_EOF. repeat split; try reflexivity; try lia.
    + rewrite (Hcut ltac:(lia)) in H. inversion H; subst.
      unfold ERROR_NODE_EOF. repeat split; try reflexivity; try lia.
    + rewrite (Hwhole Hlong Hfit) in H. inversion H; subst.
      cbn [buffer buffer_length index node_length].
      repeat split; try reflexivity; try lia.
  - intros out_node out_position ret c' node position H.
    destruct (default_leaf_iter_read_spec c out_node out_position Hidx Hlen)
      as (Hnone & Hshort & Hcut & Hwhole).
    destruct (Z.eq_dec (buffer_length c - index c) 0) as [H0 | H0].
    { rewrite (Hnone H0) in H. inversion H; subst.
      unfold ERROR_NO_MORE_LEAFS. repeat split; try reflexivity; try lia. }
    destruct (Z_lt_le_dec (buffer_length c - index c) 8) as [H8 | H8].
    { rewrite (Hshort ltac:(lia)) in H. inversion H; subst.
      unfold ERROR_LEAF_EOF. repeat split; try reflexivity; try lia. }
    destruct (Z_lt_le_dec (buffer_length c - index c) 10) as [H10 | H10].
    { rewrite (Hcut H8 ltac:(lia)) in H. inversion H; subst.
      unfold ERROR_NODE_EOF. cbn [buffer buffer_length index].
      repeat split; try reflexivity; try lia. }
    destruct (Z_lt_le_dec (buffer_length c - index c - 10)
                (load16 (buffer c) (index c + 8))) as [Hlong | Hfit].
    { rewrite (Hcut H8 ltac:(lia)) in H. inversion H; subst.
      unfold ERROR_NODE_EOF. cbn [buffer buffer_length index].
      repeat split; try reflexivity; try lia. }
    rewrite (Hwhole H10 Hfit) in H. inversion H; subst.
    cbn [buffer buffer_length index node_length].
    repeat split; try reflexivity; try lia.
Qed.

Lemma default_readers_cursor_witness :
  index (snd (fst (_mmr_default_command_read (mk_reader [x05] 1 0) 255)))
  = 1.
Proof.
  destruct (default_readers_cursor (mk_reader [x05] 1 0)) as [Hcommand _].
  - unfold reader_wf. cbn [index buffer_length]. lia.
  - destruct (_mmr_default_command_read (mk_reader [x05] 1 0) 255)
      as [[ret c'] command] eqn:Hread.
    destruct (Hcommand 255 ret c' command Hread) as (_ & Hmoved & _).
    cbn [fst snd]. rewrite Hmoved; [reflexivity |].
    vm_compute in Hread. congruence.
Defined.

(** ** One call of [_mmr_get_right_peak] *)

(** X6.  [_mmr_get_right_peak] on a peak at a height of at most 29 of an
    MMR of at most [2^31 - 2] nodes, when what lies to its right fits a
    tree of that height: if the peak is the last node, the call returns
    0 and only clears [present]; else it returns 1 and moves the cursor
    to a position further right, below [mmr_size], the top of a tree no
    higher that starts right after the peak. *)
Theorem right_peak_cases (mmr_size : Z) (peak : _mmr_peak_t) :
  0 < mmr_size <= 2 ^ 31 - 2 ->
  0 <= peak_height peak <= 29 ->
  0 <= peak_pos peak < mmr_size ->
  mmr_size <= peak_pos peak + 2 ^ (peak_height peak + 1) ->
  let r := _mmr_get_right_peak peak mmr_size in
  (mmr_size = peak_pos peak + 1 ->
   r = (0, mk_peak (peak_pos peak) (peak_height peak) 0))
  /\ (peak_pos peak + 1 < mmr_size ->
      fst r = 1 /\ peak_present (snd r) = 1
      /\ 0 <= peak_height (snd r) <= peak_height peak
      /\ peak_pos (snd r)
         = peak_pos peak + 2 ^ (peak_height (snd r) + 1) - 1
      /\ peak_pos (snd r) < mmr_size
      /\ mmr_size <= peak_pos (snd r) + 2 ^ (peak_height (snd r) + 1)).
Proof.
  intros Hsize Hh Hpos Hfit r.
  assert (peak_inv mmr_size (mk_peak (peak_pos peak) (peak_height peak) 1))
    as Hinv by (right; cbn [peak_pos peak_height]; auto).
  assert (_mmr_get_right_peak peak mmr_size
          = _mmr_get_right_peak
              (mk_peak (peak_pos peak) (peak_height peak) 1) mmr_size)
    as Hsame by reflexivity.
  pose proof (right_peak_facts mmr_size _ Hsize Hinv ltac:(discriminate))
    as Hfacts.
  pose proof (right_peak_decreases mmr_size _ Hsize Hinv ltac:(discriminate))
    as [Hinv' _].
  rewrite <- Hsame in Hfacts, Hinv'. fold r in Hfacts, Hinv'.
  cbn [peak_pos peak_height] in Hfacts.
  destruct Hfacts as [(Hret & Habs & Hp & Hh' & Hlast)
                     | (Hret & Hpres & Hh' & Hp & Hlt & Hmore)].
  - split; [| lia]. intros _.
    destruct r as [ret [p h present]]. cbn in *. subst. reflexivity.
  - split; [lia |]. intros _.
    destruct Hinv' as [Habs | (_ & _ & Hfit')]; [lia |].
    repeat split; try assumption; lia.
Qed.

Lemma right_peak_cases_witness :
  _mmr_get_right_peak (mk_peak 0 0 1) 1 = (0, mk_peak 0 0 0).
Proof.
  destruct (right_peak_cases 1 (mk_peak 0 0 1)) as [Hlast _].
  - lia.
  - cbn [peak_height]. lia.
  - cbn [peak_pos]. lia.
  - cbn. lia.
  - apply Hlast. reflexivity.
Defined.

(** ** Runs of the harness *)

Section DefaultRuns.

Variable MMR_MERGE : mmr_node_t -> mmr_node_t -> mmr_node_t -> Z * mmr_node_t.
Variable MMR_MERGE_PEAKS :
  mmr_node_t -> mmr_node_t -> mmr_node_t -> Z * mmr_node_t.

Abbreviation rstate :=
  (verify_state mmr_default_buffer_reader_t mmr_default_buffer_reader_t).
Abbreviation rstep :=
  (mmr_verify_step MMR_MERGE MMR_MERGE_PEAKS _mmr_default_leaf_iter_read
     _mmr_default_command_read _mmr_default_buffer_read_node).
Abbreviation rsteps :=
  (run_steps MMR_MERGE MMR_MERGE_PEAKS _mmr_default_leaf_iter_read
     _mmr_default_command_read _mmr_default_buffer_read_node).

Lemma rstep_consumes mmr_size (st st' : rstate) :
  reader_wf (proof_reader_context st) ->
  rstep mmr_size st = Continue st' ->
  reader_wf (proof_reader_context st')
  /\ buffer (proof_reader_context st') = buffer (proof_reader_context st)
  /\ buffer_length (proof_reader_context st')
     = buffer_length (proof_reader_context st)
  /\ index (proof_reader_context st) < index (proof_reader_context st')
  /\ command st'
     = byte_at (buffer (proof_reader_context st))
         (index (proof_reader_context st)).
Proof.
  intros Hp H. invert_step H; subst.
  all: match goal with
       | Hc : _mmr_default_command_read _ _ = (0, _, _) |- _ =>
           destruct (default_command_read_inv _ _ _ _ _ Hp Hc)
             as [(Hno & _) | (_ & Hlt & Hc' & Hcmd)];
           [ discriminate |];
           destruct (default_command_read_wf _ _ _ _ Hp Hc)
             as (Hp' & Hlen' & Hidx')
       end.
  all: try match goal with
       | Hn : _mmr_default_buffer_read_node _ _ = (0, _, _) |- _ =>
           destruct (default_read_node_inv _ _ _ _ _ Hp' Hn)
             as [(Hno & _) | (_ & _ & Hc'' & _)]; [discriminate |];
           destruct (default_read_node_wf _ _ _ _ _ Hp' Hn)
             as (Hp'' & Hlen'' & Hidx'' & _);
           specialize (Hidx'' eq_refl)
       end.
  all: subst; cbn [buffer buffer_length index] in *.
  all: split; [assumption |].
  all: repeat split; try assumption; try reflexivity; try lia.
Qed.

(** X11.  With the default readers every iteration that does not leave
    the loop takes its command from the byte under the cursor of the
    proof and moves the cursor on by at least that byte, never past the
    end of the proof: after [n] iterations at least [n] bytes are
    consumed, so that the loop runs at most [proof_length] times. *)
Theorem default_steps_consume_proof (mmr_size : Z) (n : nat)
    (st st' : rstate) :
  reader_wf (proof_reader_context st) ->
  rsteps n mmr_size st = Continue st' ->
  buffer (proof_reader_context st') = buffer (proof_reader_context st)
  /\ buffer_length (proof_reader_context st')
     = buffer_length (proof_reader_context st)
  /\ index (proof_reader_context st) + Z.of_nat n
     <= index (proof_reader_context st')
     <= buffer_length (proof_reader_context st).
Proof.
  revert st. induction n as [| n IH]; intros st Hp H; cbn [run_steps] in H.
  - inversion H; subst. destruct Hp as [Hidx _].
    repeat split; try reflexivity; lia.
  - destruct (rstep mmr_size st) as [st1 | | | |] eqn:Hstep; try discriminate.
    destruct (rstep_consumes mmr_size st st1 Hp Hstep)
      as (Hp1 & Hbuf & Hlen & Hidx & _).
    destruct (IH st1 Hp1 H) as (Hbuf' & Hlen' & Hidx').
    repeat split; try congruence; lia.
Qed.

End DefaultRuns.

Lemma default_steps_consume_proof_witness :
  0 + Z.of_nat 4 <= index (proof_reader_context (example_run_state 4)) <= 40.
Proof.
  destruct (default_steps_consume_proof mmr_blake2b_merge mmr_blake2b_merge 4
              4 example_run_start (example_run_state 4))
    as (_ & _ & Hidx).
  - unfold reader_wf. cbn. lia.
  - vm_compute. reflexivity.
  - exact Hidx.
Defined.

(** X12.  Degenerate inputs are rejected with [ERROR_INVALID_PROOF],
    whatever the root and the leaves: an MMR of size 0, with any proof,
    and an empty proof, for any size of the MMR. *)
Theorem degenerate_inputs_rejected (root : list byte) (root_length : Z)
    (proof leaves : list byte) (leaves_length : Z) :
  (forall proof_length,
     run_mmr_verify root root_length 0 proof proof_length leaves
       leaves_length = Returns ERROR_INVALID_PROOF)
  /\ (forall mmr_size,
        0 <= mmr_size <= 2 ^ 63 - 2 ->
        run_mmr_verify root root_length mmr_size proof 0 leaves
          leaves_length = Returns ERROR_INVALID_PROOF).
Proof.
  split.
  - intros proof_length. reflexivity.
  - intros mmr_size Hsize. unfold run_mmr_verify, mmr_verify.
    destruct (left_peak_total mmr_size ltac:(lia)) as (h & _ & _ & _ & Hpeak).
    rewrite Hpeak. destruct (mmr_size =? 0); reflexivity.
Qed.

Lemma degenerate_inputs_rejected_witness :
  run_mmr_verify example_node 32 1 [] 0 (example_leaf_record x00) 42
  = Returns ERROR_INVALID_PROOF.
Proof.
  destruct (degenerate_inputs_rejected example_node 32 []
              (example_leaf_record x00) 42) as [_ Hempty].
  apply Hempty. lia.
Defined.

(** An iteration on opcode 2 that pushes a node. *)
Lemma step_opcode_2 {PCtx LCtx : Type}
    (MMR_MERGE MMR_MERGE_PEAKS :
       mmr_node_t -> mmr_node_t -> mmr_node_t -> Z * mmr_node_t)
    (MMR_LEAF_READER : LCtx -> mmr_node_t -> Z -> Z * LCtx * mmr_node_t * Z)
    (MMR_COMMAND_READER : PCtx -> Z -> Z * PCtx * Z)
    (MMR_PROOF_READER : PCtx -> mmr_node_t -> Z * PCtx * mmr_node_t)
    (mmr_size : Z) (st : verify_state PCtx LCtx) (pctx pctx' : PCtx)
    (slot : _mmr_stack_value_t) (node : mmr_node_t) :
  MMR_COMMAND_READER (proof_reader_context st) (command st) = (0, pctx, 2) ->
  0 <= stack_top st < MMR_STACK_SIZE ->
  stack st !! Z.to_nat (stack_top st) = Some slot ->
  MMR_PROOF_READER pctx (sv_node slot) = (0, pctx', node) ->
  mmr_verify_step MMR_MERGE MMR_MERGE_PEAKS MMR_LEAF_READER
    MMR_COMMAND_READER MMR_PROOF_READER mmr_size st
  = Continue
      (mk_state
         (<[Z.to_nat (stack_top st) :=
              mk_stack_value _MMR_STACK_PROOF node 0 0]> (stack st))
         (u32 (stack_top st + 1)) (next_peak_info st) (last_leaf_pos st)
         (has_last_leaf st) 2 pctx' (leaf_reader_context st)).
Proof.
  intros Hcommand Htop Hslot Hnode.
  unfold mmr_verify_step. rewrite Hcommand.
  cbn [Z.eqb Pos.eqb ERROR_NO_MORE_COMMANDS negb].
  unfold case_2.
  cbn [stack stack_top proof_reader_context next_peak_info last_leaf_pos
       has_last_leaf leaf_reader_context command].
  rewrite Z.geb_leb.
  destruct (Z.leb_spec MMR_STACK_SIZE (stack_top st)); [lia |].
  rewrite stack_get_in_range, Hslot by lia. rewrite Hnode.
  cbn [Z.eqb negb]. unfold set_stack.
  rewrite stack_set_defined
    by (try lia; apply lookup_lt_is_Some; eauto).
  reflexivity.
Qed.

(** X13.  The checks after the loop do not ask what kind of entry is left
    on the stack: with no leaves at all, the proof that only pushes the
    root as a proof item (opcode 2, the length of the root in two bytes,
    the root) is accepted, for every root of less than [2^16] bytes and
    every MMR size. *)
Theorem root_only_proof_accepted (root : list byte) (lo hi : byte)
    (mmr_size : Z) (leaves : list byte) :
  0 < mmr_size <= 2 ^ 63 - 2 ->
  Z.of_nat (length root) = byte_val lo + 2 ^ 8 * byte_val hi ->
  run_mmr_verify root (Z.of_nat (length root)) mmr_size
    (x02 :: lo :: hi :: root) (3 + Z.of_nat (length root)) leaves 0
  = Returns 0.
Proof.
  intros Hsize Hlen.
  pose proof (byte_val_range lo) as Hlo. pose proof (byte_val_range hi) as Hhi.
  set (len := Z.of_nat (length root)) in *.
  unfold run_mmr_verify, mmr_default_buffer_reader_init. cbn [snd].
  set (proof := x02 :: lo :: hi :: root).
  apply mmr_verify_zero_iff.
  destruct (left_peak_total mmr_size ltac:(lia)) as (h & _ & _ & _ & Hpeak).
  set (peak := mk_peak (2 ^ h - 2) (h - 1) 1) in Hpeak.
  set (st := initial_state peak (mk_reader proof (3 + len) 0)
               (mk_reader leaves 0 0)).
  pose (entry := mk_stack_value _MMR_STACK_PROOF
                   (mk_node MMR_NODE_TYPE_POINTER root len) 0 0).
  assert (load16 proof 1 = len) as Hload.
  { unfold load16, byte_at. change (Z.to_nat 1) with 1%nat.
    change (Z.to_nat (1 + 1)) with 2%nat. cbn [nth proof]. lia. }
  assert (_mmr_default_command_read (proof_reader_context st) (command st)
          = (0, mk_reader proof (3 + len) 1, 2)) as Hcommand.
  { destruct (default_command_read_spec (mk_reader proof (3 + len) 0) 255
                ltac:(cbn; lia) ltac:(cbn; lia)) as [_ H].
    exact (H ltac:(cbn; lia)). }
  assert (_mmr_default_buffer_read_node (mk_reader proof (3 + len) 1)
            uninit_node
          = (0, mk_reader proof (3 + len) (3 + len),
             mk_node MMR_NODE_TYPE_POINTER root len)) as Hnode.
  { destruct (default_read_node_spec (mk_reader proof (3 + len) 1)
                uninit_node ltac:(cbn; lia) ltac:(cbn; lia)) as [_ H].
    cbn [buffer buffer_length index] in H. rewrite Hload in H.
    rewrite (H ltac:(lia) ltac:(lia)).
    replace (1 + 2 + len) with (3 + len) by ring. reflexivity. }
  pose proof (step_opcode_2 mmr_blake2b_merge mmr_blake2b_merge
                _mmr_default_leaf_iter_read _mmr_default_command_read
                _mmr_default_buffer_read_node mmr_size st
                (mk_reader proof (3 + len) 1)
                (mk_reader proof (3 + len) (3 + len)) uninit_stack_value
                (mk_node MMR_NODE_TYPE_POINTER root len) Hcommand
                ltac:(unfold st, MMR_STACK_SIZE; cbn; lia) eq_refl Hnode)
    as Hstep.
  cbn [st initial_state stack stack_top next_peak_info last_leaf_pos
       has_last_leaf leaf_reader_context] in Hstep.
  change (u32 (0 + 1)) with 1 in Hstep. fold entry in Hstep.
  eexists peak, 1%nat, _, (mk_reader proof (3 + len) (3 + len)), 2, entry.
  split; [exact Hpeak |]. split; [lia |]. split; [lia |].
  split.
  { cbn [run_steps]. fold st. rewrite Hstep. reflexivity. }
  cbn [proof_reader_context command stack stack_top leaf_reader_context].
  split.
  { destruct (default_command_read_spec
                (mk_reader proof (3 + len) (3 + len)) 2
                ltac:(cbn; lia) ltac:(cbn; lia)) as [H _].
    exact (H ltac:(cbn; lia)). }
  split; [reflexivity |]. split; [discriminate |].
  split; [reflexivity |]. split; [reflexivity |].
  unfold MMR_MEMCMP. apply memcmp_zero_iff. reflexivity.
Qed.

Lemma root_only_proof_accepted_witness :
  run_mmr_verify example_node 32 1 ([x02] ++ example_node_record) 35 [] 0
  = Returns 0.
Proof.
  apply (root_only_proof_accepted example_node x20 x00 1 []).
  - lia.
  - reflexivity.
Defined.

(** ** The arithmetic of the positions, in closed form *)

(** X14.  [_mmr_all_ones] holds of the 64-bit numbers [2^k - 1] with
    [1 <= k <= 64], the numbers whose binary digits are all 1, and of no
    other. *)
Theorem all_ones_iff (num : Z) :
  0 <= num < 2 ^ 64 ->
  (_mmr_all_ones num = true <-> exists k, 1 <= k <= 64 /\ num = 2 ^ k - 1).
Proof.
  intros Hnum. destruct (Z.eq_dec num 0) as [-> | Hne].
  - rewrite all_ones_zero. split; [discriminate |].
    intros (k & Hk & H0). pose proof (pow2_lt 0 k ltac:(lia)).
    change (2 ^ 0) with 1 in *. lia.
  - rewrite (all_ones_spec num ltac:(lia)).
    pose proof (log2_lt_64 num ltac:(lia)) as Hlog. split.
    + intros Heq. exists (Z.log2 num + 1). split; [lia | exact Heq].
    + intros (k & Hk & Heq).
      pose proof (pow2_succ (k - 1) ltac:(lia)) as Hs.
      replace (k - 1 + 1) with k in Hs by ring.
      pose proof (pow2_pos (k - 1) ltac:(lia)).
      rewrite (log2_unique' num (k - 1)) by (try lia;
        replace (k - 1 + 1) with k by ring; lia).
      replace (k - 1 + 1) with k by ring. exact Heq.
Qed.

Lemma all_ones_iff_witness :
  _mmr_all_ones 7 = true <-> exists k, 1 <= k <= 64 /\ 7 = 2 ^ k - 1.
Proof.
  apply (all_ones_iff 7). lia.
Defined.

(** X15.  [_mmr_jump_left] takes a position (counted from 1) of the right
    half of a tree, one in [2^k .. 2^(k+1) - 1], to the position that
    lies as far into the left half: it subtracts [2^k - 1]. *)
Theorem jump_left_closed_form (pos k : Z) :
  0 <= k <= 63 -> 2 ^ k <= pos < 2 ^ (k + 1) ->
  _mmr_jump_left pos = pos - (2 ^ k - 1)
  /\ 1 <= _mmr_jump_left pos <= 2 ^ k.
Proof.
  intros Hk Hpos.
  pose proof (pow2_pos k ltac:(lia)) as Hp.
  pose proof (pow2_le (k + 1) 64 ltac:(lia)) as Hle.
  rewrite (jump_left_spec pos ltac:(lia)).
  rewrite (log2_unique' pos k) by lia.
  pose proof (pow2_succ k ltac:(lia)). lia.
Qed.

Lemma jump_left_closed_form_witness :
  _mmr_jump_left 6 = 6 - (2 ^ 2 - 1) /\ 1 <= _mmr_jump_left 6 <= 2 ^ 2.
Proof.
  apply (jump_left_closed_form 6 2); lia.
Defined.


(** ** Opcode 1 without a leaf *)

(** X20.  Opcode 1 on a full stack returns [ERROR_INVALID_STACK] without
    a call of the leaf reader; else a code other than 0 that the leaf
    reader returns is returned as it is. *)
Theorem case_1_rejects {PCtx LCtx : Type}
    (MMR_LEAF_READER : LCtx -> mmr_node_t -> Z -> Z * LCtx * mmr_node_t * Z)
    (mmr_size : Z) (st : verify_state PCtx LCtx) :
  (MMR_STACK_SIZE <= stack_top st ->
   case_1 MMR_LEAF_READER mmr_size st = Return ERROR_INVALID_STACK)
  /\ (forall slot ret lctx node position,
        stack_top st < MMR_STACK_SIZE ->
        stack_get (stack st) (stack_top st) = Some slot ->
        MMR_LEAF_READER (leaf_reader_context st) (sv_node slot)
          (sv_position slot) = (ret, lctx, node, position) ->
        ret <> 0 ->
        case_1 MMR_LEAF_READER mmr_size st = Return ret).
Proof.
  unfold case_1. rewrite Z.geb_leb. split.
  - intros Hfull.
    destruct (Z.leb_spec MMR_STACK_SIZE (stack_top st)); [reflexivity | lia].
  - intros slot ret lctx node position Hroom Hslot Hread Hret.
    destruct (Z.leb_spec MMR_STACK_SIZE (stack_top st)); [lia |].
    rewrite Hslot, Hread.
    destruct (Z.eqb_spec ret 0); [congruence | reflexivity].
Qed.

(** ** The offsets, in closed form *)

(** X21.  Up to the height 29, at which [2 << height] still is an [int],
    [_mmr_parent_offset] is [2^(height+1)] and [_mmr_sibling_offset] one
    less; up to the height 62 [_mmr_get_peak_pos_by_height] is
    [2^(height+1) - 2], the last position of a perfect tree of that
    height. *)
Theorem offsets_closed_form (height : Z) :
  (0 <= height <= 29 ->
   _mmr_parent_offset height = 2 ^ (height + 1)
   /\ _mmr_sibling_offset height = 2 ^ (height + 1) - 1)
  /\ (0 <= height <= 62 ->
      _mmr_get_peak_pos_by_height height = 2 ^ (height + 1) - 2
      /\ _mmr_pos_height_in_tree (_mmr_get_peak_pos_by_height height)
         = Some height).
Proof.
  split.
  - intros Hh. split.
    + apply parent_offset_small. exact Hh.
    + apply sibling_offset_small. exact Hh.
  - intros Hh. rewrite peak_pos_by_height_small by exact Hh.
    split; [reflexivity |].
    pose proof (pow2_le (height + 1) 63 ltac:(lia)) as Hle.
    assert (2 <= 2 ^ (height + 1)).
    { pose proof (pow2_le 1 (height + 1) ltac:(lia)).
      change (2 ^ 1) with 2 in *. lia. }
    apply pos_height_in_tree_tree_height; [lia |].
    replace (2 ^ (height + 1) - 2 + 1) with (2 ^ (height + 1) - 1) by ring.
    apply tree_height_top. lia.
Qed.
(** A command byte that is no opcode. *)
Lemma step_rejects_witness :
  default_step 1 (example_state [uninit_stack_value] 0 [x07] [])
  = Return ERROR_INVALID_COMMAND.
Proof.
  destruct (step_rejects mmr_blake2b_merge mmr_blake2b_merge
              _mmr_default_leaf_iter_read _mmr_default_command_read
              _mmr_default_buffer_read_node 1
              (example_state [uninit_stack_value] 0 [x07] [])
              0 (mk_reader [x07] 1 1) 7) as (_ & Hcommand & _).
  - reflexivity.
  - apply Hcommand; [reflexivity | lia].
Defined.

(** The two leaves of the run on four nodes. *)
Lemma pushed_leaves_increase_witness :
  exists first second,
    stack_get (stack (example_run_state 1)) (stack_top (example_run_state 0))
    = Some first
    /\ stack_get (stack (example_run_state 5))
         (stack_top (example_run_state 4)) = Some second
    /\ sv_position first < sv_position second < 4.
Proof.
  destruct (pushed_leaves_increase mmr_blake2b_merge mmr_blake2b_merge
              _mmr_default_leaf_iter_read _mmr_default_command_read
              _mmr_default_buffer_read_node 4 3
              (example_run_state 0) (example_run_state 1)
              (example_run_state 4) (example_run_state 5))
    as (first & second & Hfirst & Hsecond & _ & _ & Horder & _).
  - vm_compute. reflexivity.
  - vm_compute. reflexivity.
  - vm_compute. reflexivity.
  - vm_compute. reflexivity.
  - vm_compute. reflexivity.
  - exists first, second. split; [exact Hfirst |]. split; [exact Hsecond |].
    exact Horder.
Defined.

(** The two peaks of the run on four nodes. *)
Lemma marked_peaks_increase_witness :
  exists first second,
    stack_get (stack (example_run_state 3))
      (stack_top (example_run_state 3) - 1) = Some first
    /\ stack_get (stack (example_run_state 5))
         (stack_top (example_run_state 5) - 1) = Some second
    /\ 0 <= sv_position first < sv_position second
    /\ sv_position second < 4.
Proof.
  destruct (stack_get (stack (example_run_state 3))
              (stack_top (example_run_state 3) - 1)) as [first |] eqn:Hfirst;
    [| vm_compute in Hfirst; discriminate].
  destruct (stack_get (stack (example_run_state 5))
              (stack_top (example_run_state 5) - 1)) as [second |] eqn:Hsecond;
    [| vm_compute in Hsecond; discriminate].
  exists first, second. split; [reflexivity |]. split; [reflexivity |].
  destruct (marked_peaks_increase mmr_blake2b_merge mmr_blake2b_merge
              _mmr_default_leaf_iter_read _mmr_default_command_read
              _mmr_default_buffer_read_node 4 (mk_reader example_proof 40 0)
              (mk_reader example_leaves 84 0) 1
              (example_run_state 3) (example_run_state 4)
              (example_run_state 5) (example_run_state 6) first second)
    as (Horder & Hbelow & _).
  - lia.
  - exists (mk_peak 2 1 1), 3%nat. split; [reflexivity |]. split; [lia |].
    vm_compute. reflexivity.
  - vm_compute. reflexivity.
  - vm_compute. reflexivity.
  - exact Hfirst.
  - vm_compute in Hfirst. injection Hfirst as <-. vm_compute. discriminate.
  - vm_compute. reflexivity.
  - vm_compute. reflexivity.
  - vm_compute. reflexivity.
  - exact Hsecond.
  - vm_compute in Hsecond. injection Hsecond as <-. vm_compute. discriminate.
  - split; [exact Horder | exact Hbelow].
Defined.
(** ** BLAKE2b and the default merge *)

Lemma bytes_at_length src off n : length (blake2b.bytes_at src off n) = n.
Proof.
  unfold blake2b.bytes_at. rewrite length_map, length_seq. reflexivity.
Qed.

Lemma bytes_at_nth src off n i :
  (i < n)%nat ->
  nth i (blake2b.bytes_at src off n) x00 = nth (off + i) src x00.
Proof.
  intros Hi. unfold blake2b.bytes_at.
  rewrite (nth_indep _ x00 ((fun j => nth (off + j) src x00) O))
    by (rewrite length_map, length_seq; exact Hi).
  rewrite (map_nth (fun j => nth (off + j) src x00)).
  rewrite seq_nth by exact Hi. reflexivity.
Qed.

Lemma bytes_at_ext src src' off off' n :
  (forall i, (i < n)%nat -> nth (off + i) src x00 = nth (off' + i) src' x00) ->
  blake2b.bytes_at src off n = blake2b.bytes_at src' off' n.
Proof.
  intros H. unfold blake2b.bytes_at. apply map_ext_in.
  intros i Hi. apply in_seq in Hi. apply H. lia.
Qed.

Lemma bytes_at_split src off n m :
  blake2b.bytes_at src off (n + m)
  = blake2b.bytes_at src off n ++ blake2b.bytes_at src (off + n) m.
Proof.
  apply (nth_ext _ _ x00 x00).
  - rewrite length_app, !bytes_at_length. reflexivity.
  - rewrite bytes_at_length. intros i Hi. rewrite bytes_at_nth by exact Hi.
    destruct (Nat.lt_ge_cases i n) as [Hlt | Hge].
    + rewrite app_nth1 by (rewrite bytes_at_length; exact Hlt).
      rewrite bytes_at_nth by exact Hlt. reflexivity.
    + rewrite app_nth2 by (rewrite bytes_at_length; exact Hge).
      rewrite bytes_at_length, bytes_at_nth by lia. f_equal. lia.
Qed.

Lemma nth_drop_add (l : list byte) n i :
  nth i (drop n l) x00 = nth (n + i) l x00.
Proof.
  revert l. induction n as [| n IH]; intros l; [reflexivity |].
  destruct l as [| x l]; [destruct i; reflexivity |].
  cbn [drop Nat.add nth]. apply IH.
Qed.

Lemma compress_ext St block block' :
  (forall i, (i < 128)%nat -> nth i block x00 = nth i block' x00) ->
  blake2b.blake2b_compress St block = blake2b.blake2b_compress St block'.
Proof.
  intros H. unfold blake2b.blake2b_compress.
  assert (map (fun i => load64 block (8 * Z.of_nat i)) (seq 0 16)
          = map (fun i => load64 block' (8 * Z.of_nat i)) (seq 0 16)) as ->;
    [| reflexivity].
  apply map_ext_in. intros i Hi. apply in_seq in Hi.
  unfold load64, byte_at. rewrite !H by lia. reflexivity.
Qed.

Lemma core_compress St block :
  blake2b_core (blake2b.blake2b_compress St block)
  = blake2b.blake2b_compress (blake2b_core St) block.
Proof. reflexivity. Qed.

Lemma core_increment_counter St inc :
  blake2b_core (blake2b.blake2b_increment_counter St inc)
  = blake2b.blake2b_increment_counter (blake2b_core St) inc.
Proof. reflexivity. Qed.

Lemma core_set_buf St buf buflen :
  blake2b_core (blake2b.set_buf St buf buflen) = blake2b_core St.
Proof. reflexivity. Qed.

Lemma compress_outlen St block :
  blake2b.outlen (blake2b.blake2b_compress St block) = blake2b.outlen St.
Proof. reflexivity. Qed.

Opaque blake2b.blake2b_compress.

Lemma absorb_fit : forall data C pending,
  (length pending + length data <= 128)%nat ->
  absorb (C, pending) data = (C, pending ++ data).
Proof.
  induction data as [| x data IH]; intros C pending Hlen; cbn [absorb fold_left].
  - rewrite app_nil_r. reflexivity.
  - cbn [length] in Hlen. unfold absorb_byte at 2. cbn [fst snd].
    destruct (Nat.ltb_spec (length pending) 128) as [_ | Hfull]; [| lia].
    fold (absorb (C, pending ++ [x]) data).
    rewrite IH by (rewrite length_app; cbn [length]; lia).
    rewrite <- app_assoc. reflexivity.
Qed.

Lemma absorb_flush data C pending :
  length pending = 128%nat -> data <> [] ->
  absorb (C, pending) data
  = absorb (blake2b.blake2b_compress
              (blake2b.blake2b_increment_counter C 128) pending, []) data.
Proof.
  intros Hfull Hdata. destruct data as [| x data]; [congruence |].
  cbn [absorb fold_left]. f_equal. unfold absorb_byte. cbn [fst snd length].
  rewrite Hfull. reflexivity.
Qed.

Lemma absorb_app a data1 data2 :
  absorb a (data1 ++ data2) = absorb (absorb a data1) data2.
Proof. apply fold_left_app. Qed.

Lemma absorb_keeps : forall data a,
  blake2b.f0 (fst (absorb a data)) = blake2b.f0 (fst a)
  /\ blake2b.outlen (fst (absorb a data)) = blake2b.outlen (fst a).
Proof.
  induction data as [| x data IH]; intros a; cbn [absorb fold_left];
    [split; reflexivity |].
  fold (absorb (absorb_byte a x) data).
  destruct (IH (absorb_byte a x)) as [H0 Hout]. rewrite H0, Hout.
  unfold absorb_byte. destruct (length (snd a) <? 128)%nat;
    split; reflexivity.
Qed.

Lemma memcpy_wf dst off src n :
  length dst = 128%nat -> (off + n <= 128)%nat ->
  length (blake2b.memcpy dst off src n) = 128%nat
  /\ take (off + n) (blake2b.memcpy dst off src n)
     = take off dst ++ blake2b.bytes_at src 0 n.
Proof.
  intros Hlen Hfit. unfold blake2b.memcpy. split.
  - rewrite !length_app, length_take, bytes_at_length, length_drop. lia.
  - rewrite app_assoc. rewrite take_app_length'; [reflexivity |].
    rewrite length_app, length_take, bytes_at_length. lia.
Qed.

Lemma update_blocks_absorb : forall n St input inlen,
  0 < inlen -> inlen <= 128 * (Z.of_nat n + 1) ->
  exists St' input' inlen',
    blake2b.update_blocks n St input inlen = (St', input', inlen')
    /\ 0 < inlen' <= 128
    /\ blake2b.buflen St' = blake2b.buflen St
    /\ blake2b.buf St' = blake2b.buf St
    /\ absorb (blake2b_core St, [])
         (blake2b.bytes_at input 0 (Z.to_nat inlen))
       = absorb (blake2b_core St', [])
           (blake2b.bytes_at input' 0 (Z.to_nat inlen')).
Proof.
  induction n as [| n IH]; intros St input inlen Hpos Hle;
    cbn [blake2b.update_blocks].
  - exists St, input, inlen. repeat split; try reflexivity; lia.
  - unfold blake2b.BLAKE2B_BLOCKBYTES.
    destruct (Z.gtb_spec inlen 128) as [Hbig | Hsmall].
    + set (St1 := blake2b.blake2b_compress
                    (blake2b.blake2b_increment_counter St 128) input).
      destruct (IH St1 (drop 128 input) (inlen - 128) ltac:(lia) ltac:(lia))
        as (St' & input' & inlen' & Hrun & Hrange & Hbuflen & Hbuf & Habs).
      exists St', input', inlen'. rewrite Hrun.
      split; [reflexivity |]. split; [exact Hrange |].
      split; [exact Hbuflen |]. split; [exact Hbuf |].
      rewrite <- Habs.
      replace (Z.to_nat inlen) with (128 + Z.to_nat (inlen - 128))%nat by lia.
      rewrite bytes_at_split, absorb_app.
      rewrite absorb_fit by (rewrite bytes_at_length; cbn [length]; lia).
      rewrite absorb_flush.
      * cbn [app].
        assert (blake2b.blake2b_compress
                  (blake2b.blake2b_increment_counter (blake2b_core St) 128)
                  (blake2b.bytes_at input 0 128)
                = blake2b_core St1) as ->.
        { unfold St1. rewrite core_compress, core_increment_counter.
          apply compress_ext. intros i Hi.
          rewrite bytes_at_nth by exact Hi. reflexivity. }
        assert (blake2b.bytes_at input (0 + 128) (Z.to_nat (inlen - 128))
                = blake2b.bytes_at (drop 128 input) 0
                    (Z.to_nat (inlen - 128))) as ->.
        { apply bytes_at_ext. intros i Hi. rewrite nth_drop_add.
          reflexivity. }
        reflexivity.
      * cbn [app]. apply bytes_at_length.
      * intros Hnil. apply (f_equal (@length byte)) in Hnil.
        rewrite bytes_at_length in Hnil. cbn [length] in Hnil. lia.
    + exists St, input, inlen. repeat split; try reflexivity; lia.
Qed.

Lemma update_absorb St input inlen :
  buffer_wf St ->
  buffer_wf (blake2b.blake2b_update St input inlen)
  /\ (blake2b_core (blake2b.blake2b_update St input inlen),
      blake2b_pending (blake2b.blake2b_update St input inlen))
     = absorb (blake2b_core St, blake2b_pending St)
         (blake2b.bytes_at input 0 (Z.to_nat inlen)).
Proof.
  intros [Hbuf Hbuflen]. unfold blake2b.blake2b_update.
  destruct (Z.gtb_spec inlen 0) as [Hpos | Hnone].
  2:{ replace (Z.to_nat inlen) with O by lia.
      split; [split; assumption | reflexivity]. }
  unfold blake2b.BLAKE2B_BLOCKBYTES.
  assert (length (blake2b_pending St) = Z.to_nat (blake2b.buflen St))
    as Hpending by (unfold blake2b_pending; rewrite length_take; lia).
  destruct (Z.gtb_spec inlen (128 - blake2b.buflen St)) as [Hmore | Hfit].
  - (* the buffer is filled and compressed *)
    set (left := Z.to_nat (blake2b.buflen St)) in *.
    set (fill := Z.to_nat (128 - blake2b.buflen St)).
    destruct (memcpy_wf (blake2b.buf St) left input fill Hbuf
                ltac:(unfold left, fill; lia)) as [Hlen1 Htake1].
    replace (left + fill)%nat with 128%nat in Htake1 by (unfold left, fill; lia).
    rewrite take_ge in Htake1 by lia.
    set (St1 := blake2b.blake2b_compress
                  (blake2b.blake2b_increment_counter
                     (blake2b.set_buf St
                        (blake2b.memcpy (blake2b.buf St) left input fill) 0)
                     128)
                  (blake2b.buf
                     (blake2b.blake2b_increment_counter
                        (blake2b.set_buf St
                           (blake2b.memcpy (blake2b.buf St) left input fill)
                           0) 128))).
    destruct (update_blocks_absorb (Z.to_nat (inlen / 128)) St1
                (drop fill input) (inlen - (128 - blake2b.buflen St))
                ltac:(lia))
      as (St' & input' & inlen' & Hrun & Hrange & Hbuflen' & Hbuf' & Habs).
    { rewrite Z2Nat.id by (apply Z.div_pos; lia).
      pose proof (Z.mul_succ_div_gt inlen 128 ltac:(lia)). lia. }
    rewrite Hrun.
    assert (blake2b.buflen St' = 0) as Hzero by (rewrite Hbuflen'; reflexivity).
    assert (length (blake2b.buf St') = 128%nat) as Hlen'
      by (rewrite Hbuf'; exact Hlen1).
    rewrite Hzero. change (Z.to_nat 0) with O.
    destruct (memcpy_wf (blake2b.buf St') 0 input' (Z.to_nat inlen') Hlen'
                ltac:(lia)) as [Hlen2 Htake2].
    split; [split; cbn [blake2b.set_buf blake2b.buf blake2b.buflen];
            [exact Hlen2 | lia] |].
    rewrite core_set_buf. unfold blake2b_pending at 1.
    cbn [blake2b.set_buf blake2b.buf blake2b.buflen].
    replace (Z.to_nat (0 + inlen')) with (0 + Z.to_nat inlen')%nat by lia.
    rewrite Htake2, take_0. cbn [app].
    pose proof (absorb_fit (blake2b.bytes_at input' 0 (Z.to_nat inlen'))
                  (blake2b_core St') []
                  ltac:(rewrite bytes_at_length; cbn [length]; lia)) as Hlast.
    cbn [app] in Hlast. rewrite <- Hlast, <- Habs.
    replace (Z.to_nat inlen)
      with (fill + Z.to_nat (inlen - (128 - blake2b.buflen St)))%nat
      by (unfold fill; lia).
    rewrite bytes_at_split, absorb_app.
    rewrite (absorb_fit (blake2b.bytes_at input 0 fill) (blake2b_core St)
               (blake2b_pending St))
      by (rewrite bytes_at_length, Hpending; unfold left, fill; lia).
    rewrite (absorb_flush _ (blake2b_core St)).
    + assert (blake2b.blake2b_compress
                (blake2b.blake2b_increment_counter (blake2b_core St) 128)
                (blake2b_pending St ++ blake2b.bytes_at input 0 fill)
              = blake2b_core St1) as ->.
      { unfold St1. rewrite core_compress, core_increment_counter.
        rewrite core_set_buf.
        cbn [blake2b.blake2b_increment_counter blake2b.set_buf blake2b.buf].
        rewrite Htake1. reflexivity. }
      assert (blake2b.bytes_at input (0 + fill)
                (Z.to_nat (inlen - (128 - blake2b.buflen St)))
              = blake2b.bytes_at (drop fill input) 0
                  (Z.to_nat (inlen - (128 - blake2b.buflen St)))) as ->.
      { apply bytes_at_ext. intros i Hi. rewrite nth_drop_add. reflexivity. }
      reflexivity.
    + rewrite length_app, bytes_at_length, Hpending. unfold left, fill. lia.
    + intros Hnil. apply (f_equal (@length byte)) in Hnil.
      rewrite bytes_at_length in Hnil. cbn [length] in Hnil. lia.
  - (* the input fits the buffer *)
    destruct (memcpy_wf (blake2b.buf St) (Z.to_nat (blake2b.buflen St)) input
                (Z.to_nat inlen) Hbuf ltac:(lia)) as [Hlen1 Htake1].
    split; [split; cbn [blake2b.set_buf blake2b.buf blake2b.buflen];
            [exact Hlen1 | lia] |].
    rewrite core_set_buf. unfold blake2b_pending at 1.
    cbn [blake2b.set_buf blake2b.buf blake2b.buflen].
    replace (Z.to_nat (blake2b.buflen St + inlen))
      with (Z.to_nat (blake2b.buflen St) + Z.to_nat inlen)%nat by lia.
    rewrite Htake1.
    rewrite absorb_fit by (rewrite bytes_at_length, Hpending; lia).
    reflexivity.
Qed.

Lemma final_abs St St' out outlen' :
  buffer_wf St -> buffer_wf St' ->
  blake2b_core St = blake2b_core St' ->
  blake2b_pending St = blake2b_pending St' ->
  blake2b.blake2b_final St out outlen' = blake2b.blake2b_final St' out outlen'.
Proof.
  intros [Hbuf Hbuflen] [Hbuf' Hbuflen'] Hcore Hpending.
  assert (blake2b.buflen St = blake2b.buflen St') as Hlen.
  { apply (f_equal (@length byte)) in Hpending. unfold blake2b_pending in *.
    rewrite !length_take in Hpending. lia. }
  unfold blake2b_pending in Hpending. rewrite <- Hlen in Hpending.
  destruct St as [h t0 t1 f0 f1 buf buflen outlen last_node].
  destruct St' as [h' t0' t1' f0' f1' buf' buflen' outlen'' last_node'].
  unfold blake2b_core, blake2b.set_buf in Hcore.
  cbn [blake2b.h blake2b.t0 blake2b.t1 blake2b.f0 blake2b.f1 blake2b.buf
       blake2b.buflen blake2b.outlen blake2b.last_node] in *.
  inversion Hcore; subst.
  unfold blake2b.blake2b_final, blake2b.blake2b_increment_counter,
    blake2b.blake2b_set_lastblock, blake2b.set_buf.
  cbn [blake2b.h blake2b.t0 blake2b.t1 blake2b.f0 blake2b.f1 blake2b.buf
       blake2b.buflen blake2b.outlen blake2b.last_node].
  rewrite Hpending. reflexivity.
Qed.

(** The state of [mmr_blake2b_merge] after [ckb_blake2b_init]. *)
Lemma ckb_init_32 :
  exists St,
    blake2b.ckb_blake2b_init 32 = Some St
    /\ buffer_wf St /\ blake2b.f0 St = 0 /\ blake2b.outlen St = 32.
Proof.
  eexists. split; [reflexivity |]. split; [split |].
  - reflexivity.
  - cbn. lia.
  - split; reflexivity.
Qed.

Lemma final_digest St out :
  blake2b.f0 St = 0 -> blake2b.outlen St = 32 -> length out = 32%nat ->
  exists digest,
    blake2b.blake2b_final St out 32 = (0, digest)
    /\ length digest = 32%nat
    /\ forall out', length out' = 32%nat ->
         blake2b.blake2b_final St out' 32 = (0, digest).
Proof.
  intros Hf0 Houtlen Hout. unfold blake2b.blake2b_final.
  rewrite Houtlen, Hf0. cbn [Z.ltb Z.compare Pos.compare Pos.compare_cont
                              Z.eqb negb].
  rewrite compress_outlen.
  cbn [blake2b.outlen blake2b.set_buf blake2b.blake2b_set_lastblock
       blake2b.blake2b_increment_counter].
  rewrite Houtlen. unfold blake2b.memcpy. cbn [Nat.add].
  eexists. split; [| split].
  - rewrite drop_ge by lia. rewrite app_nil_r. rewrite take_0. reflexivity.
  - cbn [app]. apply bytes_at_length.
  - intros out' Hout'. rewrite drop_ge by lia.
    rewrite app_nil_r, !take_0. reflexivity.
Qed.

(** What [mmr_blake2b_merge] computes, by the bytes it absorbs. *)
Lemma merge_absorbs (dst lhs rhs : mmr_node_t) :
  exists St0 St digest,
    blake2b.ckb_blake2b_init 32 = Some St0
    /\ buffer_wf St /\ blake2b.f0 St = 0 /\ blake2b.outlen St = 32
    /\ (blake2b_core St, blake2b_pending St)
       = absorb (blake2b_core St0, blake2b_pending St0)
           (node_bytes lhs ++ node_bytes rhs)
    /\ (forall out, length out = 32%nat ->
          blake2b.blake2b_final St out 32 = (0, digest))
    /\ length digest = 32%nat
    /\ mmr_blake2b_merge dst lhs rhs
       = (0, mk_node MMR_NODE_TYPE_BUFFER digest 32).
Proof.
  destruct ckb_init_32 as (St0 & Hinit & Hwf0 & Hf0 & Houtlen).
  unfold mmr_blake2b_merge. rewrite Hinit.
  set (St1 := blake2b.blake2b_update St0 (mmr_node_value lhs)
                (node_length lhs)).
  set (St2 := blake2b.blake2b_update St1 (mmr_node_value rhs)
                (node_length rhs)).
  destruct (update_absorb St0 (mmr_node_value lhs) (node_length lhs) Hwf0)
    as [Hwf1 Habs1]. fold St1 in Hwf1, Habs1.
  destruct (update_absorb St1 (mmr_node_value rhs) (node_length rhs) Hwf1)
    as [Hwf2 Habs2]. fold St2 in Hwf2, Habs2.
  assert ((blake2b_core St2, blake2b_pending St2)
          = absorb (blake2b_core St0, blake2b_pending St0)
              (node_bytes lhs ++ node_bytes rhs)) as Habs.
  { rewrite absorb_app. unfold node_bytes. rewrite <- Habs1. exact Habs2. }
  destruct (absorb_keeps (node_bytes lhs ++ node_bytes rhs)
              (blake2b_core St0, blake2b_pending St0)) as [Hk0 Hkout].
  rewrite <- Habs in Hk0, Hkout. cbn [fst] in Hk0, Hkout.
  assert (blake2b.f0 St2 = 0) as Hf2 by exact (eq_trans Hk0 Hf0).
  assert (blake2b.outlen St2 = 32) as Hout2 by exact (eq_trans Hkout Houtlen).
  destruct (final_digest St2
              (blake2b.bytes_at (node_value dst) 0
                 (Z.to_nat MMR_NODE_BUFFER_MAX_BYTES)) Hf2 Hout2
              (bytes_at_length _ _ _)) as (digest & Hfinal & Hlen & Hany).
  exists St0, St2, digest. rewrite Hfinal. cbn [snd].
  repeat split; try assumption; try reflexivity.
  - apply Hwf2.
  - apply Hwf2.
  - apply Hwf2.
Qed.

(** X17.  [mmr_blake2b_merge] returns 0 and makes of [dst] a node of
    type [MMR_NODE_TYPE_BUFFER] with a digest of 32 bytes, the same
    whatever [dst] held: [dst] may be the node of [lhs] or of [rhs]. *)
Theorem blake2b_merge_digest (dst lhs rhs : mmr_node_t) :
  exists digest,
    length digest = 32%nat
    /\ forall dst',
         mmr_blake2b_merge dst' lhs rhs
         = (0, mk_node MMR_NODE_TYPE_BUFFER digest 32).
Proof.
  destruct (merge_absorbs dst lhs rhs)
    as (St0 & St & digest & Hinit & Hwf & Hf0 & Hout & Habs & Hfinal & Hlen
        & Hmerge).
  exists digest. split; [exact Hlen |]. intros dst'.
  destruct (merge_absorbs dst' lhs rhs)
    as (St0' & St' & digest' & Hinit' & Hwf' & _ & _ & Habs' & Hfinal' & _
        & Hmerge').
  rewrite Hmerge'. repeat f_equal.
  assert (St0' = St0) as -> by congruence.
  rewrite <- Habs in Habs'. apply pair_equal_spec in Habs' as [Hcore Hpending].
  pose proof (final_abs St' St (replicate 32 x00) 32 Hwf' Hwf Hcore Hpending)
    as Hsame.
  rewrite Hfinal, Hfinal' in Hsame by apply length_replicate.
  congruence.
Qed.

(** X18.  [blake2b_update] streams: two calls on the bytes [a] and [b]
    leave a state from which [blake2b_final] gives what it gives after
    one call on the bytes [a] followed by [b]. *)
Theorem blake2b_update_streams (St : blake2b.blake2b_state)
    (a b : list byte) (out : list byte) (outlen : Z) :
  buffer_wf St ->
  let alen := Z.of_nat (length a) in
  let blen := Z.of_nat (length b) in
  blake2b.blake2b_final
    (blake2b.blake2b_update (blake2b.blake2b_update St a alen) b blen)
    out outlen
  = blake2b.blake2b_final (blake2b.blake2b_update St (a ++ b) (alen + blen))
      out outlen.
Proof.
  intros Hwf alen blen.
  destruct (update_absorb St a alen Hwf) as [Hwf1 Habs1].
  destruct (update_absorb _ b blen Hwf1) as [Hwf2 Habs2].
  destruct (update_absorb St (a ++ b) (alen + blen) Hwf) as [Hwf3 Habs3].
  assert (forall l : list byte,
            blake2b.bytes_at l 0 (Z.to_nat (Z.of_nat (length l))) = l)
    as Hexact.
  { intros l. rewrite Nat2Z.id. apply (nth_ext _ _ x00 x00).
    - apply bytes_at_length.
    - rewrite bytes_at_length. intros i Hi. apply bytes_at_nth. exact Hi. }
  unfold alen, blen in *.
  rewrite Hexact in Habs1, Habs2.
  replace (Z.of_nat (length a) + Z.of_nat (length b))
    with (Z.of_nat (length (a ++ b))) in *
    by (rewrite length_app; lia).
  rewrite Hexact in Habs3.
  rewrite absorb_app, <- Habs1, <- Habs2 in Habs3.
  apply pair_equal_spec in Habs3 as [Hcore Hpending].
  symmetry. apply final_abs; assumption.
Qed.

(** Nodes with the same bytes in a row merge to the same node. *)
Lemma merge_bytes_ext (dst dst' lhs rhs lhs' rhs' : mmr_node_t) :
  node_bytes lhs ++ node_bytes rhs = node_bytes lhs' ++ node_bytes rhs' ->
  mmr_blake2b_merge dst lhs rhs = mmr_blake2b_merge dst' lhs' rhs'.
Proof.
  intros Hbytes.
  destruct (merge_absorbs dst lhs rhs)
    as (St0 & St & digest & Hinit & Hwf & _ & _ & Habs & Hfinal & _ & Hmerge).
  destruct (merge_absorbs dst' lhs' rhs')
    as (St0' & St' & digest' & Hinit' & Hwf' & _ & _ & Habs' & Hfinal' & _
        & Hmerge').
  rewrite Hmerge, Hmerge'. repeat f_equal.
  assert (St0' = St0) as -> by congruence.
  rewrite <- Hbytes, <- Habs in Habs'.
  apply pair_equal_spec in Habs' as [Hcore Hpending].
  pose proof (final_abs St' St (replicate 32 x00) 32 Hwf' Hwf Hcore Hpending)
    as Hsame.
  rewrite Hfinal, Hfinal' in Hsame by apply length_replicate.
  congruence.
Qed.

(** The bytes of a node are the first [length] bytes of its value. *)
Lemma node_bytes_prefix t (bytes post : list byte) :
  node_bytes (mk_node t (bytes ++ post) (Z.of_nat (length bytes))) = bytes.
Proof.
  unfold node_bytes, mmr_node_value. cbn [node_value node_length].
  rewrite Nat2Z.id.
  apply (nth_ext _ _ x00 x00); [apply bytes_at_length |].
  rewrite bytes_at_length. intros i Hi. rewrite bytes_at_nth by exact Hi.
  apply app_nth1. exact Hi.
Qed.

(** X19.  [mmr_blake2b_merge] hashes the bytes of [lhs] followed by
    those of [rhs] and nothing else, neither their lengths nor a mark
    between them: two pairs of nodes with the same bytes in a row merge
    to the same node. *)
Theorem merge_hashes_concatenation (dst dst' lhs rhs lhs' rhs' : mmr_node_t) :
  node_bytes lhs ++ node_bytes rhs = node_bytes lhs' ++ node_bytes rhs' ->
  mmr_blake2b_merge dst lhs rhs = mmr_blake2b_merge dst' lhs' rhs'.
Proof.
  exact (merge_bytes_ext dst dst' lhs rhs lhs' rhs').
Qed.

(** One byte and then another, from the state of [ckb_blake2b_init]. *)
Lemma blake2b_update_streams_witness :
  blake2b.blake2b_final
    (blake2b.blake2b_update
       (blake2b.blake2b_update example_blake2b_state [x01] 1) [x02] 1)
    (replicate 32 x00) 32
  = blake2b.blake2b_final
      (blake2b.blake2b_update example_blake2b_state [x01; x02] 2)
      (replicate 32 x00) 32.
Proof.
  apply (blake2b_update_streams example_blake2b_state [x01] [x02]
           (replicate 32 x00) 32).
  split; [reflexivity | cbn; lia].
Defined.

(** Three bytes, cut after the second or after the first. *)
Lemma merge_hashes_concatenation_witness :
  mmr_blake2b_merge uninit_node
    (mk_node MMR_NODE_TYPE_POINTER [x01; x02] 2)
    (mk_node MMR_NODE_TYPE_POINTER [x03] 1)
  = mmr_blake2b_merge uninit_node
      (mk_node MMR_NODE_TYPE_POINTER [x01] 1)
      (mk_node MMR_NODE_TYPE_POINTER [x02; x03] 2).
Proof.
  apply merge_hashes_concatenation. reflexivity.
Defined.
(** ** Little-endian words and the records of the readers *)

Lemma byte_val_of_Z x : byte_val (blake2b.byte_of_Z x) = u8 x.
Proof.
  unfold blake2b.byte_of_Z, byte_val.
  assert (0 <= u8 x < 256) as Hr by (unfold u8; apply Z.mod_pos_bound; lia).
  destruct (Byte.of_N (Z.to_N (u8 x))) as [b |] eqn:Hb.
  - apply Byte.to_of_N in Hb. rewrite Hb. lia.
  - apply Byte.of_N_None_iff in Hb. lia.
Qed.

Lemma byte_at_app_l s1 s2 i :
  0 <= i < Z.of_nat (length s1) -> byte_at (s1 ++ s2) i = byte_at s1 i.
Proof.
  intros Hi. unfold byte_at. rewrite app_nth1 by lia. reflexivity.
Qed.

Lemma byte_at_app_r s1 s2 i :
  Z.of_nat (length s1) <= i ->
  byte_at (s1 ++ s2) i = byte_at s2 (i - Z.of_nat (length s1)).
Proof.
  intros Hi. unfold byte_at. rewrite app_nth2 by lia. do 2 f_equal. lia.
Qed.

Lemma store64_length w : length (blake2b.store64 w) = 8%nat.
Proof. reflexivity. Qed.

Lemma load64_store64_0 w :
  0 <= w < 2 ^ 64 -> load64 (blake2b.store64 w) 0 = w.
Proof.
  intros Hw. unfold load64, byte_at.
  change (blake2b.store64 w)
    with [blake2b.byte_of_Z (Z.shiftr w 0); blake2b.byte_of_Z (Z.shiftr w 8);
          blake2b.byte_of_Z (Z.shiftr w 16); blake2b.byte_of_Z (Z.shiftr w 24);
          blake2b.byte_of_Z (Z.shiftr w 32); blake2b.byte_of_Z (Z.shiftr w 40);
          blake2b.byte_of_Z (Z.shiftr w 48); blake2b.byte_of_Z (Z.shiftr w 56)].
  change (Z.to_nat 0) with 0%nat. change (Z.to_nat (0 + 1)) with 1%nat.
  change (Z.to_nat (0 + 2)) with 2%nat. change (Z.to_nat (0 + 3)) with 3%nat.
  change (Z.to_nat (0 + 4)) with 4%nat. change (Z.to_nat (0 + 5)) with 5%nat.
  change (Z.to_nat (0 + 6)) with 6%nat. change (Z.to_nat (0 + 7)) with 7%nat.
  cbn [nth].
  rewrite !byte_val_of_Z. unfold u8. rewrite !Z.shiftr_div_pow2 by lia.
  change (2 ^ 0) with 1. rewrite Z.div_1_r.
  pose proof (Z.div_mod w (2 ^ 8) ltac:(lia)) as H0.
  pose proof (Z.div_mod (w / 2 ^ 8) (2 ^ 8) ltac:(lia)) as H1.
  pose proof (Z.div_mod (w / 2 ^ 16) (2 ^ 8) ltac:(lia)) as H2.
  pose proof (Z.div_mod (w / 2 ^ 24) (2 ^ 8) ltac:(lia)) as H3.
  pose proof (Z.div_mod (w / 2 ^ 32) (2 ^ 8) ltac:(lia)) as H4.
  pose proof (Z.div_mod (w / 2 ^ 40) (2 ^ 8) ltac:(lia)) as H5.
  pose proof (Z.div_mod (w / 2 ^ 48) (2 ^ 8) ltac:(lia)) as H6.
  pose proof (Z.div_mod (w / 2 ^ 56) (2 ^ 8) ltac:(lia)) as H7.
  rewrite Z.div_div in H1, H2, H3, H4, H5, H6, H7 by lia.
  change (2 ^ 8 * 2 ^ 8) with (2 ^ 16) in *.
  change (2 ^ 16 * 2 ^ 8) with (2 ^ 24) in *.
  change (2 ^ 24 * 2 ^ 8) with (2 ^ 32) in *.
  change (2 ^ 32 * 2 ^ 8) with (2 ^ 40) in *.
  change (2 ^ 40 * 2 ^ 8) with (2 ^ 48) in *.
  change (2 ^ 48 * 2 ^ 8) with (2 ^ 56) in *.
  change (2 ^ 56 * 2 ^ 8) with (2 ^ 64) in *.
  rewrite (Z.div_small w (2 ^ 64)) in H7 by lia.
  change (2 ^ 8) with 256 in *. lia.
Qed.

Lemma load64_app s1 s2 :
  load64 (s1 ++ s2) (Z.of_nat (length s1)) = load64 s2 0.
Proof.
  unfold load64. rewrite !byte_at_app_r by lia.
  repeat match goal with
         | |- context [byte_at s2 (?a - ?b)] =>
             replace (a - b) with (a - b + 0) by ring
         end.
  repeat (f_equal; try lia).
Qed.

Lemma load64_prefix s1 s2 :
  (8 <= length s1)%nat -> load64 (s1 ++ s2) 0 = load64 s1 0.
Proof.
  intros Hlen. unfold load64. rewrite !byte_at_app_l by lia. reflexivity.
Qed.

Lemma load16_app s1 s2 :
  load16 (s1 ++ s2) (Z.of_nat (length s1)) = load16 s2 0.
Proof.
  unfold load16. rewrite !byte_at_app_r by lia.
  repeat (f_equal; try lia).
Qed.

Lemma load16_node_record bytes post :
  Z.of_nat (length bytes) < 2 ^ 16 ->
  load16 (node_record bytes ++ post) 0 = Z.of_nat (length bytes).
Proof.
  intros Hlen. unfold load16, byte_at, node_record.
  change (Z.to_nat 0) with 0%nat. change (Z.to_nat (0 + 1)) with 1%nat.
  cbn [app nth]. rewrite !byte_val_of_Z. unfold u8.
  rewrite Z.shiftr_div_pow2 by lia.
  set (n := Z.of_nat (length bytes)) in *.
  pose proof (Z.div_mod n (2 ^ 8) ltac:(lia)) as H0.
  pose proof (Z.div_mod (n / 2 ^ 8) (2 ^ 8) ltac:(lia)) as H1.
  rewrite Z.div_div in H1 by lia. change (2 ^ 8 * 2 ^ 8) with (2 ^ 16) in H1.
  rewrite (Z.div_small n (2 ^ 16)) in H1 by lia.
  change (2 ^ 8) with 256 in *. lia.
Qed.

Lemma node_record_length bytes :
  length (node_record bytes) = (2 + length bytes)%nat.
Proof. reflexivity. Qed.

Lemma leaf_record_length position bytes :
  length (leaf_record position bytes) = (10 + length bytes)%nat.
Proof. reflexivity. Qed.

Lemma drop_app_length' (l1 l2 : list byte) n :
  n = length l1 -> drop n (l1 ++ l2) = l2.
Proof. intros ->. apply drop_app_length. Qed.

Lemma node_record_read_eq pre bytes post out :
  Z.of_nat (length bytes) < 2 ^ 16 ->
  let buf := pre ++ node_record bytes ++ post in
  Z.of_nat (length buf) < 2 ^ 32 ->
  _mmr_default_buffer_read_node
    (mk_reader buf (Z.of_nat (length buf)) (Z.of_nat (length pre))) out
  = (0,
     mk_reader buf (Z.of_nat (length buf))
       (Z.of_nat (length pre) + 2 + Z.of_nat (length bytes)),
     mk_node MMR_NODE_TYPE_POINTER (bytes ++ post)
       (Z.of_nat (length bytes))).
Proof.
  intros Hbytes buf Hbuf.
  assert (length buf = (length pre + (2 + length bytes + length post))%nat)
    as Hlen by (unfold buf; rewrite !length_app, node_record_length; lia).
  destruct (default_read_node_spec
              (mk_reader buf (Z.of_nat (length buf)) (Z.of_nat (length pre)))
              out ltac:(cbn [index buffer_length]; lia)
              ltac:(cbn [buffer_length]; lia)) as [_ Hwhole].
  cbn [index buffer buffer_length] in Hwhole.
  assert (load16 buf (Z.of_nat (length pre)) = Z.of_nat (length bytes))
    as Hload.
  { unfold buf. rewrite load16_app. apply load16_node_record. exact Hbytes. }
  rewrite Hload in Hwhole. rewrite (Hwhole ltac:(lia) ltac:(lia)).
  do 2 f_equal. f_equal.
  assert (buf = (pre ++ take 2 (node_record bytes)) ++ (bytes ++ post))
    as Hsplit.
  { unfold buf, node_record. cbn [app take]. rewrite <- !app_assoc.
    reflexivity. }
  rewrite Hsplit at 1. apply drop_app_length'.
  rewrite length_app, length_take, node_record_length. lia.
Qed.

Lemma leaf_record_read_eq pre position bytes post out_node out_position :
  0 <= position < 2 ^ 64 -> Z.of_nat (length bytes) < 2 ^ 16 ->
  let buf := pre ++ leaf_record position bytes ++ post in
  Z.of_nat (length buf) < 2 ^ 32 ->
  _mmr_default_leaf_iter_read
    (mk_reader buf (Z.of_nat (length buf)) (Z.of_nat (length pre)))
    out_node out_position
  = (0,
     mk_reader buf (Z.of_nat (length buf))
       (Z.of_nat (length pre) + 10 + Z.of_nat (length bytes)),
     mk_node MMR_NODE_TYPE_POINTER (bytes ++ post)
       (Z.of_nat (length bytes)),
     position).
Proof.
  intros Hpos Hbytes buf Hbuf.
  assert (length buf = (length pre + (10 + length bytes + length post))%nat)
    as Hlen by (unfold buf; rewrite !length_app, leaf_record_length; lia).
  destruct (default_leaf_iter_read_spec
              (mk_reader buf (Z.of_nat (length buf)) (Z.of_nat (length pre)))
              out_node out_position ltac:(cbn [index buffer_length]; lia)
              ltac:(cbn [buffer_length]; lia)) as (_ & _ & _ & Hwhole).
  cbn [index buffer buffer_length] in Hwhole.
  assert (buf = (pre ++ blake2b.store64 position)
                ++ node_record bytes ++ post) as Hsplit8.
  { unfold buf, leaf_record. rewrite <- !app_assoc. reflexivity. }
  assert (load16 buf (Z.of_nat (length pre) + 8) = Z.of_nat (length bytes))
    as Hload16.
  { rewrite Hsplit8.
    replace (Z.of_nat (length pre) + 8)
      with (Z.of_nat (length (pre ++ blake2b.store64 position)))
      by (rewrite length_app, store64_length; lia).
    rewrite load16_app. apply load16_node_record. exact Hbytes. }
  assert (load64 buf (Z.of_nat (length pre)) = position) as Hload64.
  { unfold buf, leaf_record. rewrite load64_app, <- app_assoc.
    rewrite load64_prefix by (rewrite store64_length; lia).
    apply load64_store64_0. exact Hpos. }
  rewrite Hload16, Hload64 in Hwhole.
  assert (drop (Z.to_nat (Z.of_nat (length pre) + 8 + 2)) buf = bytes ++ post)
    as Hdrop.
  { assert (buf = (pre ++ blake2b.store64 position
                   ++ take 2 (node_record bytes)) ++ (bytes ++ post))
      as Hsplit.
    { unfold buf, leaf_record, node_record. cbn [app take].
      rewrite <- !app_assoc. reflexivity. }
    rewrite Hsplit. apply drop_app_length'.
    rewrite !length_app, length_take, store64_length, node_record_length.
    lia. }
  rewrite Hdrop in Hwhole. rewrite (Hwhole ltac:(lia) ltac:(lia)).
  replace (Z.of_nat (length pre) + 8 + 2 + Z.of_nat (length bytes))
    with (Z.of_nat (length pre) + 10 + Z.of_nat (length bytes)) by ring.
  reflexivity.
Qed.

(** X22.  [load64] reads back what [store64] wrote: the eight bytes of a
    64-bit word, the lowest first, wherever they lie in a buffer. *)
Theorem load64_store64 (pre post : list byte) (w : Z) :
  0 <= w < 2 ^ 64 ->
  load64 (pre ++ blake2b.store64 w ++ post) (Z.of_nat (length pre)) = w.
Proof.
  intros Hw. rewrite load64_app.
  rewrite load64_prefix by (rewrite store64_length; lia).
  apply load64_store64_0. exact Hw.
Qed.

Lemma load64_store64_witness :
  load64 ([x07] ++ blake2b.store64 258 ++ []) (Z.of_nat (length [x07])) = 258.
Proof.
  apply (load64_store64 [x07] [] 258). lia.
Defined.

(** X23.  The layout that the default readers decode.  A leaf lies in
    the leaf buffer as its position in eight bytes, the lowest first,
    the length of its node in two bytes, the lower first, and the bytes
    of the node; a node of the proof lies there as the length and the
    bytes.  On such a record at the cursor the reader returns 0 with
    this position and a node of these bytes, and puts the cursor behind
    the record. *)
Theorem records_read (pre bytes post : list byte) :
  Z.of_nat (length bytes) < 2 ^ 16 ->
  (forall out,
     let buf := pre ++ node_record bytes ++ post in
     Z.of_nat (length buf) < 2 ^ 32 ->
     exists node,
       _mmr_default_buffer_read_node
         (mk_reader buf (Z.of_nat (length buf)) (Z.of_nat (length pre))) out
       = (0,
          mk_reader buf (Z.of_nat (length buf))
            (Z.of_nat (length (pre ++ node_record bytes))), node)
       /\ node_t node = MMR_NODE_TYPE_POINTER
       /\ node_bytes node = bytes)
  /\ (forall position out_node out_position,
        0 <= position < 2 ^ 64 ->
        let buf := pre ++ leaf_record position bytes ++ post in
        Z.of_nat (length buf) < 2 ^ 32 ->
        exists node,
          _mmr_default_leaf_iter_read
            (mk_reader buf (Z.of_nat (length buf)) (Z.of_nat (length pre)))
            out_node out_position
          = (0,
             mk_reader buf (Z.of_nat (length buf))
               (Z.of_nat (length (pre ++ leaf_record position bytes))),
             node, position)
          /\ node_t node = MMR_NODE_TYPE_POINTER
          /\ node_bytes node = bytes).
Proof.
  intros Hbytes.
  pose proof (node_bytes_prefix MMR_NODE_TYPE_POINTER bytes) as Hnode.
  split.
  - intros out buf Hbuf. eexists. split; [| split; [| apply Hnode]].
    + replace (Z.of_nat (length (pre ++ node_record bytes)))
        with (Z.of_nat (length pre) + 2 + Z.of_nat (length bytes))
        by (rewrite length_app, node_record_length; lia).
      apply node_record_read_eq; assumption.
    + reflexivity.
  - intros position out_node out_position Hpos buf Hbuf.
    eexists. split; [| split; [| apply Hnode]].
    + replace (Z.of_nat (length (pre ++ leaf_record position bytes)))
        with (Z.of_nat (length pre) + 10 + Z.of_nat (length bytes))
        by (rewrite length_app, leaf_record_length; lia).
      apply leaf_record_read_eq; assumption.
    + reflexivity.
Qed.

Lemma records_read_witness :
  exists node,
    _mmr_default_buffer_read_node
      (mk_reader ([x02] ++ node_record [x0a; x0b] ++ [x03]) 6 1) uninit_node
    = (0, mk_reader ([x02] ++ node_record [x0a; x0b] ++ [x03]) 6 5, node)
    /\ node_bytes node = [x0a; x0b].
Proof.
  destruct (records_read [x02] [x0a; x0b] [x03]) as [Hnode _].
  - cbn. lia.
  - destruct (Hnode uninit_node) as (node & Hread & _ & Hbytes).
    + cbn. lia.
    + exists node. split; [exact Hread | exact Hbytes].
Defined.

(** ** The iterations, forwards *)

Section Forwards.

Context {PCtx LCtx : Type}.
Variable MMR_MERGE : mmr_node_t -> mmr_node_t -> mmr_node_t -> Z * mmr_node_t.
Variable MMR_MERGE_PEAKS :
  mmr_node_t -> mmr_node_t -> mmr_node_t -> Z * mmr_node_t.
Variable MMR_LEAF_READER : LCtx -> mmr_node_t -> Z -> Z * LCtx * mmr_node_t * Z.
Variable MMR_COMMAND_READER : PCtx -> Z -> Z * PCtx * Z.
Variable MMR_PROOF_READER : PCtx -> mmr_node_t -> Z * PCtx * mmr_node_t.

Abbreviation fstate := (verify_state PCtx LCtx).
Abbreviation fstep :=
  (mmr_verify_step MMR_MERGE MMR_MERGE_PEAKS MMR_LEAF_READER
     MMR_COMMAND_READER MMR_PROOF_READER).

(** An iteration on opcode 1 that pushes a leaf. *)
Lemma step_opcode_1 mmr_size (st : fstate) pctx lctx slot node position :
  MMR_COMMAND_READER (proof_reader_context st) (command st) = (0, pctx, 1) ->
  0 <= stack_top st < MMR_STACK_SIZE ->
  stack st !! Z.to_nat (stack_top st) = Some slot ->
  MMR_LEAF_READER (leaf_reader_context st) (sv_node slot) (sv_position slot)
  = (0, lctx, node, position) ->
  has_last_leaf st = 0 \/ last_leaf_pos st < position ->
  position < mmr_size ->
  _mmr_pos_height_in_tree position = Some 0 ->
  fstep mmr_size st
  = Continue
      (mk_state
         (<[Z.to_nat (stack_top st) :=
              mk_stack_value _MMR_STACK_NODE node position 0]> (stack st))
         (stack_top st + 1) (next_peak_info st) position 1 1 pctx lctx).
Proof.
  intros Hcommand Htop Hslot Hleaf Horder Hbelow Hheight.
  pose proof MMR_STACK_SIZE_range as Hsize.
  unfold mmr_verify_step. rewrite Hcommand.
  cbn [Z.eqb Pos.eqb ERROR_NO_MORE_COMMANDS negb].
  unfold case_1.
  cbn [stack stack_top proof_reader_context next_peak_info last_leaf_pos
       has_last_leaf leaf_reader_context command].
  rewrite Z.geb_leb.
  destruct (Z.leb_spec MMR_STACK_SIZE (stack_top st)); [lia |].
  rewrite stack_get_in_range, Hslot by lia. rewrite Hleaf.
  cbn [Z.eqb negb].
  assert (negb (has_last_leaf st =? 0) && (last_leaf_pos st >=? position)
          = false) as ->.
  { destruct Horder as [-> | Hlt]; [reflexivity |].
    rewrite Z.geb_leb.
    destruct (Z.leb_spec position (last_leaf_pos st)); [lia |].
    apply andb_false_r. }
  rewrite Z.geb_leb.
  destruct (Z.leb_spec mmr_size position); [lia |].
  rewrite Hheight. cbn [Z.gtb Z.compare].
  rewrite stack_set_defined
    by (try lia; apply lookup_lt_is_Some; eauto).
  rewrite (u32_small (stack_top st + 1)) by lia.
  reflexivity.
Qed.

(** An iteration on opcode 3 that merges a left child, the lower entry,
    with its right sibling. *)
Lemma step_opcode_3_left mmr_size (st : fstate) pctx under top next_height :
  MMR_COMMAND_READER (proof_reader_context st) (command st) = (0, pctx, 3) ->
  2 <= stack_top st <= MMR_STACK_SIZE ->
  stack st !! Z.to_nat (stack_top st - 2) = Some under ->
  stack st !! Z.to_nat (stack_top st - 1) = Some top ->
  sv_t under <> _MMR_STACK_PROOF ->
  _mmr_pos_height_in_tree (u64 (sv_position under + 1)) = Some next_height ->
  next_height <= sv_height under ->
  sv_position top = u64 (sv_position under
                         + _mmr_sibling_offset (sv_height under)) ->
  fstep mmr_size st
  = Continue
      (mk_state
         (<[Z.to_nat (stack_top st - 2) :=
              mk_stack_value _MMR_STACK_NODE
                (snd (MMR_MERGE (sv_node under) (sv_node under)
                        (sv_node top)))
                (u64 (sv_position under
                      + _mmr_parent_offset (sv_height under)))
                (u32 (sv_height under + 1))]> (stack st))
         (stack_top st - 1) (next_peak_info st) (last_leaf_pos st)
         (has_last_leaf st) 3 pctx (leaf_reader_context st)).
Proof.
  intros Hcommand Htop Hunder Htp Hkind Hnext Hle Hsib.
  pose proof MMR_STACK_SIZE_range as Hsize.
  unfold mmr_verify_step. rewrite Hcommand.
  cbn [Z.eqb Pos.eqb ERROR_NO_MORE_COMMANDS negb].
  unfold case_3, set_stack.
  cbn [stack stack_top proof_reader_context next_peak_info last_leaf_pos
       has_last_leaf leaf_reader_context command].
  destruct (Z.ltb_spec (stack_top st) 2); [lia |].
  rewrite (u32_small (stack_top st - 2)), (u32_small (stack_top st - 1))
    by lia.
  rewrite !stack_get_in_range, Hunder, Htp by lia.
  destruct (Z.eqb_spec (sv_t under) _MMR_STACK_PROOF); [congruence |].
  rewrite Hnext.
  destruct (Z.gtb_spec next_height (sv_height under)); [lia |].
  rewrite <- Hsib, Z.eqb_refl. cbn [negb andb].
  rewrite stack_set_defined
    by (try lia; apply lookup_lt_is_Some; eauto).
  reflexivity.
Qed.

(** An iteration on opcode 4 that merges two peaks. *)
Lemma step_opcode_4 mmr_size (st : fstate) pctx under top :
  MMR_COMMAND_READER (proof_reader_context st) (command st) = (0, pctx, 4) ->
  2 <= stack_top st <= MMR_STACK_SIZE ->
  stack st !! Z.to_nat (stack_top st - 2) = Some under ->
  stack st !! Z.to_nat (stack_top st - 1) = Some top ->
  sv_t under = _MMR_STACK_PEAK -> sv_t top = _MMR_STACK_PEAK ->
  fstep mmr_size st
  = Continue
      (mk_state
         (<[Z.to_nat (stack_top st - 2) :=
              mk_stack_value _MMR_STACK_PEAK
                (snd (MMR_MERGE_PEAKS (sv_node under) (sv_node top)
                        (sv_node under)))
                (sv_position under) 0]> (stack st))
         (stack_top st - 1) (next_peak_info st) (last_leaf_pos st)
         (has_last_leaf st) 4 pctx (leaf_reader_context st)).
Proof.
  intros Hcommand Htop Hunder Htp Hkind Hkind'.
  pose proof MMR_STACK_SIZE_range as Hsize.
  unfold mmr_verify_step. rewrite Hcommand.
  cbn [Z.eqb Pos.eqb ERROR_NO_MORE_COMMANDS negb].
  unfold case_4, set_stack.
  cbn [stack stack_top proof_reader_context next_peak_info last_leaf_pos
       has_last_leaf leaf_reader_context command].
  destruct (Z.ltb_spec (stack_top st) 2); [lia |].
  rewrite (u32_small (stack_top st - 2)), (u32_small (stack_top st - 1))
    by lia.
  rewrite !stack_get_in_range, Hunder, Htp by lia.
  rewrite Hkind, Hkind'. cbn [Z.eqb Pos.eqb _MMR_STACK_PEAK negb orb].
  rewrite stack_set_defined
    by (try lia; apply lookup_lt_is_Some; eauto).
  reflexivity.
Qed.

(** An iteration on opcode 5 that marks the node under the cursor. *)
Lemma step_opcode_5_here mmr_size (st : fstate) pctx top :
  MMR_COMMAND_READER (proof_reader_context st) (command st) = (0, pctx, 5) ->
  1 <= stack_top st <= MMR_STACK_SIZE ->
  stack st !! Z.to_nat (stack_top st - 1) = Some top ->
  sv_t top <> _MMR_STACK_PROOF ->
  peak_present (next_peak_info st) <> 0 ->
  peak_pos (next_peak_info st) = sv_position top ->
  fstep mmr_size st
  = Continue
      (mk_state
         (<[Z.to_nat (stack_top st - 1) :=
              mk_stack_value _MMR_STACK_PEAK (sv_node top) (sv_position top)
                (sv_height top)]> (stack st))
         (stack_top st)
         (snd (_mmr_get_right_peak (next_peak_info st) mmr_size))
         (last_leaf_pos st) (has_last_leaf st) 5 pctx
         (leaf_reader_context st)).
Proof.
  intros Hcommand Htop Htp Hkind Hpresent Hhere.
  pose proof MMR_STACK_SIZE_range as Hsize.
  unfold mmr_verify_step. rewrite Hcommand.
  cbn [Z.eqb Pos.eqb ERROR_NO_MORE_COMMANDS negb].
  unfold case_5, case_5_retag.
  cbn [stack stack_top proof_reader_context next_peak_info last_leaf_pos
       has_last_leaf leaf_reader_context command].
  destruct (Z.ltb_spec (stack_top st) 1); [lia |].
  rewrite (u32_small (stack_top st - 1)) by lia.
  rewrite stack_get_in_range, Htp by lia.
  destruct (Z.eqb_spec (sv_t top) _MMR_STACK_PROOF); [congruence |].
  cbn [negb].
  rewrite (peak_seek_loop_finds mmr_size (sv_position top) 0 PEAK_SEEK_FUEL
             (next_peak_info st))
    by (try (unfold PEAK_SEEK_FUEL; lia); try (intros j Hj; lia);
        right; exact Hhere).
  change (advance_peak mmr_size 0 (next_peak_info st))
    with (next_peak_info st).
  destruct (Z.eqb_spec (peak_present (next_peak_info st)) 0); [congruence |].
  rewrite stack_set_defined
    by (try lia; apply lookup_lt_is_Some; eauto).
  reflexivity.
Qed.

End Forwards.

(** ** A whole run: three leaves of an MMR of four nodes *)

Section ThreeLeaves.

Variable MMR_MERGE : mmr_node_t -> mmr_node_t -> mmr_node_t -> Z * mmr_node_t.
Variable MMR_MERGE_PEAKS :
  mmr_node_t -> mmr_node_t -> mmr_node_t -> Z * mmr_node_t.
Variables a b c : list byte.

Let leaves : list byte :=
  leaf_record 0 a ++ leaf_record 1 b ++ leaf_record 3 c.
Let proof : list byte := [x01; x01; x03; x05; x01; x05; x04].
Let leaves_length : Z := Z.of_nat (length leaves).
Let node_a : mmr_node_t :=
  mk_node MMR_NODE_TYPE_POINTER (a ++ leaf_record 1 b ++ leaf_record 3 c)
    (Z.of_nat (length a)).
Let node_b : mmr_node_t :=
  mk_node MMR_NODE_TYPE_POINTER (b ++ leaf_record 3 c) (Z.of_nat (length b)).
Let node_c : mmr_node_t :=
  mk_node MMR_NODE_TYPE_POINTER (c ++ []) (Z.of_nat (length c)).
Let node_ab : mmr_node_t := snd (MMR_MERGE node_a node_a node_b).
Let node_root : mmr_node_t := snd (MMR_MERGE_PEAKS node_ab node_c node_ab).

Hypothesis Ha : Z.of_nat (length a) < 2 ^ 16.
Hypothesis Hb : Z.of_nat (length b) < 2 ^ 16.
Hypothesis Hc : Z.of_nat (length c) < 2 ^ 16.

Lemma three_leaves_length :
  leaves_length
  = 30 + Z.of_nat (length a) + Z.of_nat (length b) + Z.of_nat (length c).
Proof.
  unfold leaves_length, leaves. rewrite !length_app, !leaf_record_length. lia.
Qed.

Lemma three_leaves_reads out_node out_position :
  _mmr_default_leaf_iter_read (mk_reader leaves leaves_length 0)
    out_node out_position
  = (0, mk_reader leaves leaves_length (10 + Z.of_nat (length a)),
     node_a, 0)
  /\ _mmr_default_leaf_iter_read
       (mk_reader leaves leaves_length (10 + Z.of_nat (length a)))
       out_node out_position
     = (0,
        mk_reader leaves leaves_length
          (20 + Z.of_nat (length a) + Z.of_nat (length b)),
        node_b, 1)
  /\ _mmr_default_leaf_iter_read
       (mk_reader leaves leaves_length
          (20 + Z.of_nat (length a) + Z.of_nat (length b)))
       out_node out_position
     = (0, mk_reader leaves leaves_length leaves_length, node_c, 3)
  /\ _mmr_default_leaf_iter_read
       (mk_reader leaves leaves_length leaves_length) out_node out_position
     = (ERROR_NO_MORE_LEAFS, mk_reader leaves leaves_length leaves_length,
        out_node, out_position).
Proof.
  pose proof three_leaves_length as Hlen.
  split; [| split; [| split]].
  - pose proof (leaf_record_read_eq [] 0 a
                  (leaf_record 1 b ++ leaf_record 3 c) out_node out_position
                  ltac:(lia) Ha) as H.
    cbn [app length] in H. change (Z.of_nat 0) with 0 in H.
    fold leaves in H. fold leaves_length in H.
    rewrite H by lia. reflexivity.
  - pose proof (leaf_record_read_eq (leaf_record 0 a) 1 b (leaf_record 3 c)
                  out_node out_position ltac:(lia) Hb) as H.
    cbv zeta in H. fold leaves in H. fold leaves_length in H.
    rewrite leaf_record_length in H.
    replace (Z.of_nat (10 + length a)) with (10 + Z.of_nat (length a)) in H
      by lia.
    rewrite H by lia.
    replace (10 + Z.of_nat (length a) + 10 + Z.of_nat (length b))
      with (20 + Z.of_nat (length a) + Z.of_nat (length b)) by ring.
    reflexivity.
  - pose proof (leaf_record_read_eq (leaf_record 0 a ++ leaf_record 1 b) 3 c
                  [] out_node out_position ltac:(lia) Hc) as H.
    cbv zeta in H.
    replace ((leaf_record 0 a ++ leaf_record 1 b) ++ leaf_record 3 c ++ [])
      with leaves in H
      by (unfold leaves; rewrite app_nil_r, <- app_assoc; reflexivity).
    fold leaves_length in H.
    rewrite length_app, !leaf_record_length in H.
    replace (Z.of_nat (10 + length a + (10 + length b)))
      with (20 + Z.of_nat (length a) + Z.of_nat (length b)) in H by lia.
    rewrite H by lia.
    replace (20 + Z.of_nat (length a) + Z.of_nat (length b) + 10
             + Z.of_nat (length c)) with leaves_length by lia.
    reflexivity.
  - destruct (default_leaf_iter_read_spec
                (mk_reader leaves leaves_length leaves_length) out_node
                out_position ltac:(cbn [index buffer_length]; lia)
                ltac:(cbn [buffer_length]; lia)) as [Hnone _].
    apply Hnone. cbn [index buffer_length]. lia.
Qed.

Abbreviation tstep :=
  (mmr_verify_step MMR_MERGE MMR_MERGE_PEAKS _mmr_default_leaf_iter_read
     _mmr_default_command_read _mmr_default_buffer_read_node).

Lemma three_leaves_trace root root_length :
  mmr_verify MMR_MERGE MMR_MERGE_PEAKS _mmr_default_leaf_iter_read
    _mmr_default_command_read _mmr_default_buffer_read_node 8 root
    root_length 4 (mk_reader proof 7 0) (mk_reader leaves leaves_length 0)
  = Returns
      (if negb (root_length =? node_length node_root)
       then ERROR_INVALID_PROOF
       else if negb (MMR_MEMCMP root (mmr_node_value node_root) root_length
                     =? 0)
            then ERROR_INVALID_PROOF
            else 0).
Proof.
  pose proof three_leaves_length as Hlen.
  unfold mmr_verify.
  change (_mmr_left_peak_height_pos 4) with (Some (mk_peak 2 1 1)).
  change (4 =? 0) with false. cbv iota.
  set (P := fun i => mk_reader proof 7 i).
  set (L := fun i => mk_reader leaves leaves_length i).
  set (i1 := 10 + Z.of_nat (length a)).
  set (i2 := 20 + Z.of_nat (length a) + Z.of_nat (length b)).
  set (s0 := replicate (Z.to_nat MMR_STACK_SIZE) uninit_stack_value).
  set (e_a := mk_stack_value _MMR_STACK_NODE node_a 0 0).
  set (e_b := mk_stack_value _MMR_STACK_NODE node_b 1 0).
  set (e_ab := mk_stack_value _MMR_STACK_NODE node_ab 2 1).
  set (p_ab := mk_stack_value _MMR_STACK_PEAK node_ab 2 1).
  set (e_c := mk_stack_value _MMR_STACK_NODE node_c 3 0).
  set (p_c := mk_stack_value _MMR_STACK_PEAK node_c 3 0).
  set (p_root := mk_stack_value _MMR_STACK_PEAK node_root 2 0).
  set (s1 := <[0%nat := e_a]> s0). set (s2 := <[1%nat := e_b]> s1).
  set (s3 := <[0%nat := e_ab]> s2). set (s4 := <[0%nat := p_ab]> s3).
  set (s5 := <[1%nat := e_c]> s4). set (s6 := <[1%nat := p_c]> s5).
  set (s7 := <[0%nat := p_root]> s6).
  set (st0 := initial_state (mk_peak 2 1 1) (P 0) (L 0)).
  set (st1 := mk_state s1 1 (mk_peak 2 1 1) 0 1 1 (P 1) (L i1)).
  set (st2 := mk_state s2 2 (mk_peak 2 1 1) 1 1 1 (P 2) (L i2)).
  set (st3 := mk_state s3 1 (mk_peak 2 1 1) 1 1 3 (P 3) (L i2)).
  set (st4 := mk_state s4 1 (mk_peak 3 0 1) 1 1 5 (P 4) (L i2)).
  set (st5 := mk_state s5 2 (mk_peak 3 0 1) 3 1 1 (P 5) (L leaves_length)).
  set (st6 := mk_state s6 2 (mk_peak 3 0 0) 3 1 5 (P 6) (L leaves_length)).
  set (st7 := mk_state s7 1 (mk_peak 3 0 0) 3 1 4 (P 7) (L leaves_length)).
  assert (tstep 4 st0 = Continue st1) as H0.
  { refine (step_opcode_1 _ _ _ _ _ 4 st0 (P 1) (L i1) uninit_stack_value
              node_a 0 _ _ _ _ _ _ _).
    - reflexivity.
    - unfold MMR_STACK_SIZE. cbn. lia.
    - reflexivity.
    - exact (proj1 (three_leaves_reads _ _)).
    - left. reflexivity.
    - lia.
    - reflexivity. }
  assert (tstep 4 st1 = Continue st2) as H1.
  { refine (step_opcode_1 _ _ _ _ _ 4 st1 (P 2) (L i2) uninit_stack_value
              node_b 1 _ _ _ _ _ _ _).
    - reflexivity.
    - unfold MMR_STACK_SIZE. cbn. lia.
    - reflexivity.
    - exact (proj1 (proj2 (three_leaves_reads _ _))).
    - right. cbn. lia.
    - lia.
    - reflexivity. }
  assert (tstep 4 st2 = Continue st3) as H2.
  { refine (step_opcode_3_left _ _ _ _ _ 4 st2 (P 3) e_a e_b 0 _ _ _ _ _ _ _
              _).
    - reflexivity.
    - unfold MMR_STACK_SIZE. cbn. lia.
    - reflexivity.
    - reflexivity.
    - discriminate.
    - reflexivity.
    - cbn. lia.
    - reflexivity. }
  assert (tstep 4 st3 = Continue st4) as H3.
  { refine (step_opcode_5_here _ _ _ _ _ 4 st3 (P 4) e_ab _ _ _ _ _ _).
    - reflexivity.
    - unfold MMR_STACK_SIZE. cbn. lia.
    - reflexivity.
    - discriminate.
    - discriminate.
    - reflexivity. }
  assert (tstep 4 st4 = Continue st5) as H4.
  { refine (step_opcode_1 _ _ _ _ _ 4 st4 (P 5) (L leaves_length) e_b
              node_c 3 _ _ _ _ _ _ _).
    - reflexivity.
    - unfold MMR_STACK_SIZE. cbn. lia.
    - reflexivity.
    - exact (proj1 (proj2 (proj2 (three_leaves_reads _ _)))).
    - right. cbn. lia.
    - lia.
    - reflexivity. }
  assert (tstep 4 st5 = Continue st6) as H5.
  { refine (step_opcode_5_here _ _ _ _ _ 4 st5 (P 6) e_c _ _ _ _ _ _).
    - reflexivity.
    - unfold MMR_STACK_SIZE. cbn. lia.
    - reflexivity.
    - discriminate.
    - discriminate.
    - reflexivity. }
  assert (tstep 4 st6 = Continue st7) as H6.
  { refine (step_opcode_4 _ _ _ _ _ 4 st6 (P 7) p_ab p_c _ _ _ _ _ _).
    - reflexivity.
    - unfold MMR_STACK_SIZE. cbn. lia.
    - reflexivity.
    - reflexivity.
    - reflexivity.
    - reflexivity. }
  assert (tstep 4 st7 = Break st7) as H7 by reflexivity.
  cbn [mmr_verify_loop]. rewrite H0, H1, H2, H3, H4, H5, H6, H7.
  unfold mmr_verify_finish.
  cbn [st7 stack_top leaf_reader_context stack Z.eqb Pos.eqb negb].
  unfold L. rewrite (proj2 (proj2 (proj2 (three_leaves_reads _ _)))).
  cbn [ERROR_NO_MORE_LEAFS Z.eqb].
  change (stack_get s7 0) with (Some p_root).
  cbn [p_root sv_node].
  destruct (negb (root_length =? node_length node_root)); [reflexivity |].
  destruct (negb (MMR_MEMCMP root (mmr_node_value node_root) root_length
                  =? 0)); reflexivity.
Qed.

End ThreeLeaves.

Lemma node_bytes_exact t (bytes : list byte) :
  node_bytes (mk_node t bytes (Z.of_nat (length bytes))) = bytes.
Proof.
  pose proof (node_bytes_prefix t bytes []) as H.
  rewrite app_nil_r in H. exact H.
Qed.

(** X24.  A whole verification.  On the MMR of four nodes, the leaf
    buffer holds the leaves [a], [b] and [c] at the positions 0, 1 and
    3, and the proof pushes and merges the first two, marks their parent
    as a peak, pushes and marks the third and merges the peaks.  The
    harness returns 0 exactly when [root] is, in its first 32 bytes, the
    digest of [c] followed by the digest of [a] followed by [b], and
    [root_length] is 32: the peaks are bagged from the right, a parent
    hashes its left child first.  Else it returns
    [ERROR_INVALID_PROOF]. *)
Theorem three_leaves_root (a b c root : list byte) (root_length : Z) :
  Z.of_nat (length a) < 2 ^ 16 -> Z.of_nat (length b) < 2 ^ 16 ->
  Z.of_nat (length c) < 2 ^ 16 ->
  let leaf bytes :=
    mk_node MMR_NODE_TYPE_POINTER bytes (Z.of_nat (length bytes)) in
  let left := snd (mmr_blake2b_merge uninit_node (leaf a) (leaf b)) in
  let top := snd (mmr_blake2b_merge uninit_node (leaf c) left) in
  let leaves := leaf_record 0 a ++ leaf_record 1 b ++ leaf_record 3 c in
  run_mmr_verify root root_length 4 [x01; x01; x03; x05; x01; x05; x04] 7
    leaves (Z.of_nat (length leaves))
  = Returns
      (if (root_length =? 32) && (MMR_MEMCMP root (node_value top) 32 =? 0)
       then 0 else ERROR_INVALID_PROOF).
Proof.
  intros Ha Hb Hc leaf left top leaves.
  unfold run_mmr_verify, mmr_default_buffer_reader_init. cbn [snd].
  change (S (Z.to_nat 7)) with 8%nat.
  pose proof (three_leaves_trace mmr_blake2b_merge mmr_blake2b_merge a b c
                Ha Hb Hc root root_length) as Htrace.
  cbv zeta in Htrace. fold leaves in Htrace. rewrite Htrace. clear Htrace.
  set (node_a := mk_node MMR_NODE_TYPE_POINTER
                   (a ++ leaf_record 1 b ++ leaf_record 3 c)
                   (Z.of_nat (length a))).
  set (node_b := mk_node MMR_NODE_TYPE_POINTER (b ++ leaf_record 3 c)
                   (Z.of_nat (length b))).
  set (node_c := mk_node MMR_NODE_TYPE_POINTER (c ++ [])
                   (Z.of_nat (length c))).
  assert (mmr_blake2b_merge node_a node_a node_b
          = mmr_blake2b_merge uninit_node (leaf a) (leaf b)) as Hleft.
  { apply merge_bytes_ext. unfold node_a, node_b, leaf.
    rewrite !node_bytes_prefix, !node_bytes_exact. reflexivity. }
  rewrite Hleft. fold left.
  assert (mmr_blake2b_merge left node_c left
          = mmr_blake2b_merge uninit_node (leaf c) left) as Htop.
  { apply merge_bytes_ext. unfold node_c, leaf.
    rewrite node_bytes_prefix, node_bytes_exact. reflexivity. }
  rewrite Htop. fold top.
  destruct (merge_absorbs uninit_node (leaf c) left)
    as (_ & _ & digest & _ & _ & _ & _ & _ & _ & _ & Hmerge).
  assert (top = mk_node MMR_NODE_TYPE_BUFFER digest 32) as Hnode
    by (unfold top; rewrite Hmerge; reflexivity).
  rewrite Hnode. cbn [node_length mmr_node_value node_value].
  destruct (Z.eqb_spec root_length 32) as [-> | Hne]; cbn [negb andb];
    [| reflexivity].
  destruct (MMR_MEMCMP root digest 32 =? 0); reflexivity.
Qed.

(** The leaves of one byte each, and the root that fits them. *)
Lemma three_leaves_root_witness :
  run_mmr_verify
    (node_value
       (snd (mmr_blake2b_merge uninit_node
               (mk_node MMR_NODE_TYPE_POINTER [x0c] 1)
               (snd (mmr_blake2b_merge uninit_node
                       (mk_node MMR_NODE_TYPE_POINTER [x0a] 1)
                       (mk_node MMR_NODE_TYPE_POINTER [x0b] 1))))))
    32 4 [x01; x01; x03; x05; x01; x05; x04] 7
    (leaf_record 0 [x0a] ++ leaf_record 1 [x0b] ++ leaf_record 3 [x0c]) 33
  = Returns 0.
Proof.
  rewrite (three_leaves_root [x0a] [x0b] [x0c] _ 32
             ltac:(cbn; lia) ltac:(cbn; lia) ltac:(cbn; lia)).
  cbn [Z.eqb Pos.eqb andb length Z.of_nat Pos.of_succ_nat Pos.succ].
  assert (forall s, MMR_MEMCMP s s 32 = 0) as ->.
  { intros s. unfold MMR_MEMCMP. apply memcmp_zero_iff. reflexivity. }
  reflexivity.
Defined.

(** ** A whole run: one leaf of an MMR of three nodes *)

Section ForwardsMore.

Context {PCtx LCtx : Type}.
Variable MMR_MERGE : mmr_node_t -> mmr_node_t -> mmr_node_t -> Z * mmr_node_t.
Variable MMR_MERGE_PEAKS :
  mmr_node_t -> mmr_node_t -> mmr_node_t -> Z * mmr_node_t.
Variable MMR_LEAF_READER : LCtx -> mmr_node_t -> Z -> Z * LCtx * mmr_node_t * Z.
Variable MMR_COMMAND_READER : PCtx -> Z -> Z * PCtx * Z.
Variable MMR_PROOF_READER : PCtx -> mmr_node_t -> Z * PCtx * mmr_node_t.

(** An iteration on opcode 3 that merges. *)
Lemma step_opcode_3 mmr_size (st : verify_state PCtx LCtx) pctx under top
    next_height :
  MMR_COMMAND_READER (proof_reader_context st) (command st) = (0, pctx, 3) ->
  2 <= stack_top st <= MMR_STACK_SIZE ->
  stack st !! Z.to_nat (stack_top st - 2) = Some under ->
  stack st !! Z.to_nat (stack_top st - 1) = Some top ->
  let anchor := if sv_t under =? _MMR_STACK_PROOF then top else under in
  let other := if sv_t under =? _MMR_STACK_PROOF then under else top in
  let pos := sv_position anchor in
  let height := sv_height anchor in
  _mmr_pos_height_in_tree (u64 (pos + 1)) = Some next_height ->
  let sib_pos :=
    if next_height >? height then u64 (pos - _mmr_sibling_offset height)
    else u64 (pos + _mmr_sibling_offset height) in
  let parent_pos :=
    if next_height >? height then u64 (pos + 1)
    else u64 (pos + _mmr_parent_offset height) in
  let merged :=
    if next_height >? height
    then snd (MMR_MERGE (sv_node under) (sv_node other) (sv_node anchor))
    else snd (MMR_MERGE (sv_node under) (sv_node anchor) (sv_node other)) in
  sv_t other = _MMR_STACK_PROOF \/ sv_position other = sib_pos ->
  mmr_verify_step MMR_MERGE MMR_MERGE_PEAKS MMR_LEAF_READER
    MMR_COMMAND_READER MMR_PROOF_READER mmr_size st
  = Continue
      (mk_state
         (<[Z.to_nat (stack_top st - 2) :=
              mk_stack_value _MMR_STACK_NODE merged parent_pos
                (u32 (height + 1))]> (stack st))
         (stack_top st - 1) (next_peak_info st) (last_leaf_pos st)
         (has_last_leaf st) 3 pctx (leaf_reader_context st)).
Proof.
  intros Hcommand Htop Hunder Htp anchor other pos height Hnext sib_pos
    parent_pos merged Hfits.
  pose proof MMR_STACK_SIZE_range as Hsize.
  unfold mmr_verify_step. rewrite Hcommand.
  cbn [Z.eqb Pos.eqb ERROR_NO_MORE_COMMANDS negb].
  unfold case_3, set_stack.
  cbn [stack stack_top proof_reader_context next_peak_info last_leaf_pos
       has_last_leaf leaf_reader_context command].
  destruct (Z.ltb_spec (stack_top st) 2); [lia |].
  rewrite (u32_small (stack_top st - 2)), (u32_small (stack_top st - 1))
    by lia.
  rewrite !stack_get_in_range, Hunder, Htp by lia.
  subst anchor other pos height sib_pos parent_pos merged.
  destruct (sv_t under =? _MMR_STACK_PROOF); cbv iota beta in *;
    rewrite Hnext;
    destruct (next_height >? _); cbv iota beta in *;
    (destruct Hfits as [-> | <-];
     [ cbn [Z.eqb Pos.eqb _MMR_STACK_PROOF negb]; rewrite andb_false_r
     | rewrite Z.eqb_refl; cbn [negb andb] ]);
    rewrite stack_set_defined
      by (try lia; apply lookup_lt_is_Some; eauto);
    reflexivity.
Qed.

(** The default command reader at the end of its buffer. *)
Lemma command_read_end (buf : list byte) (out : Z) :
  Z.of_nat (length buf) < 2 ^ 32 ->
  _mmr_default_command_read
    (mk_reader buf (Z.of_nat (length buf)) (Z.of_nat (length buf))) out
  = (ERROR_NO_MORE_COMMANDS,
     mk_reader buf (Z.of_nat (length buf)) (Z.of_nat (length buf)), out).
Proof.
  intros Hbuf.
  destruct (default_command_read_spec
              (mk_reader buf (Z.of_nat (length buf)) (Z.of_nat (length buf)))
              out ltac:(cbn [index]; lia) ltac:(cbn [buffer_length]; lia))
    as [Hend _].
  apply Hend. cbn [index buffer_length]. lia.
Qed.

End ForwardsMore.

Lemma byte_at_after (front rest : list byte) (k : Z) :
  0 <= k ->
  byte_at (front ++ rest) (Z.of_nat (length front) + k) = byte_at rest k.
Proof.
  intros Hk. rewrite byte_at_app_r by lia. f_equal. lia.
Qed.

Lemma command_read_at (buf : list byte) (i out : Z) :
  0 <= i < Z.of_nat (length buf) -> Z.of_nat (length buf) < 2 ^ 32 ->
  _mmr_default_command_read (mk_reader buf (Z.of_nat (length buf)) i) out
  = (0, mk_reader buf (Z.of_nat (length buf)) (i + 1), byte_at buf i).
Proof.
  intros Hi Hbuf.
  destruct (default_command_read_spec
              (mk_reader buf (Z.of_nat (length buf)) i) out
              ltac:(cbn [index]; lia) ltac:(cbn [buffer_length]; lia))
    as [_ Hmore].
  apply Hmore. cbn [index buffer_length]. lia.
Qed.

Section OneOfTwo.

Variable MMR_MERGE : mmr_node_t -> mmr_node_t -> mmr_node_t -> Z * mmr_node_t.
Variable MMR_MERGE_PEAKS :
  mmr_node_t -> mmr_node_t -> mmr_node_t -> Z * mmr_node_t.
Variables leaf_bytes sibling : list byte.

Hypothesis Hleaf : Z.of_nat (length leaf_bytes) < 2 ^ 16.
Hypothesis Hsibling : Z.of_nat (length sibling) < 2 ^ 16.

Abbreviation ostep :=
  (mmr_verify_step MMR_MERGE MMR_MERGE_PEAKS _mmr_default_leaf_iter_read
     _mmr_default_command_read _mmr_default_buffer_read_node).

Let node_leaf : mmr_node_t :=
  mk_node MMR_NODE_TYPE_POINTER (leaf_bytes ++ [])
    (Z.of_nat (length leaf_bytes)).

Lemma one_leaf_reads position out_node out_position :
  0 <= position < 2 ^ 64 ->
  let leaves := leaf_record position leaf_bytes in
  let leaves_length := Z.of_nat (length leaves) in
  _mmr_default_leaf_iter_read (mk_reader leaves leaves_length 0)
    out_node out_position
  = (0, mk_reader leaves leaves_length leaves_length, node_leaf, position)
  /\ _mmr_default_leaf_iter_read
       (mk_reader leaves leaves_length leaves_length) out_node out_position
     = (ERROR_NO_MORE_LEAFS, mk_reader leaves leaves_length leaves_length,
        out_node, out_position).
Proof.
  intros Hposition leaves leaves_length.
  assert (leaves_length = 10 + Z.of_nat (length leaf_bytes)) as Hlen
    by (unfold leaves_length, leaves; rewrite leaf_record_length; lia).
  split.
  - pose proof (leaf_record_read_eq [] position leaf_bytes [] out_node
                  out_position Hposition Hleaf) as H.
    cbv zeta in H. cbn [app length] in H. change (Z.of_nat 0) with 0 in H.
    rewrite app_nil_r in H. fold leaves in H. fold leaves_length in H.
    rewrite H by lia.
    replace (0 + 10 + Z.of_nat (length leaf_bytes)) with leaves_length by lia.
    reflexivity.
  - destruct (default_leaf_iter_read_spec
                (mk_reader leaves leaves_length leaves_length) out_node
                out_position ltac:(cbn [index buffer_length]; lia)
                ltac:(cbn [buffer_length]; lia)) as [Hnone _].
    apply Hnone. cbn [index buffer_length]. lia.
Qed.

(** The leaf is the left child: the proof pushes it, pushes the
    sibling, merges and marks the peak. *)
Lemma left_leaf_trace root root_length (n : nat) :
  let proof := [x01; x02] ++ node_record sibling ++ [x03; x05] in
  let leaves := leaf_record 0 leaf_bytes in
  let node_sibling :=
    mk_node MMR_NODE_TYPE_POINTER (sibling ++ [x03; x05])
      (Z.of_nat (length sibling)) in
  let parent := snd (MMR_MERGE node_leaf node_leaf node_sibling) in
  mmr_verify MMR_MERGE MMR_MERGE_PEAKS _mmr_default_leaf_iter_read
    _mmr_default_command_read _mmr_default_buffer_read_node (5 + n) root
    root_length 3 (mk_reader proof (Z.of_nat (length proof)) 0)
    (mk_reader leaves (Z.of_nat (length leaves)) 0)
  = Returns
      (if negb (root_length =? node_length parent)
       then ERROR_INVALID_PROOF
       else if negb (MMR_MEMCMP root (mmr_node_value parent) root_length
                     =? 0)
            then ERROR_INVALID_PROOF
            else 0).
Proof.
  intros proof leaves node_sibling parent.
  set (proof_length := Z.of_nat (length proof)).
  set (leaves_length := Z.of_nat (length leaves)).
  assert (proof_length = 6 + Z.of_nat (length sibling)) as Hplen.
  { unfold proof_length, proof.
    rewrite !length_app, node_record_length. cbn [length]. lia. }
  assert (proof = ([x01; x02] ++ node_record sibling) ++ [x03; x05])
    as Hsplit by (unfold proof; rewrite <- app_assoc; reflexivity).
  assert (Z.of_nat (length ([x01; x02] ++ node_record sibling))
          = 4 + Z.of_nat (length sibling)) as Hfront
    by (rewrite length_app, node_record_length; cbn [length]; lia).
  set (P := fun i => mk_reader proof proof_length i).
  set (L := fun i => mk_reader leaves leaves_length i).
  set (i1 := 4 + Z.of_nat (length sibling)).
  assert (forall out, _mmr_default_command_read (P 0) out = (0, P 1, 1))
    as Hc0.
  { intros out. unfold P, proof_length.
    rewrite command_read_at by (fold proof_length; lia). reflexivity. }
  assert (forall out, _mmr_default_command_read (P 1) out = (0, P 2, 2))
    as Hc1.
  { intros out. unfold P, proof_length.
    rewrite command_read_at by (fold proof_length; lia). reflexivity. }
  assert (forall out,
            _mmr_default_buffer_read_node (P 2) out = (0, P i1, node_sibling))
    as Hnode.
  { intros out.
    pose proof (node_record_read_eq [x01; x02] sibling [x03; x05] out
                  Hsibling) as H.
    cbv zeta in H. fold proof in H. fold proof_length in H.
    cbn [length] in H. change (Z.of_nat 2) with 2 in H.
    unfold P. rewrite H by lia. unfold i1.
    replace (2 + 2 + Z.of_nat (length sibling))
      with (4 + Z.of_nat (length sibling)) by ring.
    reflexivity. }
  assert (forall out,
            _mmr_default_command_read (P i1) out = (0, P (i1 + 1), 3))
    as Hc2.
  { intros out. unfold P, proof_length, i1.
    rewrite command_read_at by (fold proof_length; lia).
    rewrite Hsplit at 3. rewrite <- Hfront.
    rewrite <- (Z.add_0_r (Z.of_nat (length ([x01; x02]
                                      ++ node_record sibling)))) at 2.
    rewrite byte_at_after by lia. reflexivity. }
  assert (forall out,
            _mmr_default_command_read (P (i1 + 1)) out
            = (0, P (i1 + 2), 5)) as Hc3.
  { intros out. unfold P, proof_length, i1.
    rewrite command_read_at by (fold proof_length; lia).
    rewrite Hsplit at 3. rewrite <- Hfront, byte_at_after by lia.
    replace (Z.of_nat (length ([x01; x02] ++ node_record sibling)) + 1 + 1)
      with (Z.of_nat (length ([x01; x02] ++ node_record sibling)) + 2)
      by ring.
    reflexivity. }
  assert (forall out,
            _mmr_default_command_read (P (i1 + 2)) out
            = (ERROR_NO_MORE_COMMANDS, P (i1 + 2), out)) as Hc4.
  { intros out. unfold P, i1.
    replace (4 + Z.of_nat (length sibling) + 2) with proof_length by lia.
    apply command_read_end. fold proof_length. lia. }
  pose proof (one_leaf_reads 0 uninit_node 0 ltac:(lia)) as Hread.
  cbv zeta in Hread. fold leaves in Hread. fold leaves_length in Hread.
  unfold mmr_verify.
  change (_mmr_left_peak_height_pos 3) with (Some (mk_peak 2 1 1)).
  change (3 =? 0) with false. cbv iota.
  set (s0 := replicate (Z.to_nat MMR_STACK_SIZE) uninit_stack_value).
  set (e_leaf := mk_stack_value _MMR_STACK_NODE node_leaf 0 0).
  set (e_sibling := mk_stack_value _MMR_STACK_PROOF node_sibling 0 0).
  set (e_parent := mk_stack_value _MMR_STACK_NODE parent 2 1).
  set (p_parent := mk_stack_value _MMR_STACK_PEAK parent 2 1).
  set (s1 := <[0%nat := e_leaf]> s0). set (s2 := <[1%nat := e_sibling]> s1).
  set (s3 := <[0%nat := e_parent]> s2). set (s4 := <[0%nat := p_parent]> s3).
  fold (P 0) (L 0).
  set (st0 := initial_state (mk_peak 2 1 1) (P 0) (L 0)).
  set (st1 := mk_state s1 1 (mk_peak 2 1 1) 0 1 1 (P 1) (L leaves_length)).
  set (st2 := mk_state s2 2 (mk_peak 2 1 1) 0 1 2 (P i1) (L leaves_length)).
  set (st3 := mk_state s3 1 (mk_peak 2 1 1) 0 1 3 (P (i1 + 1))
                (L leaves_length)).
  set (st4 := mk_state s4 1 (mk_peak 2 1 0) 0 1 5 (P (i1 + 2))
                (L leaves_length)).
  assert (ostep 3 st0 = Continue st1) as H0.
  { refine (step_opcode_1 _ _ _ _ _ 3 st0 (P 1) (L leaves_length)
              uninit_stack_value node_leaf 0 _ _ _ _ _ _ _).
    - apply Hc0.
    - unfold MMR_STACK_SIZE. cbn. lia.
    - reflexivity.
    - exact (proj1 Hread).
    - left. reflexivity.
    - lia.
    - reflexivity. }
  assert (ostep 3 st1 = Continue st2) as H1.
  { refine (step_opcode_2 _ _ _ _ _ 3 st1 (P 2) (P i1) uninit_stack_value
              node_sibling _ _ _ _).
    - apply Hc1.
    - unfold MMR_STACK_SIZE. cbn. lia.
    - reflexivity.
    - apply Hnode. }
  assert (ostep 3 st2 = Continue st3) as H2.
  { refine (step_opcode_3 _ _ _ _ _ 3 st2 (P (i1 + 1)) e_leaf e_sibling 0
              _ _ _ _ _ _).
    - apply Hc2.
    - unfold MMR_STACK_SIZE. cbn. lia.
    - reflexivity.
    - reflexivity.
    - reflexivity.
    - left. reflexivity. }
  assert (ostep 3 st3 = Continue st4) as H3.
  { refine (step_opcode_5_here _ _ _ _ _ 3 st3 (P (i1 + 2)) e_parent
              _ _ _ _ _ _).
    - apply Hc3.
    - unfold MMR_STACK_SIZE. cbn. lia.
    - reflexivity.
    - discriminate.
    - discriminate.
    - reflexivity. }
  assert (ostep 3 st4 = Break st4) as H4.
  { unfold mmr_verify_step. cbn [st4 proof_reader_context command].
    rewrite Hc4. reflexivity. }
  cbn [Nat.add mmr_verify_loop]. rewrite H0, H1, H2, H3, H4.
  unfold mmr_verify_finish.
  cbn [st4 stack_top leaf_reader_context stack Z.eqb Pos.eqb negb].
  unfold L. rewrite (proj2 Hread).
  cbn [ERROR_NO_MORE_LEAFS Z.eqb].
  change (stack_get s4 0) with (Some p_parent).
  cbn [p_parent sv_node].
  destruct (negb (root_length =? node_length parent)); [reflexivity |].
  destruct (negb (MMR_MEMCMP root (mmr_node_value parent) root_length
                  =? 0)); reflexivity.
Qed.

(** The leaf is the right child: the proof pushes the sibling, pushes
    the leaf, merges and marks the peak. *)
Lemma right_leaf_trace root root_length (n : nat) :
  let proof := [x02] ++ node_record sibling ++ [x01; x03; x05] in
  let leaves := leaf_record 1 leaf_bytes in
  let node_sibling :=
    mk_node MMR_NODE_TYPE_POINTER (sibling ++ [x01; x03; x05])
      (Z.of_nat (length sibling)) in
  let parent := snd (MMR_MERGE node_sibling node_sibling node_leaf) in
  mmr_verify MMR_MERGE MMR_MERGE_PEAKS _mmr_default_leaf_iter_read
    _mmr_default_command_read _mmr_default_buffer_read_node (5 + n) root
    root_length 3 (mk_reader proof (Z.of_nat (length proof)) 0)
    (mk_reader leaves (Z.of_nat (length leaves)) 0)
  = Returns
      (if negb (root_length =? node_length parent)
       then ERROR_INVALID_PROOF
       else if negb (MMR_MEMCMP root (mmr_node_value parent) root_length
                     =? 0)
            then ERROR_INVALID_PROOF
            else 0).
Proof.
  intros proof leaves node_sibling parent.
  set (proof_length := Z.of_nat (length proof)).
  set (leaves_length := Z.of_nat (length leaves)).
  assert (proof_length = 6 + Z.of_nat (length sibling)) as Hplen.
  { unfold proof_length, proof.
    rewrite !length_app, node_record_length. cbn [length]. lia. }
  assert (proof = ([x02] ++ node_record sibling) ++ [x01; x03; x05])
    as Hsplit by (unfold proof; rewrite <- app_assoc; reflexivity).
  assert (Z.of_nat (length ([x02] ++ node_record sibling))
          = 3 + Z.of_nat (length sibling)) as Hfront
    by (rewrite length_app, node_record_length; cbn [length]; lia).
  set (P := fun i => mk_reader proof proof_length i).
  set (L := fun i => mk_reader leaves leaves_length i).
  set (i1 := 3 + Z.of_nat (length sibling)).
  assert (forall out, _mmr_default_command_read (P 0) out = (0, P 1, 2))
    as Hc0.
  { intros out. unfold P, proof_length.
    rewrite command_read_at by (fold proof_length; lia). reflexivity. }
  assert (forall out,
            _mmr_default_buffer_read_node (P 1) out = (0, P i1, node_sibling))
    as Hnode.
  { intros out.
    pose proof (node_record_read_eq [x02] sibling [x01; x03; x05] out
                  Hsibling) as H.
    cbv zeta in H. fold proof in H. fold proof_length in H.
    cbn [length] in H. change (Z.of_nat 1) with 1 in H.
    unfold P. rewrite H by lia. unfold i1.
    replace (1 + 2 + Z.of_nat (length sibling))
      with (3 + Z.of_nat (length sibling)) by ring.
    reflexivity. }
  assert (forall out,
            _mmr_default_command_read (P i1) out = (0, P (i1 + 1), 1))
    as Hc1.
  { intros out. unfold P, proof_length, i1.
    rewrite command_read_at by (fold proof_length; lia).
    rewrite Hsplit at 3. rewrite <- Hfront.
    rewrite <- (Z.add_0_r (Z.of_nat (length ([x02]
                                      ++ node_record sibling)))) at 2.
    rewrite byte_at_after by lia. reflexivity. }
  assert (forall out,
            _mmr_default_command_read (P (i1 + 1)) out
            = (0, P (i1 + 2), 3)) as Hc2.
  { intros out. unfold P, proof_length, i1.
    rewrite command_read_at by (fold proof_length; lia).
    rewrite Hsplit at 3. rewrite <- Hfront, byte_at_after by lia.
    replace (Z.of_nat (length ([x02] ++ node_record sibling)) + 1 + 1)
      with (Z.of_nat (length ([x02] ++ node_record sibling)) + 2)
      by ring.
    reflexivity. }
  assert (forall out,
            _mmr_default_command_read (P (i1 + 2)) out
            = (0, P (i1 + 3), 5)) as Hc3.
  { intros out. unfold P, proof_length, i1.
    rewrite command_read_at by (fold proof_length; lia).
    rewrite Hsplit at 3. rewrite <- Hfront, byte_at_after by lia.
    replace (Z.of_nat (length ([x02] ++ node_record sibling)) + 2 + 1)
      with (Z.of_nat (length ([x02] ++ node_record sibling)) + 3)
      by ring.
    reflexivity. }
  assert (forall out,
            _mmr_default_command_read (P (i1 + 3)) out
            = (ERROR_NO_MORE_COMMANDS, P (i1 + 3), out)) as Hc4.
  { intros out. unfold P, i1.
    replace (3 + Z.of_nat (length sibling) + 3) with proof_length by lia.
    apply command_read_end. fold proof_length. lia. }
  pose proof (one_leaf_reads 1 uninit_node 0 ltac:(lia)) as Hread.
  cbv zeta in Hread. fold leaves in Hread. fold leaves_length in Hread.
  unfold mmr_verify.
  change (_mmr_left_peak_height_pos 3) with (Some (mk_peak 2 1 1)).
  change (3 =? 0) with false. cbv iota.
  set (s0 := replicate (Z.to_nat MMR_STACK_SIZE) uninit_stack_value).
  set (e_leaf := mk_stack_value _MMR_STACK_NODE node_leaf 1 0).
  set (e_sibling := mk_stack_value _MMR_STACK_PROOF node_sibling 0 0).
  set (e_parent := mk_stack_value _MMR_STACK_NODE parent 2 1).
  set (p_parent := mk_stack_value _MMR_STACK_PEAK parent 2 1).
  set (s1 := <[0%nat := e_sibling]> s0). set (s2 := <[1%nat := e_leaf]> s1).
  set (s3 := <[0%nat := e_parent]> s2). set (s4 := <[0%nat := p_parent]> s3).
  fold (P 0) (L 0).
  set (st0 := initial_state (mk_peak 2 1 1) (P 0) (L 0)).
  set (st1 := mk_state s1 1 (mk_peak 2 1 1) 0 0 2 (P i1) (L 0)).
  set (st2 := mk_state s2 2 (mk_peak 2 1 1) 1 1 1 (P (i1 + 1))
                (L leaves_length)).
  set (st3 := mk_state s3 1 (mk_peak 2 1 1) 1 1 3 (P (i1 + 2))
                (L leaves_length)).
  set (st4 := mk_state s4 1 (mk_peak 2 1 0) 1 1 5 (P (i1 + 3))
                (L leaves_length)).
  assert (ostep 3 st0 = Continue st1) as H0.
  { refine (step_opcode_2 _ _ _ _ _ 3 st0 (P 1) (P i1) uninit_stack_value
              node_sibling _ _ _ _).
    - apply Hc0.
    - unfold MMR_STACK_SIZE. cbn. lia.
    - reflexivity.
    - apply Hnode. }
  assert (ostep 3 st1 = Continue st2) as H1.
  { refine (step_opcode_1 _ _ _ _ _ 3 st1 (P (i1 + 1)) (L leaves_length)
              uninit_stack_value node_leaf 1 _ _ _ _ _ _ _).
    - apply Hc1.
    - unfold MMR_STACK_SIZE. cbn. lia.
    - reflexivity.
    - exact (proj1 Hread).
    - left. reflexivity.
    - lia.
    - reflexivity. }
  assert (ostep 3 st2 = Continue st3) as H2.
  { refine (step_opcode_3 _ _ _ _ _ 3 st2 (P (i1 + 2)) e_sibling e_leaf 1
              _ _ _ _ _ _).
    - apply Hc2.
    - unfold MMR_STACK_SIZE. cbn. lia.
    - reflexivity.
    - reflexivity.
    - reflexivity.
    - left. reflexivity. }
  assert (ostep 3 st3 = Continue st4) as H3.
  { refine (step_opcode_5_here _ _ _ _ _ 3 st3 (P (i1 + 3)) e_parent
              _ _ _ _ _ _).
    - apply Hc3.
    - unfold MMR_STACK_SIZE. cbn. lia.
    - reflexivity.
    - discriminate.
    - discriminate.
    - reflexivity. }
  assert (ostep 3 st4 = Break st4) as H4.
  { unfold mmr_verify_step. cbn [st4 proof_reader_context command].
    rewrite Hc4. reflexivity. }
  cbn [Nat.add mmr_verify_loop]. rewrite H0, H1, H2, H3, H4.
  unfold mmr_verify_finish.
  cbn [st4 stack_top leaf_reader_context stack Z.eqb Pos.eqb negb].
  unfold L. rewrite (proj2 Hread).
  cbn [ERROR_NO_MORE_LEAFS Z.eqb].
  change (stack_get s4 0) with (Some p_parent).
  cbn [p_parent sv_node].
  destruct (negb (root_length =? node_length parent)); [reflexivity |].
  destruct (negb (MMR_MEMCMP root (mmr_node_value parent) root_length
                  =? 0)); reflexivity.
Qed.

End OneOfTwo.

(** X25.  The proof of one leaf of an MMR of three nodes, the two leaves
    and their parent, with the other leaf given as an item of the proof.
    For the left leaf (the proof pushes the leaf, then the item) the
    harness returns 0 exactly when [root] is, in 32 bytes, the digest of
    the leaf followed by the item; for the right leaf (the item first)
    exactly when it is the digest of the item followed by the leaf.
    Else it returns [ERROR_INVALID_PROOF]. *)
Theorem one_leaf_of_two (leaf_bytes sibling root : list byte)
    (root_length : Z) :
  Z.of_nat (length leaf_bytes) < 2 ^ 16 ->
  Z.of_nat (length sibling) < 2 ^ 16 ->
  let node bytes :=
    mk_node MMR_NODE_TYPE_POINTER bytes (Z.of_nat (length bytes)) in
  let verdict parent :=
    Returns
      (if (root_length =? 32)
          && (MMR_MEMCMP root (node_value parent) 32 =? 0)
       then 0 else ERROR_INVALID_PROOF) in
  let proof_left := [x01; x02] ++ node_record sibling ++ [x03; x05] in
  let proof_right := [x02] ++ node_record sibling ++ [x01; x03; x05] in
  run_mmr_verify root root_length 3 proof_left
    (Z.of_nat (length proof_left)) (leaf_record 0 leaf_bytes)
    (Z.of_nat (length (leaf_record 0 leaf_bytes)))
  = verdict (snd (mmr_blake2b_merge uninit_node (node leaf_bytes)
                    (node sibling)))
  /\ run_mmr_verify root root_length 3 proof_right
       (Z.of_nat (length proof_right)) (leaf_record 1 leaf_bytes)
       (Z.of_nat (length (leaf_record 1 leaf_bytes)))
     = verdict (snd (mmr_blake2b_merge uninit_node (node sibling)
                       (node leaf_bytes))).
Proof.
  intros Hleaf Hsibling node verdict proof_left proof_right.
  assert (forall parent dst lhs rhs,
            parent = snd (mmr_blake2b_merge dst lhs rhs) ->
            Returns
              (if negb (root_length =? node_length parent)
               then ERROR_INVALID_PROOF
               else if negb (MMR_MEMCMP root (mmr_node_value parent)
                               root_length =? 0)
                    then ERROR_INVALID_PROOF
                    else 0)
            = verdict parent) as Hverdict.
  { intros parent dst lhs rhs ->.
    destruct (merge_absorbs dst lhs rhs)
      as (_ & _ & digest & _ & _ & _ & _ & _ & _ & _ & Hmerge).
    unfold verdict. rewrite Hmerge.
    cbn [snd node_length mmr_node_value node_value].
    destruct (Z.eqb_spec root_length 32) as [-> | Hne]; cbn [negb andb];
      [| reflexivity].
    destruct (MMR_MEMCMP root digest 32 =? 0); reflexivity. }
  assert (forall proof : list byte,
            (6 <= length proof)%nat ->
            exists n, S (Z.to_nat (Z.of_nat (length proof))) = (5 + n)%nat)
    as Hfuel.
  { intros proof Hlen. exists (length proof - 4)%nat. lia. }
  unfold run_mmr_verify, mmr_default_buffer_reader_init. cbn [snd]. split.
  - destruct (Hfuel proof_left) as [n ->].
    { unfold proof_left. rewrite !length_app, node_record_length.
      cbn [length]. lia. }
    pose proof (left_leaf_trace mmr_blake2b_merge mmr_blake2b_merge
                  leaf_bytes sibling Hleaf Hsibling root root_length n)
      as Htrace.
    cbv zeta in Htrace. fold proof_left in Htrace. rewrite Htrace.
    clear Htrace. erewrite Hverdict by reflexivity. f_equal.
    f_equal. apply merge_bytes_ext. unfold node.
    rewrite !node_bytes_prefix, !node_bytes_exact. reflexivity.
  - destruct (Hfuel proof_right) as [n ->].
    { unfold proof_right. rewrite !length_app, node_record_length.
      cbn [length]. lia. }
    pose proof (right_leaf_trace mmr_blake2b_merge mmr_blake2b_merge
                  leaf_bytes sibling Hleaf Hsibling root root_length n)
      as Htrace.
    cbv zeta in Htrace. fold proof_right in Htrace. rewrite Htrace.
    clear Htrace. erewrite Hverdict by reflexivity. f_equal.
    f_equal. apply merge_bytes_ext. unfold node.
    rewrite !node_bytes_prefix, !node_bytes_exact. reflexivity.
Qed.

(** A leaf and an item of one byte each, and the root that fits the
    leaf on the right. *)
Lemma one_leaf_of_two_witness :
  run_mmr_verify
    (node_value
       (snd (mmr_blake2b_merge uninit_node
               (mk_node MMR_NODE_TYPE_POINTER [x0a] 1)
               (mk_node MMR_NODE_TYPE_POINTER [x0b] 1))))
    32 3 ([x02] ++ node_record [x0a] ++ [x01; x03; x05]) 7
    (leaf_record 1 [x0b]) 11
  = Returns 0.
Proof.
  destruct (one_leaf_of_two [x0b] [x0a]
              (node_value
                 (snd (mmr_blake2b_merge uninit_node
                         (mk_node MMR_NODE_TYPE_POINTER [x0a] 1)
                         (mk_node MMR_NODE_TYPE_POINTER [x0b] 1))))
              32 ltac:(cbn; lia) ltac:(cbn; lia)) as [_ Hright].
  etransitivity; [exact Hright |].
  cbn [Z.eqb Pos.eqb andb length Z.of_nat Pos.of_succ_nat Pos.succ].
  assert (forall s, MMR_MEMCMP s s 32 = 0) as ->.
  { intros s. unfold MMR_MEMCMP. apply memcmp_zero_iff. reflexivity. }
  reflexivity.
Defined.
